(** * TerraNova: financing schedules and the subordinated cash waterfall

    A shallow embedding of

    - [baselines/TerraNova_M3_FinancingEngine_v3.1.0/src/terra_nova/modules/
      m3_financing/engine.py]: [_annuity_payment], [create_loan_schedule],
      [_create_revolver_schedule], [_create_insurance_schedule],
      [create_financing_schedules];
    - [modules/m7_5b_rebuild/runner.py]: [_first_present], [_role],
      [_classify] and the numeric core of [run_m7_5b] (junior-flow
      aggregation, subordination, cash-flow layer, balance-sheet rebuild
      and USD views);
    - [CImage09161215/src/terra_nova/modules/m3_financing/runner.py]: the
      revolver loop of [run_m3];
    - [CImage09161215/tools/ci_m3_check.py]: the checks and the verdict of
      [main].

    Number model.  The Python code computes on binary64 floats.  Here a
    finite float is an exact rational in canonical form ([Qc]); rounding,
    overflow and infinities are outside the model, and a missing (NaN)
    cell of a table is [None] where the code can meet one.  Integers are
    [Z].  Exceptions are values of [exn] carried by the [result] monad.

    Layout.  First the embedding of the sources, then the vocabulary of
    the statements (predicates, example inputs, loop invariants), then
    the lemmas and the theorems: those of the claims C1 to C10, and the
    further properties X1 to X30. *)

From Stdlib Require Import ZArith QArith Qcanon List String Ascii Bool Lia.
From Stdlib Require Import DecimalString Lqa Permutation.
Import ListNotations.

Local Open Scope Z_scope.

(* ===================================================================== *)
(** ** Rationals standing for floats *)
(* ===================================================================== *)

Module Num.

Definition of_Z (z : Z) : Qc := Q2Qc (inject_Z z).

(** [a / b] written as a fraction of integer literals. *)
Definition frac (a : Z) (b : positive) : Qc := Q2Qc (a # b).

Definition ltb (x y : Qc) : bool :=
  match (x ?= y)%Qc with Lt => true | _ => false end.

Definition leb (x y : Qc) : bool :=
  match (x ?= y)%Qc with Gt => false | _ => true end.

Definition eqb (x y : Qc) : bool :=
  match (x ?= y)%Qc with Eq => true | _ => false end.

(** Python's two-argument [max(a, b)]: [b] only when it is strictly
    greater. *)
Definition max (a b : Qc) : Qc := if ltb a b then b else a.

(** [min(a, b)]: [b] only when it is strictly smaller. *)
Definition min (a b : Qc) : Qc := if ltb b a then b else a.

Definition abs (x : Qc) : Qc := if ltb x 0%Qc then (- x)%Qc else x.

(** [int(x)] on a float: truncation toward zero. *)
Definition trunc (x : Qc) : Z := Z.quot (Qnum x) (Zpos (Qden x)).

(** [1e-12] and [1e-6], the two tolerances of the sources. *)
Definition tiny : Qc := frac 1 1000000000000.
Definition tol : Qc := frac 1 1000000.

End Num.

(* ===================================================================== *)
(** ** Exceptions and the error monad *)
(* ===================================================================== *)

Inductive exn : Type :=
| KeyError (msg : string)
| ValueError
| TypeError
| ZeroDivisionError
| RuntimeError (msg : string).

(** The class name Python reports for an exception. *)
Definition exn_name (e : exn) : string :=
  match e with
  | KeyError _ => "KeyError"
  | ValueError => "ValueError"
  | TypeError => "TypeError"
  | ZeroDivisionError => "ZeroDivisionError"
  | RuntimeError _ => "RuntimeError"
  end.

Inductive result (A : Type) : Type :=
| Ok (a : A)
| Raise (e : exn).

Arguments Ok {A} a.
Arguments Raise {A} e.

Definition bind {A B : Type} (c : result A) (k : A -> result B) : result B :=
  match c with
  | Ok a => k a
  | Raise e => Raise e
  end.

Notation "x <- c ;; k" := (bind c (fun x => k))
  (at level 61, c at next level, right associativity).

(** [try: c  except Exception: h]. *)
Definition try_except {A : Type} (c : result A) (h : result A) : result A :=
  match c with
  | Ok a => Ok a
  | Raise _ => h
  end.

Definition returns {A : Type} (c : result A) : Prop := exists a, c = Ok a.

(* ===================================================================== *)
(** ** Python cell values and the builtins [int], [float], [str] *)
(* ===================================================================== *)

(** What a cell of a [pd.Series] row may hold. *)
Inductive pyval : Type :=
| PyNone
| PyInt (z : Z)
| PyFloat (q : Qc)
| PyStr (s : string).

Module Text.

Definition code (c : ascii) : Z := Z.of_N (N_of_ascii c).

(** ASCII characters [str.isspace] accepts. *)
Definition is_space (c : ascii) : bool :=
  let n := code c in
  ((9 <=? n) && (n <=? 13)) || ((28 <=? n) && (n <=? 32)).

Fixpoint lstrip (s : string) : string :=
  match s with
  | String c s' => if is_space c then lstrip s' else s
  | EmptyString => EmptyString
  end.

Fixpoint rev_string (acc s : string) : string :=
  match s with
  | String c s' => rev_string (String c acc) s'
  | EmptyString => acc
  end.

Definition rstrip (s : string) : string :=
  rev_string EmptyString (lstrip (rev_string EmptyString s)).

(** [s.strip()] *)
Definition strip (s : string) : string := rstrip (lstrip s).

Definition lower_char (c : ascii) : ascii :=
  let n := code c in
  if (65 <=? n) && (n <=? 90) then ascii_of_N (Z.to_N (n + 32)) else c.

(** [s.lower()] on ASCII text. *)
Fixpoint lower (s : string) : string :=
  match s with
  | String c s' => String (lower_char c) (lower s')
  | EmptyString => EmptyString
  end.

Definition digit (c : ascii) : option Z :=
  let n := code c in
  if (48 <=? n) && (n <=? 57) then Some (n - 48) else None.

(** Leading decimal digits of [s] and what follows them. *)
Fixpoint take_digits (s : string) : list Z * string :=
  match s with
  | String c s' =>
      match digit c with
      | Some d => let '(ds, rest) := take_digits s' in (d :: ds, rest)
      | None => ([], s)
      end
  | EmptyString => ([], EmptyString)
  end.

Definition digits_value (ds : list Z) : Z :=
  fold_left (fun acc d => 10 * acc + d) ds 0.

(** An optional sign: [true] for a leading minus. *)
Definition take_sign (s : string) : bool * string :=
  match s with
  | String "-" s' => (true, s')
  | String "+" s' => (false, s')
  | _ => (false, s)
  end.

Definition signed (neg : bool) (z : Z) : Z := if neg then - z else z.

(** The integer literals [int(str)] accepts: surrounding white space,
    an optional sign, decimal digits.  (Digit-group underscores and
    non-ASCII digits are not modelled.) *)
Definition parse_int (s : string) : option Z :=
  let '(neg, s1) := take_sign (strip s) in
  match take_digits s1 with
  | (d :: ds, EmptyString) => Some (signed neg (digits_value (d :: ds)))
  | _ => None
  end.

Definition take_exponent (s : string) : option Z :=
  match s with
  | EmptyString => Some 0
  | String c s' =>
      if (code c =? 101) || (code c =? 69) then
        let '(neg, s1) := take_sign s' in
        match take_digits s1 with
        | (d :: ds, EmptyString) => Some (signed neg (digits_value (d :: ds)))
        | _ => None
        end
      else None
  end.

Definition pow10 (e : Z) : Qc :=
  if e <? 0 then Q2Qc (1 # Pos.pow 10 (Z.to_pos (- e)))
  else Num.of_Z (10 ^ e).

(** The finite decimal literals [float(str)] accepts: white space, sign,
    digits with an optional fraction, an optional exponent.  (The
    spellings of infinity and NaN, which [float] also accepts, have no
    value in this number model and are not modelled.) *)
Definition parse_float (s : string) : option Qc :=
  let '(neg, s1) := take_sign (strip s) in
  let '(ip, s2) := take_digits s1 in
  let '(fp, s3) :=
    match s2 with
    | String "." s' => take_digits s'
    | _ => ([], s2)
    end in
  match ip, fp with
  | [], [] => None
  | _, _ =>
      match take_exponent s3 with
      | Some e =>
          let mant := digits_value (ip ++ fp) in
          let scale := e - Z.of_nat (List.length fp) in
          Some (Num.of_Z (signed neg mant) * pow10 scale)%Qc
      | None => None
      end
  end.

Definition of_Z (z : Z) : string := NilZero.string_of_int (Z.to_int z).

Fixpoint frac_digits (fuel : nat) (f : Qc) : string :=
  match fuel with
  | O => EmptyString
  | S fuel' =>
      let t := (f * Num.of_Z 10)%Qc in
      let d := Num.trunc t in
      let r := (t - Num.of_Z d)%Qc in
      String (ascii_of_N (Z.to_N (48 + d)))
             (if Num.eqb r 0%Qc then EmptyString else frac_digits fuel' r)
  end.

(** Decimal text of a float: sign, integer part, point, fraction digits
    (at most 17).  Python prints the shortest round-tripping text and
    switches to exponent form for very large and very small magnitudes;
    this differs there, and in neither form does the text spell a word. *)
Definition of_float (q : Qc) : string :=
  let a := Num.abs q in
  let ip := Num.trunc a in
  ((if Num.ltb q 0%Qc then "-" else "") ++ of_Z ip ++ "."
     ++ frac_digits 17 (a - Num.of_Z ip)%Qc)%string.

End Text.

(** [int(v)] *)
Definition py_int (v : pyval) : result Z :=
  match v with
  | PyNone => Raise TypeError
  | PyInt z => Ok z
  | PyFloat q => Ok (Num.trunc q)
  | PyStr s =>
      match Text.parse_int s with
      | Some z => Ok z
      | None => Raise ValueError
      end
  end.

(** [float(v)] *)
Definition py_float (v : pyval) : result Qc :=
  match v with
  | PyNone => Raise TypeError
  | PyInt z => Ok (Num.of_Z z)
  | PyFloat q => Ok q
  | PyStr s =>
      match Text.parse_float s with
      | Some q => Ok q
      | None => Raise ValueError
      end
  end.

(** [str(v)] *)
Definition py_str (v : pyval) : string :=
  match v with
  | PyNone => "None"
  | PyInt z => Text.of_Z z
  | PyFloat q => Text.of_float q
  | PyStr s => s
  end.

(** Truthiness, as used by [x or 0]. *)
Definition py_truthy (v : pyval) : bool :=
  match v with
  | PyNone => false
  | PyInt z => negb (z =? 0)
  | PyFloat q => negb (Num.eqb q 0%Qc)
  | PyStr s => negb (String.eqb s "")
  end.

(** [a == b] between cells: numbers compare by value, a string only equals
    the same string, [None] only [None]. *)
Definition py_eq (a b : pyval) : bool :=
  match a, b with
  | PyNone, PyNone => true
  | PyStr s, PyStr t => String.eqb s t
  | PyInt x, PyInt y => x =? y
  | PyInt x, PyFloat y => Num.eqb (Num.of_Z x) y
  | PyFloat x, PyInt y => Num.eqb x (Num.of_Z y)
  | PyFloat x, PyFloat y => Num.eqb x y
  | _, _ => false
  end.

(** A row ([pd.Series]) as an association list from column name to cell;
    the first binding of a name is the one looked up. *)
Definition series := list (string * pyval).

Fixpoint lookup (row : series) (name : string) : option pyval :=
  match row with
  | [] => None
  | (k, v) :: row' => if String.eqb k name then Some v else lookup row' name
  end.

(** [row.get(name, default)] *)
Definition series_get (row : series) (name : string) (default : pyval) : pyval :=
  match lookup row name with
  | Some v => v
  | None => default
  end.

(** [row[name]] *)
Definition series_item (row : series) (name : string) : result pyval :=
  match lookup row name with
  | Some v => Ok v
  | None => Raise (KeyError name)
  end.

(* ===================================================================== *)
(** ** engine.py: the standard loan schedule *)
(* ===================================================================== *)

Local Open Scope Qc_scope.

(** [_annuity_payment(principal, rate_m, periods)].  A float zero raised to
    a negative power and a float division by zero both raise
    [ZeroDivisionError]. *)
Definition _annuity_payment (principal rate_m : Qc) (periods : Z) : result Qc :=
  if (periods <=? 0)%Z then Ok principal
  else if Num.ltb (Num.abs rate_m) Num.tiny then Ok (principal / Num.of_Z periods)
  else
    let base := 1 + rate_m in
    if Num.eqb base 0 then Raise ZeroDivisionError
    else
      let den := 1 - / (base ^ Z.to_nat periods) in
      if Num.eqb den 0 then Raise ZeroDivisionError
      else Ok (principal * rate_m / den).

(** The [Month_Index] column of the calendar table. *)
Definition calendar := list Z.

(** [int(pd.to_numeric(calendar_df["Month_Index"]).max())]: the maximum of
    an empty column is NaN, which [int] refuses. *)
Definition calendar_horizon (cal : calendar) : result Z :=
  match cal with
  | [] => Raise ValueError
  | m :: ms => Ok (fold_left Z.max ms m)
  end.

Definition is_blank (v : pyval) : bool :=
  match v with
  | PyNone => true
  | PyStr EmptyString => true
  | _ => false
  end.

(** The local helper [_ival(name, default)] of [create_loan_schedule]. *)
Definition _ival (loan_params : series) (name : string) (default : Z) : result Z :=
  let v := series_get loan_params name (PyInt default) in
  try_except (py_int v)
    (if is_blank v then py_int (PyInt default)
     else f <- py_float v ;; py_int (PyFloat f)).

(** The local helper [_fval(name, default)]. *)
Definition _fval (loan_params : series) (name : string) (default : Qc) : result Qc :=
  let v := series_get loan_params name (PyFloat default) in
  try_except (py_float v) (py_float (PyFloat default)).

(** The sanitized inputs of one loan (lines 51-59). *)
Record loan_terms : Type := {
  principal : Qc;
  rate_pct : Qc;
  tenor : Z;
  draw_start : Z;
  draw_end : Z;
  grace_prin_m : Z;
  amort_type : string
}.

Definition loan_inputs (loan_params : series) (horizon : Z) : result loan_terms :=
  principal <- _fval loan_params "Principal" 0 ;;
  rate_pct <- _fval loan_params "Rate_Pct" 0 ;;
  tenor_raw <- _ival loan_params "Tenor_Months" horizon ;;
  let tenor := Z.max tenor_raw 0 in
  draw_start_raw <- _ival loan_params "Draw_Start_M" 1 ;;
  let draw_start := Z.max draw_start_raw 1 in
  draw_end_raw <- _ival loan_params "Draw_End_M" draw_start ;;
  let draw_end := Z.max 0 (Z.min (Z.min draw_end_raw tenor) horizon) in
  grace_raw <- _ival loan_params "Grace_Principal_M" 0 ;;
  let grace_prin_m := Z.max grace_raw 0 in
  let amort_type :=
    Text.lower (Text.strip (py_str (series_get loan_params "Amort_Type" (PyStr "annuity")))) in
  Ok {| principal := principal; rate_pct := rate_pct; tenor := tenor;
        draw_start := draw_start; draw_end := draw_end;
        grace_prin_m := grace_prin_m; amort_type := amort_type |}.

Section LoanTerms.

Variable t : loan_terms.

Definition r_m : Qc := rate_pct t / Num.of_Z 100 / Num.of_Z 12.

Definition draw_months : Z :=
  if (draw_start t <=? draw_end t)%Z
  then Z.max 0 (draw_end t - draw_start t + 1) else 0%Z.

Definition monthly_draw : Qc :=
  if (0 <? draw_months)%Z then principal t / Num.of_Z draw_months else 0.

Definition amort_start : Z := Z.min (draw_end t + grace_prin_m t + 1) (tenor t).

Definition amort_nper : Z := Z.max (tenor t - amort_start + 1) 0.

End LoanTerms.

(** One row of the schedule table. *)
Record sched_row : Type := {
  Month_Index : Z;
  Opening_Balance : Qc;
  Drawdown : Qc;
  Interest_Accrued : Qc;
  Principal_Repayment : Qc;
  Closing_Balance : Qc
}.

(** What the loop carries from one month to the next: the previous row's
    closing balance and the three lazily initialised amounts. *)
Record loop_state : Type := {
  closing_prev : Qc;
  annuity_pmt : option Qc;
  straight_principal : option Qc;
  pv_at_amort_start : option Qc
}.

Definition loop_init : loop_state :=
  {| closing_prev := 0; annuity_pmt := None;
     straight_principal := None; pv_at_amort_start := None |}.

(** The body of [if annuity_pmt is None: ...; repay = max(0.0, annuity_pmt - interest);
    if m == tenor: repay = max(0.0, opening + draw)], shared verbatim by the
    ["annuity"] branch and the final [else] branch. *)
Definition annuity_repay (t : loan_terms) (m : Z) (opening draw interest pv : Qc)
    (st : loop_state) : result (Qc * loop_state) :=
  pmt <- match annuity_pmt st with
         | None => _annuity_payment pv (r_m t) (amort_nper t)
         | Some p => Ok p
         end ;;
  let repay := Num.max 0 (pmt - interest) in
  let repay := if (m =? tenor t)%Z then Num.max 0 (opening + draw) else repay in
  Ok (repay, {| closing_prev := closing_prev st; annuity_pmt := Some pmt;
                straight_principal := straight_principal st;
                pv_at_amort_start := Some pv |}).

(** The repayment of a month inside the amortization window (lines 97-121). *)
Definition amort_repay (t : loan_terms) (m : Z) (opening draw interest : Qc)
    (st : loop_state) : result (Qc * loop_state) :=
  let pv := match pv_at_amort_start st with
            | None => opening + 0
            | Some pv => pv
            end in
  if String.eqb (amort_type t) "annuity" then
    annuity_repay t m opening draw interest pv st
  else if String.eqb (amort_type t) "straight" then
    let sp := match straight_principal st with
              | None => if (0 <? amort_nper t)%Z then pv / Num.of_Z (amort_nper t) else 0
              | Some sp => sp
              end in
    let repay := if (m =? tenor t)%Z then Num.max 0 (opening + draw) else sp in
    Ok (repay, {| closing_prev := closing_prev st; annuity_pmt := annuity_pmt st;
                  straight_principal := Some sp; pv_at_amort_start := Some pv |})
  else if String.eqb (amort_type t) "bullet" then
    let repay := if (m <? tenor t)%Z then 0 else Num.max 0 (opening + draw) in
    Ok (repay, {| closing_prev := closing_prev st; annuity_pmt := annuity_pmt st;
                  straight_principal := straight_principal st;
                  pv_at_amort_start := Some pv |})
  else
    annuity_repay t m opening draw interest pv st.

(** One iteration of [for i in range(horizon)], with [m = i + 1]. *)
Definition loan_step (t : loan_terms) (m : Z) (st : loop_state)
    : result (sched_row * loop_state) :=
  let opening := closing_prev st in
  let draw :=
    if ((0 <? draw_months t) && ((draw_start t <=? m) && (m <=? draw_end t)))%Z
    then monthly_draw t else 0 in
  let interest :=
    if ((1 <=? m) && (m <=? tenor t))%Z then opening * r_m t else 0 in
  rs <- (if ((0 <? amort_nper t) && ((amort_start t <=? m) && (m <=? tenor t)))%Z
         then amort_repay t m opening draw interest st
         else Ok (0, st)) ;;
  let '(repay, st1) := rs in
  let closing := opening + draw - repay in
  Ok ({| Month_Index := m; Opening_Balance := opening; Drawdown := draw;
         Interest_Accrued := interest; Principal_Repayment := repay;
         Closing_Balance := closing |},
      {| closing_prev := closing; annuity_pmt := annuity_pmt st1;
         straight_principal := straight_principal st1;
         pv_at_amort_start := pv_at_amort_start st1 |}).

Fixpoint loan_loop (t : loan_terms) (months : list Z) (st : loop_state)
    : result (list sched_row) :=
  match months with
  | [] => Ok []
  | m :: months' =>
      rs <- loan_step t m st ;;
      rest <- loan_loop t months' (snd rs) ;;
      Ok (fst rs :: rest)
  end.

(** [m = i + 1 for i in range(horizon)] *)
Definition month_range (horizon : Z) : list Z :=
  map (fun i => Z.of_nat i + 1)%Z (seq 0 (Z.to_nat horizon)).

(** [create_loan_schedule(loan_params, calendar_df)] *)
Definition create_loan_schedule (loan_params : series) (cal : calendar)
    : result (list sched_row) :=
  horizon <- calendar_horizon cal ;;
  t <- loan_inputs loan_params horizon ;;
  loan_loop t (month_range horizon) loop_init.

(* ===================================================================== *)
(** ** engine.py: revolver, insurance and the case selector *)
(* ===================================================================== *)

Local Open Scope string_scope.

Module Revolver.

Record row : Type := {
  Month_Index : Z;
  Line_ID : Z;
  Currency : string;
  Opening_Balance : Qc;
  Drawdown : Qc;
  Repayment : Qc;
  Interest_Accrued : Qc;
  Closing_Balance : Qc
}.

(** [_create_revolver_schedule(row, calendar_df)] *)
Definition _create_revolver_schedule (r : series) (cal : calendar) : result (list row) :=
  v <- series_item r "Principal" ;;
  principal <- py_float v ;;
  v <- series_item r "Rate_Pct" ;;
  rate <- py_float v ;;
  let rate_m := (rate / Num.of_Z 100) / Num.of_Z 12 in
  v <- series_item r "Tenor_Months" ;;
  tenor <- py_int v ;;
  v <- series_item r "Draw_Start_M" ;;
  draw_start <- py_int v ;;
  v <- series_item r "Line_ID" ;;
  line_id <- py_int v ;;
  v <- series_item r "Currency" ;;
  let ccy := py_str v in
  Ok (map (fun m =>
             let active := ((draw_start <=? m) && (m <=? tenor))%Z in
             {| Month_Index := m; Line_ID := line_id; Currency := ccy;
                Opening_Balance := 0; Drawdown := 0; Repayment := 0;
                Interest_Accrued :=
                  if active then Num.frac 1 2 * principal * rate_m else 0;
                Closing_Balance := 0 |})
          cal).

End Revolver.

Module Insurance.

Record row : Type := {
  Month_Index : Z;
  Line_ID : Z;
  Currency : string;
  Premium_Cash_Outflow : Qc;
  Expense_Recognized : Qc;
  Prepaid_BOP : Qc;
  Prepaid_EOP : Qc
}.

(** [_create_insurance_schedule(row, calendar_df)]: the all-zero stub. *)
Definition _create_insurance_schedule (r : series) (cal : calendar) : result (list row) :=
  horizon <- calendar_horizon cal ;;
  v <- series_item r "Line_ID" ;;
  line_id <- py_int v ;;
  v <- series_item r "Currency" ;;
  let currency := py_str v in
  Ok (map (fun m =>
             {| Month_Index := m; Line_ID := line_id; Currency := currency;
                Premium_Cash_Outflow := 0; Expense_Recognized := 0;
                Prepaid_BOP := 0; Prepaid_EOP := 0 |})
          (month_range horizon)).

End Insurance.

(** A table: its column names and its rows.  A cell a row lacks reads as
    [None] (pandas shows such a cell as missing). *)
Record dataframe : Type := {
  columns : list string;
  records : list series
}.

Definition cell (r : series) (name : string) : pyval := series_get r name PyNone.

Definition has_column (df : dataframe) (name : string) : bool :=
  existsb (String.eqb name) (columns df).

Definition req_cols : list string :=
  ["Case_Name"; "Line_ID"; "Instrument"; "Currency"; "Principal"; "Rate_Pct";
   "Tenor_Months"; "Draw_Start_M"; "Draw_End_M"; "Grace_Int_M";
   "Grace_Principal_M"; "Amort_Type"; "Balloon_Pct"; "Revolving";
   "Is_Insurance"; "Premium_Rate_Pct"; "Secured_By"; "Active"].

(** The three artifacts [create_financing_schedules] returns. *)
Record m3_artifacts : Type := {
  revolver : list Revolver.row;
  insurance : list Insurance.row;
  index : list series
}.

(** [int(r.get(name, 0) or 0) == 1] *)
Definition flag_is_one (r : series) (name : string) : result bool :=
  let v := series_get r name (PyInt 0) in
  n <- py_int (if py_truthy v then v else PyInt 0) ;;
  Ok (n =? 1)%Z.

(** The loop [for _, r in rows.iterrows()], accumulating the revolver and
    insurance tables; a standard loan's schedule is computed and dropped. *)
Fixpoint dispatch_rows (rows : list series) (cal : calendar)
    : result (list Revolver.row * list Insurance.row) :=
  match rows with
  | [] => Ok ([], [])
  | r :: rows' =>
      ins <- flag_is_one r "Is_Insurance" ;;
      here <- (if ins then
                 s <- Insurance._create_insurance_schedule r cal ;; Ok ([], s)
               else
                 rev <- flag_is_one r "Revolving" ;;
                 if rev then
                   s <- Revolver._create_revolver_schedule r cal ;; Ok (s, [])
                 else
                   _ <- create_loan_schedule r cal ;; Ok ([], [])) ;;
      rest <- dispatch_rows rows' cal ;;
      Ok ((fst here ++ fst rest)%list, (snd here ++ snd rest)%list)
  end.

Definition index_cols : list string :=
  ["Case_Name"; "Line_ID"; "Instrument"; "Revolving"; "Is_Insurance"; "Currency"].

(** [create_financing_schedules(finance_stack_df, pfinance_case_selector_df,
    calendar_df)].  The texts of the [KeyError]s are those of the source,
    without the rendered list of missing names. *)
Definition create_financing_schedules (finance_stack_df pfinance_case_selector_df : dataframe)
    (cal : calendar) : result m3_artifacts :=
  if negb (forallb (has_column finance_stack_df) req_cols) then
    Raise (KeyError "Finance_Stack missing required columns")
  else if negb (has_column pfinance_case_selector_df "Key")
          || negb (has_column pfinance_case_selector_df "Value") then
    Raise (KeyError "PFinance_Case_Selector must contain 'Key' and 'Value' columns.")
  else
    let sel := filter (fun r => py_eq (cell r "Key") (PyStr "PFinance_Case"))
                      (records pfinance_case_selector_df) in
    match sel with
    | [] => Raise (KeyError "PFinance_Case_Selector is missing the 'PFinance_Case' row.")
    | first :: _ =>
        let active_case := py_str (cell first "Value") in
        let rows :=
          filter (fun r => py_eq (cell r "Case_Name") (PyStr active_case)
                           && py_eq (cell r "Active") (PyInt 1))
                 (records finance_stack_df) in
        tables <- dispatch_rows rows cal ;;
        Ok {| revolver := fst tables; insurance := snd tables;
              index := map (fun r => map (fun c => (c, cell r c)) index_cols) rows |}
    end.

(* ===================================================================== *)
(** ** ci_m3_check.py: the principal identity *)
(* ===================================================================== *)

Module Check.

(** One row's [(df[open] + df[draw] - df[repay] - df[close]).abs()]. *)
Definition delta (open draw repay close : Qc) : Qc :=
  Num.abs (open + draw - repay - close).

(** [Series.max()]: no value on an empty column. *)
Definition series_max (xs : list Qc) : option Qc :=
  match xs with
  | [] => None
  | x :: xs' => Some (fold_left Num.max xs' x)
  end.

(** [identity_ok = float(delta.max()) <= 1e-6]; the comparison is false
    when the maximum is missing. *)
Definition identity_ok (deltas : list Qc) : bool :=
  match series_max deltas with
  | Some d => Num.leb d Num.tol
  | None => false
  end.


Definition revolver_deltas (sched : list Revolver.row) : list Qc :=
  map (fun r => delta (Revolver.Opening_Balance r) (Revolver.Drawdown r)
                      (Revolver.Repayment r) (Revolver.Closing_Balance r)) sched.

End Check.

(* ===================================================================== *)
(** ** m7_5b_rebuild/runner.py: the numeric core of [run_m7_5b] *)
(* ===================================================================== *)

(** Arrays are lists aligned on [months]; the NumPy operations used by the
    runner act element by element. *)
Module Np.

Fixpoint map2 {A B C : Type} (f : A -> B -> C) (xs : list A) (ys : list B) : list C :=
  match xs, ys with
  | x :: xs', y :: ys' => f x y :: map2 f xs' ys'
  | _, _ => []
  end.

Definition add : list Qc -> list Qc -> list Qc := map2 Qcplus.
Definition sub : list Qc -> list Qc -> list Qc := map2 Qcminus.

(** [np.maximum(c, xs)] with a scalar [c]. *)
Definition maximum_scalar (c : Qc) (xs : list Qc) : list Qc :=
  map (fun x => if Num.ltb c x then x else c) xs.

(** [np.minimum(xs, ys)] *)
Definition minimum : list Qc -> list Qc -> list Qc :=
  map2 (fun x y => if Num.ltb y x then y else x).

Fixpoint cumsum_from (acc : Qc) (xs : list Qc) : list Qc :=
  match xs with
  | [] => []
  | x :: xs' => (acc + x) :: cumsum_from (acc + x) xs'
  end.

(** [np.cumsum(xs)] *)
Definition cumsum (xs : list Qc) : list Qc := cumsum_from 0 xs.

(** [np.zeros(n)] *)
Definition zeros (n : nat) : list Qc := repeat 0 n.

End Np.

Module M75B.

Definition JUNIOR_FLOW_IN_TYPES : list string := ["Equity_In"; "Note_Draw"].
Definition JUNIOR_FLOW_OUT_TYPES : list string :=
  ["Pref_Dividend"; "RevShare_Out"; "Buyout_At_Refi"; "Buyout"; "Dividend_Paid"].
Definition JUNIOR_FLOW_NONCASH_LIAB_UP : list string := ["PIK_Accrual"].
Definition JUNIOR_FLOW_CONVERSION : list string := ["Note_Convert"].

Definition isin (types : list string) (s : string) : bool :=
  existsb (String.eqb s) types.

(** [sub in s] for strings. *)
Fixpoint contains (sub s : string) : bool :=
  String.prefix sub s ||
  match s with
  | EmptyString => false
  | String _ s' => contains sub s'
  end.

(** [_classify(instr)] *)
Definition _classify (instr : string) : string :=
  let s := Text.lower instr in
  if contains "convertible" s then "debt_like"
  else if contains "safe" s || contains "preferred" s
          || contains "pref" s || contains "revshareonly" s then "equity_like"
  else "debt_like".

(** A row of [m7_5_junior_financing.parquet]. *)
Record junior_flow : Type := {
  Month_Index : Z;
  Flow_Type : string;
  Amount_NAD_000 : Qc
}.

(** A numeric column keyed by [Month_Index]; [None] is a missing (NaN)
    cell. *)
Definition column := list (Z * option Qc).

Definition fail {A : Type} (msg : string) : result A := Raise (RuntimeError msg).

(** [df.set_index("Month_Index")[col].reindex(months).fillna(0.0)]:
    pandas refuses to reindex a duplicated index. *)
Fixpoint has_dup (ks : list Z) : bool :=
  match ks with
  | [] => false
  | k :: ks' => existsb (Z.eqb k) ks' || has_dup ks'
  end.

Fixpoint at_month (col : column) (m : Z) : Qc :=
  match col with
  | [] => 0
  | (k, v) :: col' =>
      if (k =? m)%Z then match v with Some x => x | None => 0 end
      else at_month col' m
  end.

Definition reindex_fill0 (col : column) (months : list Z) : result (list Qc) :=
  if has_dup (map fst col) then Raise ValueError
  else Ok (map (at_month col) months).

(** [sorted(df_m6["Month_Index"].unique().tolist())] *)
Fixpoint insert_unique (k : Z) (ks : list Z) : list Z :=
  match ks with
  | [] => [k]
  | k' :: ks' =>
      if (k <? k')%Z then k :: ks
      else if (k =? k')%Z then ks
      else k' :: insert_unique k ks'
  end.

Definition sorted_unique (ks : list Z) : list Z :=
  fold_right insert_unique [] ks.

(** A row of [m6_balance_sheet.parquet], reduced to the columns read. *)
Record m6_row : Type := {
  m6_Month_Index : Z;
  m6_cash : option Qc;
  m6_assets_total : option Qc
}.

(** A row of [m3_revolver_schedule.parquet]: interest paid, principal paid. *)
Record m3_row : Type := {
  m3_Month_Index : Z;
  m3_interest_paid : option Qc;
  m3_principal_paid : option Qc
}.

(** The tables the runner has loaded, reduced to the columns its numeric
    core reads.  [df_m3] and [df_m4] are [None] when the optional file is
    absent or lacks the columns looked for. *)
Record inputs : Type := {
  instrument : string;
  ticket_usd : Qc;
  df_j : list junior_flow;
  df_fx : list (Z * Qc);
  df_m5 : column;
  df_m6 : list m6_row;
  df_m3 : option (list m3_row);
  df_m4 : option column;
  start_month_index : option Z
}.

Definition list_min (ks : list Z) : option Z :=
  match ks with
  | [] => None
  | k :: ks' => Some (fold_left Z.min ks' k)
  end.

Definition inflow_rows (flows : list junior_flow) : list junior_flow :=
  filter (fun f => isin JUNIOR_FLOW_IN_TYPES (Flow_Type f)) flows.

(** Lines 243-262: the opening inflow is synthesized from the ticket
    when the schedule has no inflow at the injection month. *)
Definition with_opening_inflow (inp : inputs) (classification : string)
    : result (list junior_flow) :=
  match list_min (map m6_Month_Index (df_m6 inp)), df_fx inp with
  | None, _ => fail "Empty M6 balance sheet"
  | _, [] => fail "Empty FX path"
  | Some m6_min, (_, fx0) :: _ =>
      let start_m := match start_month_index inp with
                     | None => m6_min
                     | Some s => s
                     end in
      let inj_month :=
        match list_min (map Month_Index (inflow_rows (df_j inp))) with
        | Some m => m
        | None => start_m
        end in
      match filter (fun f => (Month_Index f =? inj_month)%Z) (inflow_rows (df_j inp)) with
      | _ :: _ => Ok (df_j inp)
      | [] =>
          let fx_val :=
            match filter (fun kv => (fst kv =? inj_month)%Z) (df_fx inp) with
            | (_, v) :: _ => v
            | [] => fx0
            end in
          let inj_nad_000 := ticket_usd inp * fx_val / Num.of_Z 1000 in
          Ok (df_j inp ++
              [{| Month_Index := inj_month;
                  Flow_Type := if String.eqb classification "equity_like"
                               then "Equity_In" else "Note_Draw";
                  Amount_NAD_000 := inj_nad_000 |}])%list
      end
  end.

(** [df_j.loc[df_j["Flow_Type"].isin(types)].groupby("Month_Index")
    ["Amount_NAD_000"].sum()], read at the months of [agg] with missing
    months filled by 0. *)
Definition bucket_sum (flows : list junior_flow) (types : list string) (m : Z) : Qc :=
  fold_left Qcplus
    (map Amount_NAD_000
         (filter (fun f => isin types (Flow_Type f) && (Month_Index f =? m)%Z) flows))
    0.

Definition bucket (flows : list junior_flow) (types : list string) (months : list Z)
    : list Qc :=
  map (bucket_sum flows types) months.

(** The statements the runner emits, column by column, together with the
    local arrays of the subordination step. *)
Record outputs : Type := {
  months : list Z;
  JUN_IN_NAD_000 : list Qc;
  JUN_OUT_SCHED_NAD_000 : list Qc;
  JUN_PIK_NAD_000 : list Qc;
  JUN_CONVERT_NAD_000 : list Qc;
  CFO_NAD_000 : list Qc;
  senior_service : list Qc;
  tax_paid : list Qc;
  available : list Qc;
  actual_out : list Qc;
  unpaid : list Qc;
  CFI_NAD_000 : list Qc;
  CFF_NAD_000 : list Qc;
  NET_CF_NAD_000 : list Qc;
  Cash_And_Equivalents_NAD_000 : list Qc;
  Junior_Note_Liability_NAD_000 : list Qc;
  Contributed_Equity_Junior_NAD_000 : list Qc;
  Dividends_Payable_or_RevShare_Payable_NAD_000 : list Qc;
  Assets_Total_NAD_000 : list Qc;
  Liabilities_And_Equity_Total_NAD_000 : list Qc
}.

(** The debt-like liability roll-forward [bal += draws[i] + pik[i] - conv[i]]. *)
Fixpoint liability_roll (bal : Qc) (draws pik conv : list Qc) : list Qc :=
  match draws, pik, conv with
  | d :: draws', p :: pik', c :: conv' =>
      let bal' := bal + (d + p - c) in
      bal' :: liability_roll bal' draws' pik' conv'
  | _, _, _ => []
  end.

(** Lines 160-361 of [run_m7_5b], without file access, printing, column
    synonym resolution, the pass-through of the P&L and the USD views.
    [_read_parquet] fails on an empty table. *)
Definition run_m7_5b (inp : inputs) : result outputs :=
  if match df_j inp with [] => true | _ => false end then fail "Empty junior financing schedule"
  else if match df_m5 inp with [] => true | _ => false end then fail "Empty M5 cash flow"
  else if match df_m6 inp with [] => true | _ => false end then fail "Empty M6 balance sheet"
  else if match df_fx inp with [] => true | _ => false end then fail "Empty FX path"
  else
  let classification := _classify (instrument inp) in
  flows <- with_opening_inflow inp classification ;;
  let months := sorted_unique (map m6_Month_Index (df_m6 inp)) in
  let n := List.length months in
  let jun_in := bucket flows JUNIOR_FLOW_IN_TYPES months in
  let sched_out := bucket flows JUNIOR_FLOW_OUT_TYPES months in
  let pik := bucket flows JUNIOR_FLOW_NONCASH_LIAB_UP months in
  let conv := bucket flows JUNIOR_FLOW_CONVERSION months in
  cfo <- reindex_fill0 (df_m5 inp) months ;;
  senior_service <-
    match df_m3 inp with
    | Some m3 =>
        i <- reindex_fill0 (map (fun r => (m3_Month_Index r, m3_interest_paid r)) m3) months ;;
        p <- reindex_fill0 (map (fun r => (m3_Month_Index r, m3_principal_paid r)) m3) months ;;
        Ok (Np.add i p)
    | None => Ok (Np.zeros n)
    end ;;
  tax_paid <-
    match df_m4 inp with
    | Some tp => reindex_fill0 tp months
    | None => Ok (Np.zeros n)
    end ;;
  let available := Np.maximum_scalar 0 (Np.sub (Np.sub cfo senior_service) tax_paid) in
  let actual_out := Np.minimum sched_out available in
  let unpaid := Np.sub sched_out actual_out in
  let cff_nad := Np.sub jun_in actual_out in
  let cfi_nad := Np.zeros n in
  let net_cf := Np.add (Np.add cfo cfi_nad) cff_nad in
  cash_base <- reindex_fill0 (map (fun r => (m6_Month_Index r, m6_cash r)) (df_m6 inp)) months ;;
  let cash_rebuilt := Np.add cash_base (Np.cumsum cff_nad) in
  let equity_delta := Np.sub jun_in sched_out in
  let payable_eop := Np.cumsum unpaid in
  let '(junior_liab_eop, junior_equity_eop) :=
    if String.eqb classification "equity_like" then
      (Np.zeros n, Np.cumsum equity_delta)
    else
      (liability_roll 0 jun_in pik conv, Np.cumsum (Np.add equity_delta conv)) in
  atot <- reindex_fill0 (map (fun r => (m6_Month_Index r, m6_assets_total r)) (df_m6 inp)) months ;;
  let other_assets := Np.sub atot cash_base in
  let assets_total := Np.add other_assets cash_rebuilt in
  let le_total := assets_total in
  Ok {| months := months;
        JUN_IN_NAD_000 := jun_in;
        JUN_OUT_SCHED_NAD_000 := sched_out;
        JUN_PIK_NAD_000 := pik;
        JUN_CONVERT_NAD_000 := conv;
        CFO_NAD_000 := cfo;
        senior_service := senior_service;
        tax_paid := tax_paid;
        available := available;
        actual_out := actual_out;
        unpaid := unpaid;
        CFI_NAD_000 := cfi_nad;
        CFF_NAD_000 := cff_nad;
        NET_CF_NAD_000 := net_cf;
        Cash_And_Equivalents_NAD_000 := cash_rebuilt;
        Junior_Note_Liability_NAD_000 := junior_liab_eop;
        Contributed_Equity_Junior_NAD_000 := junior_equity_eop;
        Dividends_Payable_or_RevShare_Payable_NAD_000 := payable_eop;
        Assets_Total_NAD_000 := assets_total;
        Liabilities_And_Equity_Total_NAD_000 := le_total |}.

(** Line 428: [tie = (A_total - LE_total).abs().max()]. *)
Definition identity_check_max_abs_diff (o : outputs) : option Qc :=
  Check.series_max
    (map Num.abs (Np.sub (Assets_Total_NAD_000 o) (Liabilities_And_Equity_Total_NAD_000 o))).

End M75B.

(* ===================================================================== *)
(** * Further parts of the sources *)
(* ===================================================================== *)

Local Open Scope Qc_scope.

(** ** m7_5b_rebuild/runner.py: column roles *)

Module Roles.

(** [_first_present(df, cands)], on the column names of [df]. *)
Definition _first_present (columns cands : list string) : option string :=
  find (fun c => existsb (String.eqb c) columns) cands.

(** [not col]: true of [None] and of the empty name. *)
Definition unresolved (col : option string) : bool :=
  match col with
  | None => true
  | Some c => String.eqb c ""
  end.

(** [_role(df, cands, hard)]; the text of the failure is that of the
    source without the rendered lists of names. *)
Definition _role (columns cands : list string) (hard : bool) : result (option string) :=
  let col := _first_present columns cands in
  if hard && unresolved col then M75B.fail "Cannot resolve any of the candidates"
  else Ok col.

Definition FX_AVG_CANDIDATES : list string :=
  ["FX_USD_TO_NAD_AVG"; "USD_to_NAD_AVG"; "USDNAD_AVG"; "FX_Avg";
   "USD_to_NAD"; "FX_USD_to_NAD"; "NAD_per_USD"].

End Roles.

(* ===================================================================== *)
(** ** m7_5b_rebuild/runner.py: the USD views *)
(* ===================================================================== *)

(** Lines 381-404, for an FX table whose average and end-of-month rates
    are two columns (when both roles fall on one column the selection
    [[fx_avg_col, fx_eom_col]] has a repeated name; that case is not
    modelled).  A pandas series carries index labels: [cf], [bs] and
    [pl_out] are indexed by [months] until [reset_index()] numbers their
    rows 0, 1, 2, ...; [fx] stays indexed by [months]. *)
Module Usd.

Import M75B.

(** The cell of month [m] in a column keyed by [Month_Index]; [None] is a
    missing (NaN) cell, also for a month the column does not have. *)
Fixpoint lookup_month (col : column) (m : Z) : option Qc :=
  match col with
  | [] => None
  | (k, v) :: col' => if (k =? m)%Z then v else lookup_month col' m
  end.

(** [df_fx.set_index("Month_Index")[col].reindex(months)] *)
Definition reindex (col : column) (months : list Z) : result (list (option Qc)) :=
  if has_dup (map fst col) then Raise ValueError
  else Ok (map (lookup_month col) months).

(** [.replace({0: np.nan})] *)
Definition replace_zero (xs : list (option Qc)) : list (option Qc) :=
  map (fun x => match x with
                | Some q => if Num.eqb q 0 then None else Some q
                | None => None
                end) xs.

(** [.ffill()]: a missing cell takes the last value before it. *)
Fixpoint ffill_from (last : option Qc) (xs : list (option Qc)) : list (option Qc) :=
  match xs with
  | [] => []
  | x :: xs' =>
      let v := match x with Some _ => x | None => last end in
      v :: ffill_from v xs'
  end.

Definition ffill (xs : list (option Qc)) : list (option Qc) := ffill_from None xs.

(** [.bfill()]: a missing cell takes the next value after it. *)
Definition bfill (xs : list (option Qc)) : list (option Qc) := rev (ffill (rev xs)).

(** [fx[col]] after lines 382-384. *)
Definition fx_rate (col : column) (months : list Z) : result (list (option Qc)) :=
  xs <- reindex col months ;;
  Ok (bfill (ffill (replace_zero xs))).

(** [out[c] / rate] assigned to a column of [out]: the division pairs
    cells by index label, so the row numbered [i] of [out] meets the rate
    labelled [i], that is the rate of the month [i]; a row whose number is
    no month gets a missing value. *)
Definition divide_aligned (months : list Z) (rate : list (option Qc)) (nad : list Qc)
    : list (option Qc) :=
  map (fun ix => option_map (fun r => snd ix / r)
                            (lookup_month (combine months rate) (Z.of_nat (fst ix))))
      (combine (seq 0 (List.length nad)) nad).

(** One [_USD_000] column of [_usd_flows] or [_usd_bal]. *)
Definition usd_column (fx_col : column) (months : list Z) (nad : list Qc)
    : result (list (option Qc)) :=
  rate <- fx_rate fx_col months ;;
  Ok (divide_aligned months rate nad).

End Usd.

(* ===================================================================== *)
(** ** m3_financing/runner.py: the revolver schedule of [run_m3] *)
(* ===================================================================== *)

Module M3Runner.

(** One record of the schedule (lines 172-179). *)
Record rev_record : Type := {
  Month_Index : Z;
  Revolver_Open_Balance_NAD_000 : Qc;
  Revolver_Draw_NAD_000 : Qc;
  Revolver_Repayment_NAD_000 : Qc;
  Revolver_Close_Balance_NAD_000 : Qc;
  Revolver_Interest_Expense_NAD_000 : Qc
}.

(** The loop [for i, m in enumerate(months)] of lines 163-180, from
    position [i] and opening balance [balance_open].  [capex.iloc[i]] and
    [cfo_approx.iloc[i]] raise [IndexError] past the end of the series:
    the loop then has no result. *)
Fixpoint revolver_loop (monthly_rate : Qc) (capex cfo_approx : list Qc)
    (months : list Z) (i : nat) (balance_open : Qc) : option (list rev_record) :=
  match months with
  | [] => Some []
  | m :: months' =>
      match nth_error capex i, nth_error cfo_approx i with
      | Some cx, Some cf =>
          let interest := balance_open * monthly_rate in
          let need := cx - cf + interest in
          let draw := Num.max 0 need in
          let repay := if Num.ltb need 0 then Num.min balance_open (- need) else 0 in
          let balance_close := balance_open + draw - repay in
          option_map
            (cons {| Month_Index := m;
                     Revolver_Open_Balance_NAD_000 := balance_open;
                     Revolver_Draw_NAD_000 := draw;
                     Revolver_Repayment_NAD_000 := repay;
                     Revolver_Close_Balance_NAD_000 := balance_close;
                     Revolver_Interest_Expense_NAD_000 := interest |})
            (revolver_loop monthly_rate capex cfo_approx months' (S i) balance_close)
      | _, _ => None
      end
  end.

(** Lines 161-180: [records], with [balance_open = 0.0] at the start. *)
Definition revolver_records (monthly_rate : Qc) (capex cfo_approx : list Qc)
    (months : list Z) : option (list rev_record) :=
  revolver_loop monthly_rate capex cfo_approx months 0 0.

End M3Runner.

(* ===================================================================== *)
(** ** ci_m3_check.py: the verdict of [main] *)
(* ===================================================================== *)

Module CiCheck.

(** A numeric table as read from a parquet file: its column names and its
    rows; [None] is a missing (NaN) cell. *)
Record table : Type := {
  columns : list string;
  rows : list (list (string * option Qc))
}.

Fixpoint cell (row : list (string * option Qc)) (name : string) : option Qc :=
  match row with
  | [] => None
  | (k, v) :: row' => if String.eqb k name then v else cell row' name
  end.

Definition column (df : table) (name : string) : list (option Qc) :=
  map (fun r => cell r name) (rows df).

Definition aliases : list (string * list string) :=
  [("open", ["Opening_Balance_NAD_000"; "Opening_Debt_NAD_000";
             "Opening_Principal_NAD_000"]);
   ("draw", ["New_Borrowing_NAD_000"; "Draw_NAD_000"; "Revolver_Draw_NAD_000"]);
   ("repay", ["Principal_Repayment_NAD_000"; "Repayment_NAD_000";
              "Revolver_Repayment_NAD_000"]);
   ("close", ["Closing_Balance_NAD_000"; "Debt_End_NAD_000";
              "Closing_Principal_NAD_000"]);
   ("int", ["Interest_Expense_NAD_000"; "Interest_NAD_000"])].

Definition alias_list (key : string) : list string :=
  match find (fun kv => String.eqb (fst kv) key) aliases with
  | Some (_, l) => l
  | None => []
  end.

(** The local function [pick(key)] of [main]. *)
Definition pick (cols : list string) (key : string) : option string :=
  find (fun c => existsb (String.eqb c) cols) (alias_list key).

(** A column that is read, or the zeros assumed when it is absent. *)
Definition column_or_zero (df : table) (name : option string) : list (option Qc) :=
  match name with
  | Some c => column df c
  | None => map (fun _ => Some 0) (rows df)
  end.

(** Arithmetic on cells: a missing operand gives a missing result. *)
Definition lift2 (f : Qc -> Qc -> Qc) (a b : option Qc) : option Qc :=
  match a, b with
  | Some x, Some y => Some (f x y)
  | _, _ => None
  end.

(** [.dropna()] *)
Fixpoint dropna {A : Type} (xs : list (option A)) : list A :=
  match xs with
  | [] => []
  | Some x :: xs' => x :: dropna xs'
  | None :: xs' => dropna xs'
  end.

(** [.sort_values()] on integers. *)
Fixpoint insert_sorted (k : Z) (ks : list Z) : list Z :=
  match ks with
  | [] => [k]
  | k' :: ks' => if (k <=? k')%Z then k :: ks else k' :: insert_sorted k ks'
  end.

Definition sort_values (ks : list Z) : list Z := fold_right insert_sorted [] ks.

(** [np.diff] *)
Fixpoint diff (ks : list Z) : list Z :=
  match ks with
  | a :: (b :: _) as tl => (b - a)%Z :: diff tl
  | _ => []
  end.

(** Lines 147-148. *)
Definition contiguous (df : table) : bool :=
  let mi := sort_values (map Num.trunc (dropna (column df "Month_Index"))) in
  forallb (fun d => (d =? 1)%Z) (diff mi).

(** Lines 151-154: [delta.max()] skips missing values. *)
Definition deltas (df : table) (open_c close_c : string) (dcol rcol : option string)
    : list (option Qc) :=
  map (option_map Num.abs)
      (Np.map2 (lift2 Qcminus)
         (Np.map2 (lift2 Qcminus)
            (Np.map2 (lift2 Qcplus) (column df open_c) (column_or_zero df dcol))
            (column_or_zero df rcol))
         (column df close_c)).

Definition identity_ok (df : table) (open_c close_c : string) (dcol rcol : option string)
    : bool :=
  Check.identity_ok (dropna (deltas df open_c close_c dcol rcol)).

(** [main()] after its arguments are read and the runner was tried: the
    exit code, from the presence of the two artifacts and the revolver
    table read from the second. *)
Definition main (idx_exists rev_exists : bool) (df : table) : Z :=
  if negb idx_exists || negb rev_exists then 2%Z
  else
    let cols := columns df in
    match pick cols "open", pick cols "close", pick cols "int" with
    | Some open_c, Some close_c, Some _ =>
        let dcol := pick cols "draw" in
        let rcol := pick cols "repay" in
        if negb (existsb (String.eqb "Month_Index") cols) then 3%Z
        else if contiguous df && identity_ok df open_c close_c dcol rcol then 0%Z
        else 4%Z
    | _, _, _ => 3%Z
    end.

(** The revolver table [run_m3] writes, as [main] reads it back:
    [DataFrame.from_records] names the columns after the keys of the
    records, and has no column when there is no record. *)
Definition table_of_records (recs : list M3Runner.rev_record) : table :=
  {| columns :=
       match recs with
       | [] => []
       | _ :: _ =>
           ["Month_Index"; "Revolver_Open_Balance_NAD_000"; "Revolver_Draw_NAD_000";
            "Revolver_Repayment_NAD_000"; "Revolver_Close_Balance_NAD_000";
            "Revolver_Interest_Expense_NAD_000"]
       end;
     rows :=
       map (fun r =>
              [("Month_Index", Some (Num.of_Z (M3Runner.Month_Index r)));
               ("Revolver_Open_Balance_NAD_000",
                Some (M3Runner.Revolver_Open_Balance_NAD_000 r));
               ("Revolver_Draw_NAD_000", Some (M3Runner.Revolver_Draw_NAD_000 r));
               ("Revolver_Repayment_NAD_000",
                Some (M3Runner.Revolver_Repayment_NAD_000 r));
               ("Revolver_Close_Balance_NAD_000",
                Some (M3Runner.Revolver_Close_Balance_NAD_000 r));
               ("Revolver_Interest_Expense_NAD_000",
                Some (M3Runner.Revolver_Interest_Expense_NAD_000 r))])
           recs |}.

End CiCheck.

(* ===================================================================== *)
(** * Vocabulary of the statements

    The predicates the claims are stated with, the example inputs of the
    spec and of the counterexamples, and the notions the proofs use. *)
(* ===================================================================== *)

Local Open Scope Qc_scope.

(** ** The loan loop, month by month *)

(** The rows [loan_loop] emits from month [m] and state [st], with the
    states in between made explicit. *)
Inductive trace (t : loan_terms) : Z -> loop_state -> list sched_row -> Prop :=
| trace_nil m st : trace t m st []
| trace_cons m st r st' rows :
    loan_step t m st = Ok (r, st') ->
    trace t (m + 1) st' rows ->
    trace t m st (r :: rows).

(** [m0, m0 + 1, ..., m0 + n - 1] *)
Definition months_from (m0 : Z) (n : nat) : list Z :=
  map (fun i => Z.of_nat i + m0)%Z (seq 0 n).

(** The present value, at rate [q - 1] per period, of [j] unit payments made
    at the ends of the next [j] periods.  It measures what an annuity still
    has to repay. *)
Fixpoint pvf (q : Qc) (j : nat) : Qc :=
  match j with
  | O => 0
  | S j' => (pvf q j' + 1) / q
  end.

(** What [loan_inputs] guarantees by its clamping. *)
Record well_formed (t : loan_terms) : Prop := {
  wf_tenor : (0 <= tenor t)%Z;
  wf_draw_start : (1 <= draw_start t)%Z;
  wf_draw_end : (0 <= draw_end t <= tenor t)%Z;
  wf_grace : (0 <= grace_prin_m t)%Z
}.

(** The sub-expressions of [loan_step], named. *)
Definition draw_at (t : loan_terms) (m : Z) : Qc :=
  if ((0 <? draw_months t) && ((draw_start t <=? m) && (m <=? draw_end t)))%Z
  then monthly_draw t else 0.

Definition interest_on (t : loan_terms) (m : Z) (opening : Qc) : Qc :=
  if ((1 <=? m) && (m <=? tenor t))%Z then opening * r_m t else 0.

Definition in_window (t : loan_terms) (m : Z) : bool :=
  ((0 <? amort_nper t) && ((amort_start t <=? m) && (m <=? tenor t)))%Z.

Definition next_state (st1 : loop_state) (closing : Qc) : loop_state :=
  {| closing_prev := closing; annuity_pmt := annuity_pmt st1;
     straight_principal := straight_principal st1;
     pv_at_amort_start := pv_at_amort_start st1 |}.

Definition row_of (t : loan_terms) (m : Z) (opening repay : Qc) : sched_row :=
  {| Month_Index := m; Opening_Balance := opening; Drawdown := draw_at t m;
     Interest_Accrued := interest_on t m opening; Principal_Repayment := repay;
     Closing_Balance := opening + draw_at t m - repay |}.

(** The two branches that run the annuity formula. *)
Definition uses_annuity (t : loan_terms) : bool :=
  String.eqb (amort_type t) "annuity"
  || negb (String.eqb (amort_type t) "straight" || String.eqb (amort_type t) "bullet").

(** The state before month [m]: the balance is non-negative; nothing is
    initialised before the window opens; inside the window the balance
    covers what the policy still has to repay. *)
Definition Inv (t : loan_terms) (m : Z) (st : loop_state) : Prop :=
  0 <= closing_prev st /\
  ((m <= amort_start t)%Z ->
     pv_at_amort_start st = None /\ annuity_pmt st = None /\
     straight_principal st = None) /\
  ((amort_start t < m <= tenor t)%Z ->
     pv_at_amort_start st <> None /\
     (uses_annuity t = true ->
        exists pmt, annuity_pmt st = Some pmt /\ 0 <= pmt /\
          pmt * pvf (1 + r_m t) (Z.to_nat (tenor t - m + 1)) <= closing_prev st) /\
     (String.eqb (amort_type t) "straight" = true ->
        exists sp, straight_principal st = Some sp /\ 0 <= sp /\
          sp * Num.of_Z (tenor t - m + 1) <= closing_prev st)).

(** What the repayment of a window month leaves behind. *)
Definition window_post (t : loan_terms) (m : Z) (st1 : loop_state) (closing : Qc) : Prop :=
  0 <= closing /\
  pv_at_amort_start st1 <> None /\
  (uses_annuity t = true ->
     exists pmt, annuity_pmt st1 = Some pmt /\ 0 <= pmt /\
       pmt * pvf (1 + r_m t) (Z.to_nat (tenor t - m)) <= closing) /\
  (String.eqb (amort_type t) "straight" = true ->
     exists sp, straight_principal st1 = Some sp /\ 0 <= sp /\
       sp * Num.of_Z (tenor t - m) <= closing).

(** ** Example inputs and the predicates of the loan claims *)


(** The spec's example loan: 12000 at 12% a year over 12 months, drawn in
    month 1, on a 60-month calendar. *)
Definition example_loan (policy : string) : series :=
  [("Principal", PyInt 12000); ("Rate_Pct", PyFloat (Num.of_Z 12));
   ("Tenor_Months", PyInt 12); ("Draw_Start_M", PyInt 1%Z);
   ("Draw_End_M", PyInt 1%Z); ("Grace_Principal_M", PyInt 0%Z);
   ("Amort_Type", PyStr policy)].

Definition calendar_60 : calendar := month_range 60.

(** The row a test reads with [sched.loc[sched["Month_Index"] == m]]. *)
Definition row_at (sched : list sched_row) (m : Z) : option sched_row :=
  find (fun r => (Month_Index r =? m)%Z) sched.



(** 1200 at -1800% a year (monthly rate -1.5), annuity, three months. *)
Definition absurd_rate_loan : series :=
  [("Principal", PyInt 1200); ("Rate_Pct", PyInt (-1800));
   ("Tenor_Months", PyInt 3); ("Draw_Start_M", PyInt 1%Z);
   ("Draw_End_M", PyInt 1%Z); ("Grace_Principal_M", PyInt 0%Z);
   ("Amort_Type", PyStr "annuity")].

(** The closing balance of month [m], as a plain fraction. *)
Definition closing_of (c : result (list sched_row)) (m : Z) : option Q :=
  match c with
  | Ok sched => option_map (fun r => this (Closing_Balance r)) (row_at sched m)
  | Raise _ => None
  end.

Definition example_terms (policy : string) : loan_terms :=
  {| principal := Num.of_Z 12000; rate_pct := Num.of_Z 12; tenor := 12;
     draw_start := 1; draw_end := 1; grace_prin_m := 0; amort_type := policy |}.



(** -1200 at 12% a year, annuity, two months, on a three-month calendar. *)
Definition negative_principal_annuity : series :=
  [("Principal", PyInt (-1200)); ("Rate_Pct", PyInt 12);
   ("Tenor_Months", PyInt 2); ("Draw_Start_M", PyInt 1%Z);
   ("Draw_End_M", PyInt 1%Z); ("Grace_Principal_M", PyInt 0%Z);
   ("Amort_Type", PyStr "annuity")].

(** The interest column, as plain fractions. *)
Definition interest_of (c : result (list sched_row)) : list Q :=
  match c with
  | Ok sched => map (fun r => this (Interest_Accrued r)) sched
  | Raise _ => []
  end.






(** The example loan with an empty [Tenor_Months] cell. *)
Definition blank_tenor_loan : series :=
  ("Tenor_Months", PyStr "") :: example_loan "annuity".

(** The example loan with the text [abc] for [Tenor_Months]. *)
Definition text_tenor_loan : series :=
  ("Tenor_Months", PyStr "abc") :: example_loan "annuity".





(** ** The case selector and the revolver *)

(** The call raises an exception whose class is called [name]. *)
Definition raises_named {A : Type} (name : string) (c : result A) : Prop :=
  exists e, c = Raise e /\ exn_name e = name.

(** No row of the selector table has the key [PFinance_Case]. *)
Definition lacks_active_case (sel : dataframe) : Prop :=
  forall r, In r (records sel) -> py_eq (cell r "Key") (PyStr "PFinance_Case") = false.

(** C5 with the class of the exception left open. *)
Definition selector_error_is (name : string) (stack sel : dataframe) (cal : calendar) : Prop :=
  lacks_active_case sel ->
  raises_named name (create_financing_schedules stack sel cal).

Definition example_stack : dataframe :=
  {| columns := req_cols;
     records :=
       [[("Case_Name", PyStr "CaseX"); ("Line_ID", PyInt 1%Z);
         ("Instrument", PyStr "Loan_A"); ("Currency", PyStr "NAD");
         ("Principal", PyInt 12000); ("Rate_Pct", PyFloat (Num.of_Z 12));
         ("Tenor_Months", PyInt 12); ("Draw_Start_M", PyInt 1%Z);
         ("Draw_End_M", PyInt 1%Z); ("Grace_Int_M", PyInt 0%Z);
         ("Grace_Principal_M", PyInt 0%Z); ("Amort_Type", PyStr "annuity");
         ("Balloon_Pct", PyFloat 0); ("Revolving", PyInt 0%Z);
         ("Is_Insurance", PyInt 0%Z); ("Premium_Rate_Pct", PyFloat 0);
         ("Secured_By", PyStr ""); ("Active", PyInt 1%Z)]] |}.

(** A selector table that names no financing case. *)
Definition selector_without_case : dataframe :=
  {| columns := ["Key"; "Value"];
     records := [[("Key", PyStr "Scenario"); ("Value", PyStr "Base")]] |}.

(** [float(row[name])] and [int(row[name])] *)
Definition item_float (r : series) (name : string) : result Qc :=
  v <- series_item r name ;; py_float v.

Definition item_int (r : series) (name : string) : result Z :=
  v <- series_item r name ;; py_int v.

(** What the spec asks of a revolver row. *)
Definition revolver_row_ok (principal rate : Qc) (tenor draw_start : Z)
    (row : Revolver.row) : Prop :=
  Revolver.Opening_Balance row = 0 /\ Revolver.Drawdown row = 0 /\
  Revolver.Repayment row = 0 /\ Revolver.Closing_Balance row = 0 /\
  Revolver.Interest_Accrued row =
    if ((draw_start <=? Revolver.Month_Index row)
        && (Revolver.Month_Index row <=? tenor))%Z
    then Num.frac 1 2 * principal * (rate / Num.of_Z 100 / Num.of_Z 12)
    else 0.

(** The revolver of the spec's example: 2000 at 12% a year, drawn from
    month 7, tenor 36. *)
Definition example_revolver : series :=
  [("Line_ID", PyInt 10); ("Currency", PyStr "NAD");
   ("Principal", PyInt 2000); ("Rate_Pct", PyFloat (Num.of_Z 12));
   ("Tenor_Months", PyInt 36); ("Draw_Start_M", PyInt 7)].

Definition revolver_interest (c : result (list Revolver.row)) : list Q :=
  match c with
  | Ok sched => map (fun row => this (Revolver.Interest_Accrued row)) sched
  | Raise _ => []
  end.

(** ** Vocabulary of the waterfall statements *)

Module WaterfallSpec.

Import M75B.

(** The sum of a list. *)
Definition total (xs : list Qc) : Qc := fold_right Qcplus 0 xs.

(** The columns of a run are tied to one another as the runner computes
    them, and all are as long as [months]. *)
Record computed (o : outputs) : Prop := {
  c_available :
    available o =
    Np.maximum_scalar 0 (Np.sub (Np.sub (CFO_NAD_000 o) (senior_service o)) (tax_paid o));
  c_actual_out : actual_out o = Np.minimum (JUN_OUT_SCHED_NAD_000 o) (available o);
  c_unpaid : unpaid o = Np.sub (JUN_OUT_SCHED_NAD_000 o) (actual_out o);
  c_payable : Dividends_Payable_or_RevShare_Payable_NAD_000 o = Np.cumsum (unpaid o);
  c_le_total : Liabilities_And_Equity_Total_NAD_000 o = Assets_Total_NAD_000 o;
  c_len_cfo : List.length (CFO_NAD_000 o) = List.length (months o);
  c_len_senior : List.length (senior_service o) = List.length (months o);
  c_len_tax : List.length (tax_paid o) = List.length (months o);
  c_len_sched : List.length (JUN_OUT_SCHED_NAD_000 o) = List.length (months o);
  c_len_assets : List.length (Assets_Total_NAD_000 o) = List.length (months o);
  c_cff : CFF_NAD_000 o = Np.sub (JUN_IN_NAD_000 o) (actual_out o);
  c_cfi : CFI_NAD_000 o = Np.zeros (List.length (months o));
  c_net_cf :
    NET_CF_NAD_000 o = Np.add (Np.add (CFO_NAD_000 o) (CFI_NAD_000 o)) (CFF_NAD_000 o);
  c_len_in : List.length (JUN_IN_NAD_000 o) = List.length (months o)
}.

(** The availability, payout and shortfall of one period. *)
Definition period_rule (cfo senior tax sched av act short : Qc) : Prop :=
  av = Num.max 0 (cfo - senior - tax) /\
  act = Num.min sched av /\
  short = sched - act /\
  0 <= av /\ act <= sched /\ act <= av.

(** The spec's example period: CFO 100, senior debt service 60 (interest
    20, principal 40), tax paid 10, a scheduled dividend of 50. *)
Definition example_inputs : inputs :=
  {| instrument := "Preferred Equity";
     ticket_usd := Num.of_Z 500000;
     df_j := [ {| Month_Index := 1%Z; Flow_Type := "Equity_In";
                  Amount_NAD_000 := Num.of_Z 9000 |};
               {| Month_Index := 1%Z; Flow_Type := "Pref_Dividend";
                  Amount_NAD_000 := Num.of_Z 50 |} ];
     df_fx := [(1%Z, Num.of_Z 18)];
     df_m5 := [(1%Z, Some (Num.of_Z 100))];
     df_m6 := [ {| m6_Month_Index := 1%Z; m6_cash := Some (Num.of_Z 10);
                   m6_assets_total := Some (Num.of_Z 1000) |} ];
     df_m3 := Some [ {| m3_Month_Index := 1%Z;
                        m3_interest_paid := Some (Num.of_Z 20);
                        m3_principal_paid := Some (Num.of_Z 40) |} ];
     df_m4 := Some [(1%Z, Some (Num.of_Z 10))];
     start_month_index := None |}.

(** A column of a run, as plain fractions. *)
Definition column_of (f : outputs -> list Qc) (c : result outputs) : list Q :=
  match c with
  | Ok o => map this (f o)
  | Raise _ => []
  end.

Definition run_of (c : result outputs) : outputs :=
  match c with
  | Ok o => o
  | Raise _ =>
      {| months := []; JUN_IN_NAD_000 := []; JUN_OUT_SCHED_NAD_000 := [];
         JUN_PIK_NAD_000 := []; JUN_CONVERT_NAD_000 := []; CFO_NAD_000 := [];
         senior_service := []; tax_paid := []; available := []; actual_out := [];
         unpaid := []; CFI_NAD_000 := []; CFF_NAD_000 := []; NET_CF_NAD_000 := [];
         Cash_And_Equivalents_NAD_000 := []; Junior_Note_Liability_NAD_000 := [];
         Contributed_Equity_Junior_NAD_000 := [];
         Dividends_Payable_or_RevShare_Payable_NAD_000 := [];
         Assets_Total_NAD_000 := []; Liabilities_And_Equity_Total_NAD_000 := [] |}
  end.

(** The availability rule as section 4.4 of the spec words it, with its
    optional minimum cash buffer; [run_m7_5b] has no such input.
    [available = max(0, CFO - senior_debt_service - tax_paid - buffer)]. *)
Definition spec_available (cfo senior tax buffer : Qc) : Qc :=
  Num.max 0 (cfo - senior - tax - buffer).

(** C3 as the spec words it, for a run handed the buffer [buffer]:
    [available = max(0, CFO - senior - tax - buffer)] in every period. *)
Definition honours_buffer (inp : inputs) (buffer : Qc) : Prop :=
  forall o, run_m7_5b inp = Ok o ->
    forall i, (i < List.length (months o))%nat ->
      nth i (available o) 0 =
      spec_available (nth i (CFO_NAD_000 o) 0) (nth i (senior_service o) 0)
                     (nth i (tax_paid o) 0) buffer.

(** Two end-of-period balances of one column, one period apart. *)
Definition consecutive (xs : list Qc) (a b : Qc) : Prop :=
  exists i, nth_error xs i = Some a /\ nth_error xs (S i) = Some b.

(** Two periods: 30 available against 50 scheduled, then 500 against 50. *)
Definition two_period_inputs : inputs :=
  {| instrument := "Preferred Equity";
     ticket_usd := Num.of_Z 500000;
     df_j := [ {| Month_Index := 1%Z; Flow_Type := "Equity_In";
                  Amount_NAD_000 := Num.of_Z 9000 |};
               {| Month_Index := 1%Z; Flow_Type := "Pref_Dividend";
                  Amount_NAD_000 := Num.of_Z 50 |};
               {| Month_Index := 2%Z; Flow_Type := "Pref_Dividend";
                  Amount_NAD_000 := Num.of_Z 50 |} ];
     df_fx := [(1%Z, Num.of_Z 18)];
     df_m5 := [(1%Z, Some (Num.of_Z 100)); (2%Z, Some (Num.of_Z 500))];
     df_m6 := [ {| m6_Month_Index := 1%Z; m6_cash := Some (Num.of_Z 10);
                   m6_assets_total := Some (Num.of_Z 1000) |};
                {| m6_Month_Index := 2%Z; m6_cash := Some (Num.of_Z 20);
                   m6_assets_total := Some (Num.of_Z 1100) |} ];
     df_m3 := Some [ {| m3_Month_Index := 1%Z;
                        m3_interest_paid := Some (Num.of_Z 20);
                        m3_principal_paid := Some (Num.of_Z 40) |} ];
     df_m4 := Some [(1%Z, Some (Num.of_Z 10))];
     start_month_index := None |}.

End WaterfallSpec.

(** ** Further vocabulary of the loan schedule *)

(** The balance left of [b] after [n] periods, in each of which interest at
    rate [r] is added to the balance and [pmt] is paid. *)
Fixpoint outstanding (r pmt b : Qc) (n : nat) : Qc :=
  match n with
  | O => b
  | S n' => outstanding r pmt (b * (1 + r) - pmt) n'
  end.


(** What a row outside the amortization window does: it repays nothing,
    and past the tenor it neither draws nor accrues interest, so that its
    balance stands still. *)
Definition quiet_outside (t : loan_terms) (r : sched_row) : Prop :=
  ((Month_Index r < amort_start t \/ tenor t < Month_Index r)%Z ->
     Principal_Repayment r = 0) /\
  ((tenor t < Month_Index r)%Z ->
     Drawdown r = 0 /\ Interest_Accrued r = 0 /\
     Closing_Balance r = Opening_Balance r).


(** The rate is one at which the payment formula is exact: zero, or large
    enough for the formula proper to be used. *)
Definition exact_rate (r : Qc) : Prop := r = 0 \/ Num.tiny <= Num.abs r.







(** ** Vocabulary of the dispatcher *)

(** The case the selector names: the text of the [Value] cell of its first
    [PFinance_Case] row. *)
Definition selected_case (sel : dataframe) : option string :=
  match filter (fun r => py_eq (cell r "Key") (PyStr "PFinance_Case")) (records sel) with
  | [] => None
  | first :: _ => Some (py_str (cell first "Value"))
  end.

(** The rows of the catalog the dispatcher processes for [case]. *)
Definition active_rows (stack : dataframe) (case : string) : list series :=
  filter (fun r => py_eq (cell r "Case_Name") (PyStr case)
                   && py_eq (cell r "Active") (PyInt 1))
         (records stack).

Definition flagged (r : series) (name : string) : bool :=
  match flag_is_one r name with
  | Ok b => b
  | Raise _ => false
  end.

(** The three kinds of row, as the dispatcher tells them apart: insurance
    is tested first, then revolving. *)
Definition is_insurance (r : series) : bool := flagged r "Is_Insurance".
Definition is_revolver (r : series) : bool :=
  negb (flagged r "Is_Insurance") && flagged r "Revolving".
Definition is_loan (r : series) : bool :=
  negb (flagged r "Is_Insurance") && negb (flagged r "Revolving").

Definition count (f : series -> bool) (rows : list series) : nat :=
  List.length (filter f rows).

(** An insurance row of the stub: the line's identifier and zeros. *)
Definition insurance_row_ok (line : Z) (row : Insurance.row) : Prop :=
  Insurance.Line_ID row = line /\
  Insurance.Premium_Cash_Outflow row = 0 /\ Insurance.Expense_Recognized row = 0 /\
  Insurance.Prepaid_BOP row = 0 /\ Insurance.Prepaid_EOP row = 0.

(** A catalog with one line of each kind in [CaseX], and a revolver of
    another case. *)
Definition stack_row (case : string) (line : Z) (revolving insurance : Z) : series :=
  [("Case_Name", PyStr case); ("Line_ID", PyInt line);
   ("Instrument", PyStr "Line"); ("Currency", PyStr "NAD");
   ("Principal", PyInt 12000); ("Rate_Pct", PyFloat (Num.of_Z 12));
   ("Tenor_Months", PyInt 12); ("Draw_Start_M", PyInt 1%Z);
   ("Draw_End_M", PyInt 1%Z); ("Grace_Int_M", PyInt 0%Z);
   ("Grace_Principal_M", PyInt 0%Z); ("Amort_Type", PyStr "annuity");
   ("Balloon_Pct", PyFloat 0); ("Revolving", PyInt revolving);
   ("Is_Insurance", PyInt insurance); ("Premium_Rate_Pct", PyFloat 0);
   ("Secured_By", PyStr ""); ("Active", PyInt 1%Z)].

Definition mixed_stack : dataframe :=
  {| columns := req_cols;
     records := [stack_row "CaseX" 1 1 0; stack_row "CaseY" 2 1 0;
                 stack_row "CaseX" 3 1 1; stack_row "CaseX" 4 0 0] |}.

Definition selector_of (case : string) : dataframe :=
  {| columns := ["Key"; "Value"];
     records := [[("Key", PyStr "PFinance_Case"); ("Value", PyStr case)]] |}.

(** The artifacts of a call that returned. *)
Definition artifacts_of (c : result m3_artifacts) : m3_artifacts :=
  match c with
  | Ok a => a
  | Raise _ => {| revolver := []; insurance := []; index := [] |}
  end.

(** ** Vocabulary of the rebuilt statements *)

Module RebuildSpec.

Import M75B.
Import WaterfallSpec.

(** The M6 cash and total assets of month [m], 0 where M6 has none. *)
Definition m6_cash_at (inp : inputs) (m : Z) : Qc :=
  at_month (map (fun r => (m6_Month_Index r, m6_cash r)) (df_m6 inp)) m.

Definition m6_assets_at (inp : inputs) (m : Z) : Qc :=
  at_month (map (fun r => (m6_Month_Index r, m6_assets_total r)) (df_m6 inp)) m.

(** The running total of a column up to and including period [i]. *)
Definition to_date (xs : list Qc) (i : nat) : Qc := total (firstn (S i) xs).

(** How the balance-sheet columns of a run come out of its flow columns. *)
Record rebuilt (inp : inputs) (o : outputs) : Prop := {
  r_months : months o = sorted_unique (map m6_Month_Index (df_m6 inp));
  r_flows :
    exists flows,
      with_opening_inflow inp (_classify (instrument inp)) = Ok flows /\
      JUN_IN_NAD_000 o = bucket flows JUNIOR_FLOW_IN_TYPES (months o) /\
      JUN_OUT_SCHED_NAD_000 o = bucket flows JUNIOR_FLOW_OUT_TYPES (months o) /\
      JUN_PIK_NAD_000 o = bucket flows JUNIOR_FLOW_NONCASH_LIAB_UP (months o) /\
      JUN_CONVERT_NAD_000 o = bucket flows JUNIOR_FLOW_CONVERSION (months o);
  r_cash :
    Cash_And_Equivalents_NAD_000 o
    = Np.add (map (m6_cash_at inp) (months o)) (Np.cumsum (CFF_NAD_000 o));
  r_assets :
    Assets_Total_NAD_000 o
    = Np.add (Np.sub (map (m6_assets_at inp) (months o)) (map (m6_cash_at inp) (months o)))
             (Cash_And_Equivalents_NAD_000 o);
  r_equity_like :
    _classify (instrument inp) = "equity_like" ->
    Junior_Note_Liability_NAD_000 o = Np.zeros (List.length (months o)) /\
    Contributed_Equity_Junior_NAD_000 o
    = Np.cumsum (Np.sub (JUN_IN_NAD_000 o) (JUN_OUT_SCHED_NAD_000 o));
  r_debt_like :
    _classify (instrument inp) <> "equity_like" ->
    Junior_Note_Liability_NAD_000 o
    = liability_roll 0 (JUN_IN_NAD_000 o) (JUN_PIK_NAD_000 o) (JUN_CONVERT_NAD_000 o) /\
    Contributed_Equity_Junior_NAD_000 o
    = Np.cumsum (Np.add (Np.sub (JUN_IN_NAD_000 o) (JUN_OUT_SCHED_NAD_000 o))
                        (JUN_CONVERT_NAD_000 o))
}.

(** Each entry of the list is smaller than the next. *)
Fixpoint ascending (ks : list Z) : Prop :=
  match ks with
  | a :: (b :: _) as tl => (a < b)%Z /\ ascending tl
  | _ => True
  end.

(** Every column the run emits has one entry per month. *)
Definition aligned (o : outputs) : Prop :=
  Forall (fun col => List.length col = List.length (months o))
    [JUN_IN_NAD_000 o; JUN_OUT_SCHED_NAD_000 o; JUN_PIK_NAD_000 o;
     JUN_CONVERT_NAD_000 o; CFO_NAD_000 o; senior_service o; tax_paid o;
     available o; actual_out o; unpaid o; CFI_NAD_000 o; CFF_NAD_000 o;
     NET_CF_NAD_000 o; Cash_And_Equivalents_NAD_000 o;
     Junior_Note_Liability_NAD_000 o; Contributed_Equity_Junior_NAD_000 o;
     Dividends_Payable_or_RevShare_Payable_NAD_000 o; Assets_Total_NAD_000 o;
     Liabilities_And_Equity_Total_NAD_000 o].

(** A convertible note: drawn in month 1, PIK accrued in month 2, a
    dividend scheduled in month 2. *)
Definition convertible_inputs : inputs :=
  {| instrument := "Convertible Note";
     ticket_usd := Num.of_Z 500000;
     df_j := [ {| Month_Index := 1%Z; Flow_Type := "Note_Draw";
                  Amount_NAD_000 := Num.of_Z 9000 |};
               {| Month_Index := 2%Z; Flow_Type := "PIK_Accrual";
                  Amount_NAD_000 := Num.of_Z 90 |};
               {| Month_Index := 2%Z; Flow_Type := "Pref_Dividend";
                  Amount_NAD_000 := Num.of_Z 50 |} ];
     df_fx := [(1%Z, Num.of_Z 18)];
     df_m5 := [(1%Z, Some (Num.of_Z 100)); (2%Z, Some (Num.of_Z 500))];
     df_m6 := [ {| m6_Month_Index := 1%Z; m6_cash := Some (Num.of_Z 10);
                   m6_assets_total := Some (Num.of_Z 1000) |};
                {| m6_Month_Index := 2%Z; m6_cash := Some (Num.of_Z 20);
                   m6_assets_total := Some (Num.of_Z 1100) |} ];
     df_m3 := None;
     df_m4 := None;
     start_month_index := None |}.

(** The opening inflow the runner synthesizes. *)
Definition opening_inflow (inp : inputs) (classification : string) (m : Z) (fx : Qc)
    : junior_flow :=
  {| Month_Index := m;
     Flow_Type := if String.eqb classification "equity_like"
                  then "Equity_In" else "Note_Draw";
     Amount_NAD_000 := ticket_usd inp * fx / Num.of_Z 1000 |}.

(** The junior schedule of [example_inputs] without its [Equity_In] row. *)
Definition dividend_only_inputs : inputs :=
  {| instrument := "Preferred Equity";
     ticket_usd := Num.of_Z 500000;
     df_j := [ {| Month_Index := 1%Z; Flow_Type := "Pref_Dividend";
                  Amount_NAD_000 := Num.of_Z 50 |} ];
     df_fx := [(1%Z, Num.of_Z 18)];
     df_m5 := [(1%Z, Some (Num.of_Z 100))];
     df_m6 := [ {| m6_Month_Index := 1%Z; m6_cash := Some (Num.of_Z 10);
                   m6_assets_total := Some (Num.of_Z 1000) |} ];
     df_m3 := None;
     df_m4 := None;
     start_month_index := None |}.

End RebuildSpec.

Module UsdSpec.

Import Usd.

(** Three months at 18, 19 and 20 NAD to the dollar. *)
Definition example_fx : M75B.column :=
  [(1%Z, Some (Num.of_Z 18)); (2%Z, Some (Num.of_Z 19)); (3%Z, Some (Num.of_Z 20))].

(** A rate that can divide: missing, or not zero. *)
Definition nonzero_rate (r : option Qc) : Prop := forall q, r = Some q -> q <> 0.

Definition columns_of (c : result (list (option Qc))) : list (option Qc) :=
  match c with
  | Ok xs => xs
  | Raise _ => []
  end.

Definition plain (c : result (list (option Qc))) : list (option Q) :=
  match c with
  | Ok xs => map (option_map this) xs
  | Raise _ => []
  end.

End UsdSpec.

(** ** Vocabulary of the M3 runner and its check *)

Module M3Spec.

Import M3Runner.

(** What holds of every record of the revolver: the balance rolls
    forward, nothing is negative, no more is repaid than is owed, and a
    month draws or repays but not both. *)
Definition sound_record (monthly_rate : Qc) (r : rev_record) : Prop :=
  Revolver_Close_Balance_NAD_000 r
  = Revolver_Open_Balance_NAD_000 r + Revolver_Draw_NAD_000 r
    - Revolver_Repayment_NAD_000 r /\
  Revolver_Interest_Expense_NAD_000 r = Revolver_Open_Balance_NAD_000 r * monthly_rate /\
  0 <= Revolver_Open_Balance_NAD_000 r /\
  0 <= Revolver_Draw_NAD_000 r /\
  0 <= Revolver_Repayment_NAD_000 r <= Revolver_Open_Balance_NAD_000 r /\
  0 <= Revolver_Close_Balance_NAD_000 r /\
  (Revolver_Draw_NAD_000 r = 0 \/ Revolver_Repayment_NAD_000 r = 0).

(** Each record opens at the closing balance of the one before it. *)
Definition chained (recs : list rev_record) : Prop :=
  forall i a b,
    nth_error recs i = Some a -> nth_error recs (S i) = Some b ->
    Revolver_Open_Balance_NAD_000 b = Revolver_Close_Balance_NAD_000 a.

(** Three months at 1% a month: capital spending of 100, then a surplus
    of 30, then a surplus of 200. *)
Definition example_capex : list Qc := [Num.of_Z 100; 0; 0].
Definition example_cfo : list Qc := [0; Num.of_Z 30; Num.of_Z 200].

Definition records_of (c : option (list rev_record)) : list rev_record :=
  match c with
  | Some recs => recs
  | None => []
  end.

End M3Spec.

Module CiSpec.

Import CiCheck.

(** A loan table of two months under the names [main] accepts, and the
    same rows in the other order. *)
Definition ci_row (m : Z) (o d r c i : Z) : list (string * option Qc) :=
  [("Month_Index", Some (Num.of_Z m));
   ("Opening_Balance_NAD_000", Some (Num.of_Z o));
   ("Draw_NAD_000", Some (Num.of_Z d));
   ("Repayment_NAD_000", Some (Num.of_Z r));
   ("Closing_Balance_NAD_000", Some (Num.of_Z c));
   ("Interest_NAD_000", Some (Num.of_Z i))].

Definition ci_columns : list string :=
  ["Month_Index"; "Opening_Balance_NAD_000"; "Draw_NAD_000"; "Repayment_NAD_000";
   "Closing_Balance_NAD_000"; "Interest_NAD_000"].

Definition ci_table : table :=
  {| columns := ci_columns;
     rows := [ci_row 1 0 100 0 100 0; ci_row 2 100 0 40 60 1] |}.

Definition ci_table_reversed : table :=
  {| columns := ci_columns;
     rows := [ci_row 2 100 0 40 60 1; ci_row 1 0 100 0 100 0] |}.

End CiSpec.

(* ===================================================================== *)
(** * Properties *)
(* ===================================================================== *)

(** ** Arithmetic of the number model *)

Module NumFacts.

Lemma this_plus (x y : Qc) : (this (x + y) == this x + this y)%Q.
Proof. unfold Qcplus, Q2Qc. cbn [this]. apply Qred_correct. Qed.

Lemma this_mult (x y : Qc) : (this (x * y) == this x * this y)%Q.
Proof. unfold Qcmult, Q2Qc. cbn [this]. apply Qred_correct. Qed.

Lemma this_opp (x : Qc) : (this (- x) == - this x)%Q.
Proof. unfold Qcopp, Q2Qc. cbn [this]. apply Qred_correct. Qed.

Lemma this_minus (x y : Qc) : (this (x - y) == this x - this y)%Q.
Proof. unfold Qcminus. rewrite this_plus, this_opp. reflexivity. Qed.

Lemma this_of_Z (z : Z) : (this (Num.of_Z z) == inject_Z z)%Q.
Proof. unfold Num.of_Z, Q2Qc. cbn [this]. apply Qred_correct. Qed.

Lemma to_Q_eq (x y : Qc) : x = y -> (this x == this y)%Q.
Proof. intros ->. reflexivity. Qed.

Lemma ltb_lt (x y : Qc) : Num.ltb x y = true <-> x < y.
Proof.
  unfold Num.ltb. rewrite Qclt_alt.
  destruct (x ?= y); split; intro H; try reflexivity; discriminate H.
Qed.

Lemma ltb_ge (x y : Qc) : Num.ltb x y = false <-> y <= x.
Proof.
  split; intro H.
  - apply Qcnot_lt_le. intro L. apply ltb_lt in L. congruence.
  - destruct (Num.ltb x y) eqn:E; [|reflexivity].
    apply ltb_lt in E. exfalso. exact (Qcle_not_lt _ _ H E).
Qed.

Lemma leb_le (x y : Qc) : Num.leb x y = true <-> x <= y.
Proof.
  unfold Num.leb. rewrite Qcle_alt.
  destruct (x ?= y); split; intro H; try reflexivity; try discriminate H.
  - discriminate.
  - discriminate.
  - exfalso. apply H. reflexivity.
Qed.

Lemma eqb_eq (x y : Qc) : Num.eqb x y = true <-> x = y.
Proof.
  unfold Num.eqb. rewrite Qceq_alt.
  destruct (x ?= y); split; intro H; try reflexivity; discriminate H.
Qed.

Lemma eqb_neq (x y : Qc) : Num.eqb x y = false <-> x <> y.
Proof.
  split; intro H.
  - intro E. apply eqb_eq in E. congruence.
  - destruct (Num.eqb x y) eqn:E; [|reflexivity].
    apply eqb_eq in E. contradiction.
Qed.

Lemma max_l (a b : Qc) : a <= Num.max a b.
Proof.
  unfold Num.max. destruct (Num.ltb a b) eqn:E.
  - apply Qclt_le_weak, ltb_lt, E.
  - apply Qcle_refl.
Qed.

Lemma max_r (a b : Qc) : b <= Num.max a b.
Proof.
  unfold Num.max. destruct (Num.ltb a b) eqn:E.
  - apply Qcle_refl.
  - apply ltb_ge, E.
Qed.

Lemma max_0_nonneg (x : Qc) : 0 <= x -> Num.max 0 x = x.
Proof.
  intro H. unfold Num.max. destruct (Num.ltb 0 x) eqn:E; [reflexivity|].
  apply ltb_ge in E. apply Qcle_antisym; assumption.
Qed.

Lemma max_0_nonpos (x : Qc) : x <= 0 -> Num.max 0 x = 0.
Proof.
  intro H. unfold Num.max. destruct (Num.ltb 0 x) eqn:E; [|reflexivity].
  apply ltb_lt in E. exfalso. exact (Qcle_not_lt _ _ H E).
Qed.

Lemma min_l (a b : Qc) : Num.min a b <= a.
Proof.
  unfold Num.min. destruct (Num.ltb b a) eqn:E.
  - apply Qclt_le_weak, ltb_lt, E.
  - apply Qcle_refl.
Qed.

Lemma min_r (a b : Qc) : Num.min a b <= b.
Proof.
  unfold Num.min. destruct (Num.ltb b a) eqn:E.
  - apply Qcle_refl.
  - apply ltb_ge, E.
Qed.

Lemma abs_0 : Num.abs 0 = 0.
Proof. reflexivity. Qed.

Lemma tol_pos : 0 <= Num.tol.
Proof. apply leb_le. reflexivity. Qed.

End NumFacts.

(** Moves a goal on [Qc] to [Q], where [lra] and [nra] work: orders
    unfold to orders on [Q], equations become [==]. *)
Ltac qc2q :=
  repeat match goal with
         | H : @eq Qc _ _ |- _ => apply NumFacts.to_Q_eq in H
         | |- @eq Qc _ _ => apply Qc_is_canon
         end;
  unfold Qcle, Qclt in *;
  repeat (rewrite ?NumFacts.this_minus, ?NumFacts.this_plus,
            ?NumFacts.this_mult, ?NumFacts.this_opp in * );
  change (this 0%Qc) with 0%Q in *; change (this 1%Qc) with 1%Q in *.

Ltac qc_lra := qc2q; lra.
Ltac qc_nra := qc2q; nra.

(** ** The error monad *)

Lemma bind_Ok {A B : Type} (c : result A) (k : A -> result B) (b : B) :
  (x <- c ;; k x) = Ok b -> exists a, c = Ok a /\ k a = Ok b.
Proof. destruct c as [a|e]; cbn; [eauto | discriminate]. Qed.


(** ** The loan schedule: what one month does *)

Lemma months_from_S (m0 : Z) (n : nat) :
  months_from m0 (S n) = m0 :: months_from (m0 + 1) n.
Proof.
  unfold months_from. cbn [seq map]. f_equal.
  rewrite <- seq_shift, map_map. apply map_ext. intro i. lia.
Qed.

Lemma month_range_from (h : Z) : month_range h = months_from 1 (Z.to_nat h).
Proof. reflexivity. Qed.

Lemma loan_loop_trace (t : loan_terms) (n : nat) :
  forall m0 st rows,
    loan_loop t (months_from m0 n) st = Ok rows -> trace t m0 st rows.
Proof.
  induction n as [|n IH]; intros m0 st rows H.
  - cbn in H. injection H as <-. constructor.
  - rewrite months_from_S in H. cbn [loan_loop] in H.
    apply bind_Ok in H as [[r st'] [Hs H]].
    apply bind_Ok in H as [rest [Hl H]]. injection H as <-.
    cbn [fst snd] in *. econstructor; eauto.
Qed.


(** What every emitted row satisfies, whatever the policy. *)
Lemma loan_step_row (t : loan_terms) m st r st' :
  loan_step t m st = Ok (r, st') ->
  Month_Index r = m /\
  Opening_Balance r = closing_prev st /\
  Closing_Balance r = Opening_Balance r + Drawdown r - Principal_Repayment r /\
  closing_prev st' = Closing_Balance r.
Proof.
  unfold loan_step. intro H.
  apply bind_Ok in H as [[rp st1] [_ H]]. injection H as <- <-.
  cbn. auto.
Qed.

Lemma trace_Forall (t : loan_terms) (P : sched_row -> Prop) :
  (forall m st r st', loan_step t m st = Ok (r, st') -> P r) ->
  forall m st rows, trace t m st rows -> Forall P rows.
Proof.
  intros HP m st rows H. induction H; constructor; eauto.
Qed.

(** ** The rollforward identity *)


Lemma fold_max_zero (xs : list Qc) :
  Forall (fun x => x = 0) xs -> fold_left Num.max xs 0 = 0.
Proof.
  induction 1 as [|x xs Hx _ IH]; [reflexivity|].
  cbn. subst x. exact IH.
Qed.





(** ** Annuity arithmetic *)

Section Annuity.

Variable r : Qc.
Hypothesis r_nonneg : 0 <= r.

Lemma growth_nonzero : 1 + r <> 0.
Proof. intro E. pose proof r_nonneg. qc_lra. Qed.

Lemma pvf_step (j : nat) : (1 + r) * pvf (1 + r) (S j) = pvf (1 + r) j + 1.
Proof. cbn [pvf]. field. exact growth_nonzero. Qed.

Lemma pvf_bounds (j : nat) :
  0 <= pvf (1 + r) j /\ r * pvf (1 + r) j <= 1 /\
  pvf (1 + r) j <= Num.of_Z (Z.of_nat j).
Proof.
  induction j as [|j (IH1 & IH2 & IH3)].
  - cbn [pvf]. repeat split; try qc_lra. apply NumFacts.leb_le. reflexivity.
  - pose proof (pvf_step j) as E. pose proof r_nonneg as Hr.
    assert (N : Num.of_Z (Z.of_nat (S j)) = Num.of_Z (Z.of_nat j) + 1).
    { rewrite Nat2Z.inj_succ. apply Qc_is_canon. rewrite NumFacts.this_plus.
      rewrite !NumFacts.this_of_Z. unfold Z.succ. rewrite inject_Z_plus.
      reflexivity. }
    rewrite N.
    set (X := pvf (1 + r) (S j)) in *. set (Y := pvf (1 + r) j) in *.
    set (n := Num.of_Z (Z.of_nat j)) in *.
    qc2q. repeat split; nra.
Qed.

Lemma pvf_mono (j : nat) : pvf (1 + r) j <= pvf (1 + r) (S j).
Proof.
  pose proof (pvf_step j) as E.
  destruct (pvf_bounds (S j)) as (_ & H & _).
  set (X := pvf (1 + r) (S j)) in *. set (Y := pvf (1 + r) j) in *.
  qc_lra.
Qed.

Lemma pvf_pos (j : nat) : 0 < pvf (1 + r) (S j).
Proof.
  pose proof (pvf_step j) as E. pose proof r_nonneg as Hr.
  destruct (pvf_bounds j) as (H & _ & _).
  set (X := pvf (1 + r) (S j)) in *. set (Y := pvf (1 + r) j) in *.
  qc_nra.
Qed.

Lemma pvf_closed (j : nat) : r * pvf (1 + r) j = 1 - / ((1 + r) ^ j).
Proof.
  induction j as [|j IH].
  - cbn [pvf Qcpower]. field. exact Q_apart_0_1.
  - cbn [Qcpower].
    assert (Hp : (1 + r) ^ j <> 0).
    { clear IH. induction j as [|j IHj]; cbn [Qcpower].
      - exact Q_apart_0_1.
      - intro Z0. apply Qcmult_integral in Z0 as [Z0|Z0];
          [exact (growth_nonzero Z0) | exact (IHj Z0)]. }
    assert (IH' : / ((1 + r) ^ j) = 1 - r * pvf (1 + r) j) by (rewrite IH; ring).
    rewrite Qcinv_mult_distr, IH'. cbn [pvf]. field. exact growth_nonzero.
Qed.

(** With a non-negative rate the payment formula never divides by zero;
    on a non-negative balance the payment is non-negative and worth, over
    the [n] periods, no more than the balance. *)
Lemma annuity_payment_sound (pv : Qc) (n : Z) :
  (1 <= n)%Z ->
  exists pmt,
    _annuity_payment pv r n = Ok pmt /\
    (0 <= pv -> 0 <= pmt /\ pmt * pvf (1 + r) (Z.to_nat n) <= pv).
Proof.
  intro Hn. unfold _annuity_payment.
  destruct (Z.leb_spec n 0) as [L|_]; [lia|].
  assert (Nn : 0 < Num.of_Z n).
  { unfold Qclt. rewrite NumFacts.this_of_Z. change (this 0) with (inject_Z 0).
    rewrite <- Zlt_Qlt. lia. }
  destruct (Num.ltb (Num.abs r) Num.tiny) eqn:Ht.
  - eexists. split; [reflexivity|]. intro Hpv.
    destruct (pvf_bounds (Z.to_nat n)) as (B1 & _ & B3).
    rewrite Z2Nat.id in B3 by lia.
    assert (Hne : Num.of_Z n <> 0) by (intro Z0; rewrite Z0 in Nn; qc_lra).
    assert (E : pv / Num.of_Z n * Num.of_Z n = pv) by (field; exact Hne).
    set (p := pv / Num.of_Z n) in *. set (N := Num.of_Z n) in *.
    set (Y := pvf (1 + r) (Z.to_nat n)) in *.
    qc2q. split; nra.
  - assert (Hb : Num.eqb (1 + r) 0 = false) by (apply NumFacts.eqb_neq, growth_nonzero).
    rewrite Hb.
    assert (Hr : 0 < r).
    { apply NumFacts.ltb_ge in Ht. unfold Num.abs in Ht.
      assert (T : 0 < Num.tiny) by (apply NumFacts.ltb_lt; reflexivity).
      destruct (Num.ltb r 0) eqn:S0.
      - apply NumFacts.ltb_lt in S0. pose proof r_nonneg. qc_lra.
      - qc_lra. }
    rewrite <- pvf_closed.
    destruct (Z.to_nat n) as [|j] eqn:Ej; [lia|].
    pose proof (pvf_pos j) as Hp.
    assert (Hd : 0 < r * pvf (1 + r) (S j)).
    { set (Y := pvf (1 + r) (S j)) in *. qc_nra. }
    assert (Hd0 : r * pvf (1 + r) (S j) <> 0).
    { intro Z0. rewrite Z0 in Hd. qc_lra. }
    assert (Hq : Num.eqb (r * pvf (1 + r) (S j)) 0 = false)
      by (apply NumFacts.eqb_neq, Hd0).
    rewrite Hq. eexists. split; [reflexivity|]. intro Hpv.
    assert (Hside : pvf (1 + r) (S j) <> 0 /\ r <> 0).
    { split; intro Z0.
      - rewrite Z0 in Hp. qc_lra.
      - rewrite Z0 in Hr. qc_lra. }
    assert (E : pv * r / (r * pvf (1 + r) (S j)) * pvf (1 + r) (S j) = pv)
      by (field; exact Hside).
    rewrite E. split; [|apply Qcle_refl].
    assert (E2 : pv * r / (r * pvf (1 + r) (S j)) * (r * pvf (1 + r) (S j)) = pv * r)
      by (field; exact Hside).
    set (p := pv * r / (r * pvf (1 + r) (S j))) in *.
    set (D := r * pvf (1 + r) (S j)) in *.
    qc2q. nra.
Qed.

(** One annuity month with [j + 1] payments left: if the balance covers
    the value of the [j + 1] payments, the balance after the repayment
    covers the value of the remaining [j]. *)
Lemma annuity_month (pmt o : Qc) (j : nat) :
  0 <= pmt ->
  pmt * pvf (1 + r) (S j) <= o ->
  pmt * pvf (1 + r) j <= o + 0 - Num.max 0 (pmt - o * r).
Proof.
  intros Hp Ho.
  pose proof (pvf_step j) as E. pose proof (pvf_mono j) as M.
  pose proof r_nonneg as Hr.
  destruct (pvf_bounds j) as (B1 & _ & _).
  unfold Num.max. destruct (Num.ltb 0 (pmt - o * r)) eqn:L.
  - set (X := pvf (1 + r) (S j)) in *. set (Y := pvf (1 + r) j) in *.
    qc2q. nra.
  - apply NumFacts.ltb_ge in L.
    set (X := pvf (1 + r) (S j)) in *. set (Y := pvf (1 + r) j) in *.
    qc2q. nra.
Qed.

End Annuity.

(** ** The loan schedule under non-negative principal and rate *)

Lemma loan_inputs_well_formed row h t :
  loan_inputs row h = Ok t -> well_formed t.
Proof.
  unfold loan_inputs. intro H.
  repeat (apply bind_Ok in H as [? [_ H]]). injection H as <-.
  constructor; cbn; lia.
Qed.

Lemma loan_step_unfold (t : loan_terms) m st :
  loan_step t m st =
  (rs <- (if in_window t m
          then amort_repay t m (closing_prev st) (draw_at t m)
                           (interest_on t m (closing_prev st)) st
          else Ok (0, st)) ;;
   Ok (row_of t m (closing_prev st) (fst rs),
       next_state (snd rs) (closing_prev st + draw_at t m - fst rs))).
Proof.
  unfold loan_step, in_window, draw_at, interest_on, row_of, next_state.
  match goal with
  | |- bind ?c _ = _ => destruct c as [[repay st1]|e]; reflexivity
  end.
Qed.

Lemma loan_step_inv (t : loan_terms) m st r st' :
  loan_step t m st = Ok (r, st') ->
  exists repay st1,
    (if in_window t m
     then amort_repay t m (closing_prev st) (draw_at t m)
                      (interest_on t m (closing_prev st)) st
     else Ok (0, st)) = Ok (repay, st1) /\
    r = row_of t m (closing_prev st) repay /\
    st' = next_state st1 (closing_prev st + draw_at t m - repay).
Proof.
  rewrite loan_step_unfold. intro H.
  apply bind_Ok in H as [[repay st1] [Hr H]]. injection H as <- <-.
  exists repay, st1. auto.
Qed.

Lemma amort_repay_annuity (t : loan_terms) m o d i st :
  uses_annuity t = true ->
  amort_repay t m o d i st =
  annuity_repay t m o d i
    (match pv_at_amort_start st with None => o + 0 | Some pv => pv end) st.
Proof.
  unfold uses_annuity, amort_repay. intro H.
  destruct (String.eqb (amort_type t) "annuity"); [reflexivity|].
  destruct (String.eqb (amort_type t) "straight"); [discriminate|].
  destruct (String.eqb (amort_type t) "bullet"); [discriminate|reflexivity].
Qed.

Lemma straight_not_annuity (t : loan_terms) :
  String.eqb (amort_type t) "straight" = true -> uses_annuity t = false.
Proof.
  unfold uses_annuity. intro H. rewrite H.
  apply String.eqb_eq in H. rewrite H. reflexivity.
Qed.

Section LoanInvariant.

Variable t : loan_terms.
Hypothesis wf : well_formed t.
Hypothesis principal_nonneg : 0 <= principal t.
Hypothesis rate_nonneg : 0 <= rate_pct t.

Lemma r_m_nonneg : 0 <= r_m t.
Proof.
  unfold r_m, Qcdiv.
  assert (A : 0 <= / Num.of_Z 100) by (apply NumFacts.leb_le; reflexivity).
  assert (B : 0 <= / Num.of_Z 12) by (apply NumFacts.leb_le; reflexivity).
  set (a := / Num.of_Z 100) in *. set (b := / Num.of_Z 12) in *.
  set (x := rate_pct t) in *. pose proof rate_nonneg as R. fold x in R.
  assert (0 <= x * a) by qc_nra. qc_nra.
Qed.

Lemma of_Z_pos (z : Z) : (0 < z)%Z -> 0 < Num.of_Z z.
Proof.
  intro H. unfold Qclt. rewrite NumFacts.this_of_Z.
  change (this 0) with (inject_Z 0). rewrite <- Zlt_Qlt. exact H.
Qed.

Lemma of_Z_nonneg (z : Z) : (0 <= z)%Z -> 0 <= Num.of_Z z.
Proof.
  intro H. unfold Qcle. rewrite NumFacts.this_of_Z.
  change (this 0) with (inject_Z 0). rewrite <- Zle_Qle. exact H.
Qed.

Lemma of_Z_succ (z : Z) : Num.of_Z (z + 1) = Num.of_Z z + 1.
Proof.
  apply Qc_is_canon. rewrite NumFacts.this_plus, !NumFacts.this_of_Z.
  rewrite inject_Z_plus. reflexivity.
Qed.

Lemma div_nonneg (a : Qc) (z : Z) : 0 <= a -> (0 < z)%Z -> 0 <= a / Num.of_Z z.
Proof.
  intros Ha Hz. pose proof (of_Z_pos z Hz) as Hp.
  assert (Hne : Num.of_Z z <> 0) by (intro E; rewrite E in Hp; qc_lra).
  assert (E : a / Num.of_Z z * Num.of_Z z = a) by (field; exact Hne).
  set (x := a / Num.of_Z z) in *. set (n := Num.of_Z z) in *. qc_nra.
Qed.

Lemma monthly_draw_nonneg : 0 <= monthly_draw t.
Proof.
  unfold monthly_draw. destruct (Z.ltb_spec 0 (draw_months t)).
  - apply div_nonneg; assumption.
  - apply Qcle_refl.
Qed.

Lemma draw_at_nonneg m : 0 <= draw_at t m.
Proof.
  unfold draw_at. destruct (_ && _)%bool.
  - exact monthly_draw_nonneg.
  - apply Qcle_refl.
Qed.

Lemma draw_at_after m : (draw_end t < m)%Z -> draw_at t m = 0.
Proof.
  intro H. unfold draw_at.
  destruct (Z.leb_spec m (draw_end t)); [lia|].
  rewrite !andb_false_r. reflexivity.
Qed.

Lemma amort_start_bounds :
  (amort_start t <= tenor t)%Z /\ (1 <= tenor t -> 1 <= amort_start t)%Z /\
  (amort_start t < tenor t -> draw_end t < amort_start t)%Z.
Proof. destruct wf. unfold amort_start. lia. Qed.

Lemma amort_nper_eq : amort_nper t = (tenor t - amort_start t + 1)%Z.
Proof. pose proof amort_start_bounds. unfold amort_nper. lia. Qed.

Lemma in_window_iff m :
  in_window t m = true <-> (amort_start t <= m <= tenor t)%Z.
Proof.
  unfold in_window. rewrite amort_nper_eq. pose proof amort_start_bounds.
  rewrite !andb_true_iff, Z.ltb_lt, !Z.leb_le. lia.
Qed.


Lemma interest_in_tenor m o :
  (1 <= m <= tenor t)%Z -> interest_on t m o = o * r_m t.
Proof.
  intro H. unfold interest_on.
  destruct (Z.leb_spec 1 m); [|lia]. destruct (Z.leb_spec m (tenor t)); [|lia].
  reflexivity.
Qed.

Lemma plug_clears (o d : Qc) : 0 <= o -> 0 <= d -> o + d - Num.max 0 (o + d) = 0.
Proof.
  intros Ho Hd. rewrite NumFacts.max_0_nonneg by qc_lra. ring.
Qed.

Lemma amort_repay_sound m st :
  (1 <= m)%Z -> (amort_start t <= m <= tenor t)%Z -> Inv t m st ->
  exists repay st1,
    amort_repay t m (closing_prev st) (draw_at t m)
                (interest_on t m (closing_prev st)) st = Ok (repay, st1) /\
    (m = tenor t -> repay = Num.max 0 (closing_prev st + draw_at t m)) /\
    ((m < tenor t)%Z -> window_post t m st1 (closing_prev st + draw_at t m - repay)) /\
    (uses_annuity t = true -> 0 <= repay).
Proof.
  intros Hm W (Hc & Hpre & Hin).
  pose proof amort_start_bounds as (B1 & B2 & B3).
  pose proof r_m_nonneg as Hr.
  rewrite interest_in_tenor by lia.
  set (o := closing_prev st) in *. set (d := draw_at t m) in *.
  assert (Hd : (m < tenor t)%Z -> d = 0).
  { intro L. apply draw_at_after. lia. }
  assert (Hpv : match pv_at_amort_start st with None => o + 0 | Some pv => pv end
                = match pv_at_amort_start st with None => o | Some pv => pv end).
  { destruct (pv_at_amort_start st); [reflexivity|ring]. }
  destruct (uses_annuity t) eqn:UA.
  - (* the annuity formula *)
    rewrite amort_repay_annuity by exact UA. unfold annuity_repay.
    assert (P : exists pmt,
               match annuity_pmt st with
               | None => _annuity_payment
                           (match pv_at_amort_start st with None => o + 0 | Some pv => pv end)
                           (r_m t) (amort_nper t)
               | Some p => Ok p
               end = Ok pmt /\ 0 <= pmt /\
               pmt * pvf (1 + r_m t) (Z.to_nat (tenor t - m + 1)) <= o).
    { destruct (Z.eq_dec m (amort_start t)) as [E|NE].
      - destruct Hpre as (P1 & P2 & _); [lia|]. rewrite P1, P2.
        destruct (annuity_payment_sound (r_m t) Hr (o + 0) (amort_nper t))
          as (pmt & E1 & E2); [rewrite amort_nper_eq; lia|].
        exists pmt. split; [exact E1|].
        destruct E2 as [E2 E3]; [qc_lra|]. split; [exact E2|].
        rewrite amort_nper_eq in E3. rewrite E.
        set (X := pvf _ _) in *. qc_lra.
      - destruct Hin as (_ & Q & _); [lia|].
        destruct (Q eq_refl) as (pmt & Q1 & Q2 & Q3).
        exists pmt. rewrite Q1. auto. }
    destruct P as (pmt & P1 & P2 & P3). rewrite P1. cbn [bind].
    eexists _, _. split; [reflexivity|]. split; [|split].
    + intros ->. rewrite Z.eqb_refl. reflexivity.
    + intro L. destruct (Z.eqb_spec m (tenor t)); [lia|].
      rewrite (Hd L).
      replace (Z.to_nat (tenor t - m + 1)) with (S (Z.to_nat (tenor t - m))) in P3 by lia.
      pose proof (annuity_month (r_m t) Hr pmt o _ P2 P3) as A.
      destruct (pvf_bounds (r_m t) Hr (Z.to_nat (tenor t - m))) as (V & _ & _).
      assert (Z0 : 0 <= pmt * pvf (1 + r_m t) (Z.to_nat (tenor t - m))).
      { set (X := pvf _ _) in *. qc_nra. }
      split; [|split; [|split]].
      * eapply Qcle_trans; [exact Z0|exact A].
      * cbn. discriminate.
      * intros _. exists pmt. cbn. auto.
      * intro S. rewrite (straight_not_annuity t S) in UA. discriminate.
    + intros _. destruct (m =? tenor t)%Z; apply NumFacts.max_l.
  - (* straight or bullet *)
    unfold uses_annuity in UA. apply orb_false_elim in UA as [UA1 UA2].
    apply negb_false_iff in UA2. unfold amort_repay. rewrite UA1.
    destruct (String.eqb (amort_type t) "straight") eqn:ST.
    + assert (P : exists sp,
                 match straight_principal st with
                 | None =>
                     if (0 <? amort_nper t)%Z
                     then (match pv_at_amort_start st with None => o + 0 | Some pv => pv end)
                          / Num.of_Z (amort_nper t)
                     else 0
                 | Some sp => sp
                 end = sp /\ 0 <= sp /\ sp * Num.of_Z (tenor t - m + 1) <= o).
      { destruct (Z.eq_dec m (amort_start t)) as [E|NE].
        - destruct Hpre as (P1 & _ & P3); [lia|]. rewrite P1, P3.
          rewrite amort_nper_eq, <- E.
          destruct (Z.ltb_spec 0 (tenor t - m + 1)); [|lia].
          eexists. split; [reflexivity|].
          pose proof (of_Z_pos (tenor t - m + 1) ltac:(lia)) as Np.
          split; [apply div_nonneg; [qc_lra|lia]|].
          assert (Hne : Num.of_Z (tenor t - m + 1) <> 0)
            by (intro Z0; rewrite Z0 in Np; qc_lra).
          replace ((o + 0) / Num.of_Z (tenor t - m + 1) * Num.of_Z (tenor t - m + 1))
            with o by (field; exact Hne).
          apply Qcle_refl.
        - destruct Hin as (_ & _ & Q); [lia|].
          destruct (Q eq_refl) as (sp & Q1 & Q2 & Q3).
          exists sp. rewrite Q1. auto. }
      destruct P as (sp & P1 & P2 & P3). rewrite P1.
      eexists _, _. split; [reflexivity|]. split; [|split]; [| |discriminate].
      * intros ->. rewrite Z.eqb_refl. reflexivity.
      * intro L. destruct (Z.eqb_spec m (tenor t)); [lia|].
        rewrite (Hd L).
        replace (tenor t - m + 1)%Z with ((tenor t - m) + 1)%Z in P3 by lia.
        rewrite of_Z_succ in P3.
        pose proof (of_Z_nonneg (tenor t - m) ltac:(lia)) as Nn.
        set (N := Num.of_Z (tenor t - m)) in *.
        assert (A : sp * N <= o + 0 - sp) by qc_nra.
        assert (Z0 : 0 <= sp * N) by qc_nra.
        split; [|split; [|split]].
        -- eapply Qcle_trans; [exact Z0|exact A].
        -- cbn. discriminate.
        -- unfold uses_annuity. rewrite UA1, ST. discriminate.
        -- intros _. exists sp. cbn. auto.
    + cbn in UA2. rewrite UA2.
      eexists _, _. split; [reflexivity|]. split; [|split]; [| |discriminate].
      * intros ->. rewrite Z.ltb_irrefl. reflexivity.
      * intro L. destruct (Z.ltb_spec m (tenor t)); [|lia].
        rewrite (Hd L).
        split; [|split; [|split]].
        -- qc_lra.
        -- cbn. discriminate.
        -- unfold uses_annuity. rewrite UA1, ST, UA2. discriminate.
        -- intro S. congruence.
Qed.

(** One month preserves the invariant and never raises. *)
Lemma Inv_step m st :
  (1 <= m)%Z -> Inv t m st ->
  exists r st', loan_step t m st = Ok (r, st') /\ Inv t (m + 1) st'.
Proof.
  intros Hm HI. pose proof HI as (Hc & Hpre & Hin).
  pose proof amort_start_bounds as (B1 & B2 & B3).
  rewrite loan_step_unfold.
  destruct (in_window t m) eqn:W.
  - apply in_window_iff in W.
    destruct (amort_repay_sound m st Hm W HI) as (repay & st1 & E & Plug & Post & _).
    rewrite E. cbn [bind fst snd]. eexists _, _. split; [reflexivity|].
    destruct (Z.eq_dec m (tenor t)) as [Et|Nt].
    + rewrite (Plug Et), plug_clears by (auto using draw_at_nonneg).
      split; [apply Qcle_refl|]. split; intro; lia.
    + destruct Post as (Q1 & Q2 & Q3 & Q4); [lia|].
      split; [exact Q1|]. split; [intro; lia|]. intros _.
      replace (tenor t - (m + 1) + 1)%Z with (tenor t - m)%Z by lia.
      cbn [next_state closing_prev pv_at_amort_start annuity_pmt straight_principal].
      auto.
  - cbn [bind fst snd]. eexists _, _. split; [reflexivity|].
    assert (Out : (m < amort_start t \/ tenor t < m)%Z).
    { destruct (Z.lt_ge_cases m (amort_start t)) as [L|G]; [auto|].
      destruct (Z.lt_ge_cases (tenor t) m) as [L|G']; [auto|].
      assert (T : in_window t m = true) by (apply in_window_iff; lia).
      congruence. }
    pose proof (draw_at_nonneg m) as Hd.
    split; [|split].
    + cbn. set (d := draw_at t m) in *. qc_lra.
    + intro L. cbn. apply Hpre. lia.
    + intro L. lia.
Qed.


(** The balance carried into any emitted row is non-negative. *)
Lemma Inv_trace m st rows :
  trace t m st rows -> (1 <= m)%Z -> Inv t m st ->
  forall i r, nth_error rows i = Some r -> 0 <= Opening_Balance r.
Proof.
  induction 1 as [|m st r st' rows Hs _ IH]; intros Hm HI i r0 Hn.
  - destruct i; discriminate.
  - destruct (Inv_step m st Hm HI) as (r' & st'' & E & HI').
    rewrite Hs in E. injection E as <- <-.
    destruct i as [|i]; cbn in Hn.
    + injection Hn as <-. apply loan_step_row in Hs as (_ & -> & _).
      exact (proj1 HI).
    + eapply IH; eauto. lia.
Qed.



End LoanInvariant.

(** ** Terminal clearance *)

Lemma loan_loop_length (t : loan_terms) (months : list Z) :
  forall st rows, loan_loop t months st = Ok rows -> List.length rows = List.length months.
Proof.
  induction months as [|m months IH]; intros st rows H; cbn in H.
  - injection H as <-. reflexivity.
  - apply bind_Ok in H as [[r st'] [_ H]].
    apply bind_Ok in H as [rest [Hl H]]. injection H as <-.
    cbn. f_equal. eapply IH; eauto.
Qed.

Lemma create_loan_schedule_eq row cal h t :
  calendar_horizon cal = Ok h -> loan_inputs row h = Ok t ->
  create_loan_schedule row cal = loan_loop t (months_from 1 (Z.to_nat h)) loop_init.
Proof. intros Hh Ht. unfold create_loan_schedule. rewrite Hh. cbn. rewrite Ht. reflexivity. Qed.



Example absurd_rate_closing :
  closing_of (create_loan_schedule absurd_rate_loan [1; 2; 3]%Z) 3 = Some (-1200 # 1)%Q.
Proof. vm_compute. reflexivity. Qed.




(** ** Annuity monotonicity *)


Example negative_principal_interest :
  interest_of (create_loan_schedule negative_principal_annuity [1; 2; 3]%Z)
  = [0; -12 # 1; 0]%Q.
Proof. vm_compute. reflexivity. Qed.





(** ** Unknown policies behave as the annuity policy *)







(** ** Defensive parsing of the numeric fields *)

Example blank_tenor_reads_horizon :
  _ival blank_tenor_loan "Tenor_Months" 60 = Ok 60%Z.
Proof. reflexivity. Qed.

(** A cell that is neither blank nor a number: the fallback
    [int(float(v))] inside the handler of [_ival] raises in its turn. *)
Example text_tenor_raises :
  create_loan_schedule text_tenor_loan calendar_60 = Raise ValueError.
Proof. reflexivity. Qed.










(** ** Further properties of the loan schedule *)

Lemma in_window_tenor (t : loan_terms) : in_window t (tenor t) = true.
Proof.
  unfold in_window, amort_nper, amort_start.
  rewrite !andb_true_iff, Z.ltb_lt, !Z.leb_le. lia.
Qed.

Lemma in_window_before_tenor (t : loan_terms) m :
  (amort_start t <= m < tenor t)%Z -> in_window t m = true.
Proof.
  unfold in_window, amort_nper.
  rewrite !andb_true_iff, Z.ltb_lt, !Z.leb_le. lia.
Qed.

(** X1.  Bullet deferral: under the bullet policy every row repays nothing,
    except the row of the tenor month, which repays
    [max(0, opening + draw)]. *)
Theorem bullet_deferral (row : series) (cal : calendar) (sched : list sched_row)
    (h : Z) (t : loan_terms) :
  calendar_horizon cal = Ok h ->
  loan_inputs row h = Ok t ->
  amort_type t = "bullet" ->
  create_loan_schedule row cal = Ok sched ->
  Forall (fun r =>
            Principal_Repayment r =
            if (Month_Index r =? tenor t)%Z
            then Num.max 0 (Opening_Balance r + Drawdown r) else 0) sched.
Proof.
  intros Hh Ht Hb Hs. rewrite (create_loan_schedule_eq _ _ _ _ Hh Ht) in Hs.
  apply loan_loop_trace in Hs.
  eapply trace_Forall; [|exact Hs]. intros m st r st' Hstep.
  apply loan_step_inv in Hstep as (repay & st1 & E & -> & _). cbn.
  destruct (in_window t m) eqn:W.
  - unfold amort_repay in E. rewrite Hb in E. cbn in E. injection E as <- _.
    unfold in_window in W. rewrite !andb_true_iff, !Z.leb_le in W.
    destruct (Z.ltb_spec m (tenor t)); destruct (Z.eqb_spec m (tenor t));
      try lia; reflexivity.
  - injection E as <- _. destruct (Z.eqb_spec m (tenor t)) as [->|]; [|reflexivity].
    rewrite in_window_tenor in W. discriminate W.
Qed.

Lemma bullet_deferral_witness :
  exists sched,
    create_loan_schedule (example_loan "bullet") calendar_60 = Ok sched /\
    Forall (fun r =>
              Principal_Repayment r =
              if (Month_Index r =? 12)%Z
              then Num.max 0 (Opening_Balance r + Drawdown r) else 0) sched.
Proof.
  destruct (create_loan_schedule (example_loan "bullet") calendar_60)
    as [sched|e] eqn:E.
  - exists sched. split; [reflexivity|].
    apply (bullet_deferral (example_loan "bullet") calendar_60 sched 60
             (example_terms "bullet")).
    + reflexivity.
    + vm_compute. reflexivity.
    + reflexivity.
    + exact E.
  - vm_compute in E. discriminate E.
Defined.

(** Once the straight-line instalment is set, every later window row before
    the tenor month repays it. *)
Lemma straight_trace_set (t : loan_terms) (sp : Qc) m st rows :
  trace t m st rows ->
  amort_type t = "straight" ->
  straight_principal st = Some sp ->
  Forall (fun r => (amort_start t <= Month_Index r < tenor t)%Z ->
                   Principal_Repayment r = sp) rows.
Proof.
  intros Tr Hs. induction Tr as [|m st r st' rows Hstep _ IH]; intro Hsp;
    constructor.
  - apply loan_step_inv in Hstep as (repay & st1 & E & -> & _). cbn. intro Hw.
    rewrite (in_window_before_tenor t m Hw) in E.
    unfold amort_repay in E. rewrite Hs, Hsp in E. cbn in E. injection E as <- _.
    destruct (Z.eqb_spec m (tenor t)); [lia|reflexivity].
  - apply IH. apply loan_step_inv in Hstep as (repay & st1 & E & _ & ->). cbn.
    destruct (in_window t m).
    + unfold amort_repay in E. rewrite Hs, Hsp in E. cbn in E.
      injection E as _ <-. reflexivity.
    + injection E as _ <-. exact Hsp.
Qed.

Lemma straight_trace (t : loan_terms) m st rows :
  trace t m st rows ->
  amort_type t = "straight" ->
  straight_principal st = None ->
  exists sp,
    Forall (fun r => (amort_start t <= Month_Index r < tenor t)%Z ->
                     Principal_Repayment r = sp) rows.
Proof.
  intros Tr Hs. induction Tr as [|m st r st' rows Hstep Tr IH]; intro Hsp.
  - exists 0. constructor.
  - pose proof Hstep as Hstep'.
    apply loan_step_inv in Hstep as (repay & st1 & E & -> & ->).
    destruct (in_window t m) eqn:W.
    + unfold amort_repay in E. rewrite Hs, Hsp in E. cbn in E.
      injection E as <- <-.
      match goal with
      | Tr : trace t (m + 1) (next_state {| straight_principal := Some ?x |} _) rows |- _ =>
          exists x; constructor;
          [ cbn; intro Hw; destruct (Z.eqb_spec m (tenor t)); [lia|reflexivity]
          | exact (straight_trace_set t x _ _ _ Tr Hs eq_refl) ]
      end.
    + injection E as <- <-. destruct IH as [sp Hf]; [exact Hsp|].
      exists sp. constructor; [|exact Hf]. cbn. intro Hw.
      rewrite (in_window_before_tenor t m Hw) in W. discriminate W.
Qed.

(** X2.  Straight-line equality: under the straight policy one amount is
    repaid in every month of the amortization window before the tenor
    month (the tenor month repays the residual). *)
Theorem straight_line_equality (row : series) (cal : calendar) (sched : list sched_row)
    (h : Z) (t : loan_terms) :
  calendar_horizon cal = Ok h ->
  loan_inputs row h = Ok t ->
  amort_type t = "straight" ->
  create_loan_schedule row cal = Ok sched ->
  exists sp,
    Forall (fun r => (amort_start t <= Month_Index r < tenor t)%Z ->
                     Principal_Repayment r = sp) sched.
Proof.
  intros Hh Ht Hs Hc. rewrite (create_loan_schedule_eq _ _ _ _ Hh Ht) in Hc.
  apply loan_loop_trace in Hc. exact (straight_trace t 1 loop_init sched Hc Hs eq_refl).
Qed.

Lemma straight_line_equality_witness :
  exists sched sp,
    create_loan_schedule (example_loan "straight") calendar_60 = Ok sched /\
    Forall (fun r => (2 <= Month_Index r < 12)%Z -> Principal_Repayment r = sp) sched.
Proof.
  destruct (create_loan_schedule (example_loan "straight") calendar_60)
    as [sched|e] eqn:E.
  - destruct (straight_line_equality (example_loan "straight") calendar_60 sched 60
                (example_terms "straight")) as [sp Hsp].
    + reflexivity.
    + vm_compute. reflexivity.
    + reflexivity.
    + exact E.
    + exists sched, sp. split; [reflexivity|exact Hsp].
  - vm_compute in E. discriminate E.
Defined.

(** X3.  Interest accrues on the opening balance only: a row's interest is
    [opening * rate / 100 / 12] in the months 1 to tenor and 0 after them;
    the first row opens at 0 and every other row opens at the closing
    balance of the row before it. *)
Theorem interest_on_opening_only (row : series) (cal : calendar)
    (sched : list sched_row) (h : Z) (t : loan_terms) :
  calendar_horizon cal = Ok h ->
  loan_inputs row h = Ok t ->
  create_loan_schedule row cal = Ok sched ->
  Forall (fun r =>
            Interest_Accrued r =
            if ((1 <=? Month_Index r) && (Month_Index r <=? tenor t))%Z
            then Opening_Balance r * (rate_pct t / Num.of_Z 100 / Num.of_Z 12)
            else 0) sched /\
  (forall r, nth_error sched 0 = Some r -> Opening_Balance r = 0) /\
  (forall i a b,
     nth_error sched i = Some a -> nth_error sched (S i) = Some b ->
     Opening_Balance b = Closing_Balance a).
Proof.
  intros Hh Ht Hc. rewrite (create_loan_schedule_eq _ _ _ _ Hh Ht) in Hc.
  apply loan_loop_trace in Hc. split; [|split].
  - eapply trace_Forall; [|exact Hc]. intros m st r st' Hstep.
    apply loan_step_inv in Hstep as (repay & st1 & _ & -> & _). reflexivity.
  - intros r Hr. inversion Hc as [|? ? r0 st' rows Hstep _]; subst; [discriminate|].
    cbn in Hr. injection Hr as <-.
    apply loan_step_row in Hstep as (_ & -> & _). reflexivity.
  - generalize dependent 1%Z. generalize loop_init.
    intros st m Tr. induction Tr as [|m st r st' rows Hstep Tr IH]; intros i a b Ha Hb.
    + destruct i; discriminate.
    + destruct i as [|i]; cbn in Ha, Hb.
      * injection Ha as <-.
        inversion Tr as [|? ? b' st2 rows' Hstep2 _]; subst; [discriminate|].
        cbn in Hb. injection Hb as <-.
        apply loan_step_row in Hstep as (_ & _ & _ & Hc1).
        apply loan_step_row in Hstep2 as (_ & Ho & _). congruence.
      * eapply IH; eauto.
Qed.

Lemma interest_on_opening_only_witness :
  exists sched r,
    create_loan_schedule (example_loan "annuity") calendar_60 = Ok sched /\
    nth_error sched 0 = Some r /\ Opening_Balance r = 0 /\ Interest_Accrued r = 0.
Proof.
  destruct (create_loan_schedule (example_loan "annuity") calendar_60)
    as [sched|e] eqn:E; [|vm_compute in E; discriminate E].
  destruct (nth_error sched 0) as [r|] eqn:N.
  - destruct (interest_on_opening_only (example_loan "annuity") calendar_60 sched 60
                (example_terms "annuity") eq_refl) as (HI & H0 & _).
    + vm_compute. reflexivity.
    + exact E.
    + exists sched, r. repeat split; auto.
      pose proof (proj1 (Forall_forall _ _) HI r (nth_error_In _ _ N)) as Hr.
      cbv beta in Hr. rewrite (H0 r N) in Hr. rewrite Hr.
      destruct (_ && _)%bool; [ring|reflexivity].
  - exfalso. apply nth_error_None in N.
    assert (L : List.length sched = 60%nat).
    { vm_compute in E. injection E as <-. reflexivity. }
    lia.
Defined.

(** X4.  The schedule has one row per month of the horizon, in order:
    months 1 to [horizon]. *)
Theorem schedule_covers_horizon (row : series) (cal : calendar)
    (sched : list sched_row) (h : Z) :
  calendar_horizon cal = Ok h ->
  create_loan_schedule row cal = Ok sched ->
  map Month_Index sched = month_range h.
Proof.
  intros Hh Hc. unfold create_loan_schedule in Hc. rewrite Hh in Hc. cbn [bind] in Hc.
  apply bind_Ok in Hc as (t & _ & Hc). rewrite month_range_from in *.
  generalize dependent 1%Z. generalize loop_init. revert sched.
  induction (Z.to_nat h) as [|n IH]; intros sched st m Hc.
  - cbn in Hc. injection Hc as <-. reflexivity.
  - rewrite months_from_S in *. cbn [loan_loop] in Hc.
    apply bind_Ok in Hc as ([r st'] & Hs & Hc).
    apply bind_Ok in Hc as (rest & Hl & Hc). injection Hc as <-.
    cbn [fst snd map] in *. f_equal.
    + apply loan_step_row in Hs as (Hm & _). exact Hm.
    + eapply IH; eauto.
Qed.

Lemma schedule_covers_horizon_witness :
  exists sched,
    create_loan_schedule (example_loan "annuity") calendar_60 = Ok sched /\
    map Month_Index sched = month_range 60.
Proof.
  destruct (create_loan_schedule (example_loan "annuity") calendar_60)
    as [sched|e] eqn:E; [|vm_compute in E; discriminate E].
  exists sched. split; [reflexivity|].
  exact (schedule_covers_horizon (example_loan "annuity") calendar_60 sched 60 eq_refl E).
Defined.



(** ** The case selector *)

Example selector_without_case_raises :
  create_financing_schedules example_stack selector_without_case calendar_60
  = Raise (KeyError "PFinance_Case_Selector is missing the 'PFinance_Case' row.").
Proof. reflexivity. Qed.

Lemma selector_without_case_lacks : lacks_active_case selector_without_case.
Proof. intros r [<-|[]]. reflexivity. Qed.

(** C5, counterexample.  The exception raised for a selector without the
    [PFinance_Case] row is a [KeyError]; the engine has no
    [ConfigurationError]. *)
Lemma selector_error_counterexample :
  ~ selector_error_is "ConfigurationError" example_stack selector_without_case calendar_60.
Proof.
  intro H. destruct (H selector_without_case_lacks) as (e & E & N).
  rewrite selector_without_case_raises in E. injection E as <-. discriminate N.
Qed.

Lemma filter_none {A : Type} (f : A -> bool) (l : list A) :
  (forall x, In x l -> f x = false) -> filter f l = [].
Proof.
  induction l as [|x l IH]; intro H; [reflexivity|].
  cbn. rewrite (H x (or_introl eq_refl)). apply IH. intros y Hy. apply H. right. exact Hy.
Qed.

(** C5, amended.  When no row of the selector table has the key
    [PFinance_Case], [create_financing_schedules] raises a [KeyError],
    whatever the instrument catalog and the calendar are. *)
Theorem missing_case_raises_KeyError (stack sel : dataframe) (cal : calendar) :
  lacks_active_case sel ->
  raises_named "KeyError" (create_financing_schedules stack sel cal).
Proof.
  intro H. unfold create_financing_schedules, raises_named.
  destruct (negb (forallb (has_column stack) req_cols)); [eauto|].
  destruct (negb (has_column sel "Key") || negb (has_column sel "Value")); [eauto|].
  rewrite (filter_none _ _ H). eauto.
Qed.

Lemma missing_case_raises_KeyError_witness :
  raises_named "KeyError"
    (create_financing_schedules example_stack selector_without_case calendar_60).
Proof.
  apply missing_case_raises_KeyError. exact selector_without_case_lacks.
Defined.

(** ** The revolver schedule *)

(** C7.  Every schedule [_create_revolver_schedule] returns has one row per
    calendar month, with opening, draw, repayment and closing all 0 and
    interest [0.5 * principal * monthly_rate] in the months from the draw
    start to the tenor, 0 outside them.  For 2000 at 12% a year, draw start
    7, tenor 36, on a 60-month calendar, the interest is 10 in months 7 to
    36 and 0 in months 1 to 6 and 37 to 60. *)
Theorem revolver_schedule :
  (forall (r : series) (cal : calendar) (sched : list Revolver.row),
      Revolver._create_revolver_schedule r cal = Ok sched ->
      exists principal rate tenor draw_start,
        item_float r "Principal" = Ok principal /\
        item_float r "Rate_Pct" = Ok rate /\
        item_int r "Tenor_Months" = Ok tenor /\
        item_int r "Draw_Start_M" = Ok draw_start /\
        map Revolver.Month_Index sched = cal /\
        Forall (revolver_row_ok principal rate tenor draw_start) sched) /\
  revolver_interest (Revolver._create_revolver_schedule example_revolver calendar_60)
  = (repeat 0%Q 6 ++ repeat (10 # 1)%Q 30 ++ repeat 0%Q 24)%list.
Proof.
  split; [|vm_compute; reflexivity].
  intros r cal sched H. unfold Revolver._create_revolver_schedule in H.
  apply bind_Ok in H as (vp & Hvp & H). apply bind_Ok in H as (p & Hp & H).
  apply bind_Ok in H as (vr & Hvr & H). apply bind_Ok in H as (rt & Hrt & H).
  apply bind_Ok in H as (vt & Hvt & H). apply bind_Ok in H as (tn & Htn & H).
  apply bind_Ok in H as (vd & Hvd & H). apply bind_Ok in H as (ds & Hds & H).
  apply bind_Ok in H as (vl & Hvl & H). apply bind_Ok in H as (li & Hli & H).
  apply bind_Ok in H as (vc & Hvc & H). injection H as <-.
  exists p, rt, tn, ds. unfold item_float, item_int.
  rewrite Hvp, Hvr, Hvt, Hvd. cbn [bind].
  repeat split; auto.
  - rewrite map_map. cbn. apply map_id.
  - apply Forall_map. apply Forall_forall. intros m _.
    unfold revolver_row_ok. cbn. repeat split; reflexivity.
Qed.

Lemma revolver_schedule_witness :
  exists principal rate tenor draw_start,
    item_float example_revolver "Principal" = Ok principal /\
    item_float example_revolver "Rate_Pct" = Ok rate /\
    item_int example_revolver "Tenor_Months" = Ok tenor /\
    item_int example_revolver "Draw_Start_M" = Ok draw_start /\
    map Revolver.Month_Index
        (map (fun m =>
                {| Revolver.Month_Index := m; Revolver.Line_ID := 10;
                   Revolver.Currency := "NAD"; Revolver.Opening_Balance := 0;
                   Revolver.Drawdown := 0; Revolver.Repayment := 0;
                   Revolver.Interest_Accrued :=
                     if ((7 <=? m) && (m <=? 36))%Z
                     then Num.frac 1 2 * Num.of_Z 2000
                          * (Num.of_Z 12 / Num.of_Z 100 / Num.of_Z 12)
                     else 0;
                   Revolver.Closing_Balance := 0 |}) calendar_60)
    = calendar_60 /\
    Forall (revolver_row_ok principal rate tenor draw_start)
      (map (fun m =>
                {| Revolver.Month_Index := m; Revolver.Line_ID := 10;
                   Revolver.Currency := "NAD"; Revolver.Opening_Balance := 0;
                   Revolver.Drawdown := 0; Revolver.Repayment := 0;
                   Revolver.Interest_Accrued :=
                     if ((7 <=? m) && (m <=? 36))%Z
                     then Num.frac 1 2 * Num.of_Z 2000
                          * (Num.of_Z 12 / Num.of_Z 100 / Num.of_Z 12)
                     else 0;
                   Revolver.Closing_Balance := 0 |}) calendar_60).
Proof.
  apply (proj1 revolver_schedule example_revolver calendar_60).
  reflexivity.
Defined.

(** ** Arrays *)

Module NpFacts.

Lemma map2_length {A B C : Type} (f : A -> B -> C) (xs : list A) (ys : list B) :
  List.length (Np.map2 f xs ys) = Nat.min (List.length xs) (List.length ys).
Proof.
  revert ys. induction xs as [|x xs IH]; intros [|y ys]; cbn; auto.
Qed.

Lemma map2_nth {A B C : Type} (f : A -> B -> C) (xs : list A) (ys : list B)
    (i : nat) (da : A) (db : B) (dc : C) :
  (i < List.length xs)%nat -> (i < List.length ys)%nat ->
  nth i (Np.map2 f xs ys) dc = f (nth i xs da) (nth i ys db).
Proof.
  revert ys i. induction xs as [|x xs IH]; intros [|y ys] [|i] Hx Hy;
    cbn in *; try lia; auto.
  apply IH; lia.
Qed.

Lemma map_nth_lt {A B : Type} (f : A -> B) (xs : list A) (i : nat) (da : A) (db : B) :
  (i < List.length xs)%nat -> nth i (map f xs) db = f (nth i xs da).
Proof.
  revert i. induction xs as [|x xs IH]; intros [|i] Hi; cbn in *; try lia; auto.
  apply IH. lia.
Qed.

Lemma zeros_length (n : nat) : List.length (Np.zeros n) = n.
Proof. apply repeat_length. Qed.

Lemma cumsum_from_length (acc : Qc) (xs : list Qc) :
  List.length (Np.cumsum_from acc xs) = List.length xs.
Proof. revert acc. induction xs as [|x xs IH]; intro acc; cbn; auto. Qed.

Lemma cumsum_length (xs : list Qc) : List.length (Np.cumsum xs) = List.length xs.
Proof. apply cumsum_from_length. Qed.

Lemma cumsum_from_nth (xs : list Qc) :
  forall acc i, (i < List.length xs)%nat ->
    nth i (Np.cumsum_from acc xs) 0 = acc + WaterfallSpec.total (firstn (S i) xs).
Proof.
  induction xs as [|x xs IH]; intros acc i Hi; cbn in Hi; [lia|].
  destruct i as [|i].
  - cbn. ring.
  - cbn [Np.cumsum_from nth]. rewrite IH by lia.
    change (firstn (S (S i)) (x :: xs)) with (x :: firstn (S i) xs).
    cbn [WaterfallSpec.total fold_right]. fold (WaterfallSpec.total (firstn (S i) xs)). ring.
Qed.

Lemma cumsum_nth (xs : list Qc) (i : nat) :
  (i < List.length xs)%nat -> nth i (Np.cumsum xs) 0 = WaterfallSpec.total (firstn (S i) xs).
Proof.
  intro Hi. unfold Np.cumsum. rewrite cumsum_from_nth by exact Hi. ring.
Qed.

(** A running sum of non-negative terms never decreases. *)
Lemma cumsum_from_mono (xs : list Qc) :
  Forall (fun x => 0 <= x) xs ->
  forall acc i a b,
    nth_error (Np.cumsum_from acc xs) i = Some a ->
    nth_error (Np.cumsum_from acc xs) (S i) = Some b ->
    a <= b.
Proof.
  induction 1 as [|x xs Hx Hxs IH]; intros acc i a b Ha Hb.
  - destruct i; discriminate.
  - destruct i as [|i]; cbn in Ha, Hb.
    + injection Ha as <-. destruct xs as [|y ys]; [discriminate|].
      cbn in Hb. injection Hb as <-.
      inversion Hxs as [|? ? Hy _]; subst. qc_lra.
    + eapply IH; eauto.
Qed.

End NpFacts.

(** ** The cash waterfall *)

Module Waterfall.

Import M75B.
Import WaterfallSpec.

Lemma reindex_length col ms xs :
  reindex_fill0 col ms = Ok xs -> List.length xs = List.length ms.
Proof.
  unfold reindex_fill0. destruct (has_dup _); [discriminate|].
  intro H. injection H as <-. apply length_map.
Qed.

Lemma bucket_length flows types ms :
  List.length (bucket flows types ms) = List.length ms.
Proof. apply length_map. Qed.

Lemma run_computed (inp : inputs) (o : outputs) :
  run_m7_5b inp = Ok o -> computed o.
Proof.
  unfold run_m7_5b. intro H.
  destruct (df_j inp) as [|j0 js]; [discriminate|].
  destruct (df_m5 inp) as [|c0 cs]; [discriminate|].
  destruct (df_m6 inp) as [|r6 rs6] eqn:E6; [discriminate|].
  destruct (df_fx inp) as [|f0 fs]; [discriminate|].
  apply bind_Ok in H as (flows & _ & H).
  set (ms := sorted_unique (map m6_Month_Index (r6 :: rs6))) in *. clearbody ms.
  apply bind_Ok in H as (cfo & Hcfo & H).
  apply bind_Ok in H as (ss & Hss & H).
  apply bind_Ok in H as (tax & Htax & H).
  apply bind_Ok in H as (cash & Hcash & H).
  assert (Lc : List.length cfo = List.length ms) by (eapply reindex_length; eauto).
  assert (Ls : List.length ss = List.length ms).
  { destruct (df_m3 inp) as [m3|].
    - apply bind_Ok in Hss as (ip & Hi & Hss). apply bind_Ok in Hss as (pp & Hp & Hss).
      injection Hss as <-. unfold Np.add. rewrite NpFacts.map2_length.
      rewrite (reindex_length _ _ _ Hi), (reindex_length _ _ _ Hp). lia.
    - injection Hss as <-. apply NpFacts.zeros_length. }
  assert (Lt : List.length tax = List.length ms).
  { destruct (df_m4 inp) as [m4|].
    - eapply reindex_length; eauto.
    - injection Htax as <-. apply NpFacts.zeros_length. }
  assert (Lk : List.length cash = List.length ms) by (eapply reindex_length; eauto).
  destruct (String.eqb (_classify (instrument inp)) "equity_like");
    apply bind_Ok in H as (atot & Hat & H); injection H as <-;
    pose proof (reindex_length _ _ _ Hat) as La;
    (constructor; cbn; try reflexivity; try assumption;
     try apply bucket_length;
     unfold Np.add, Np.sub, Np.minimum, Np.maximum_scalar;
     rewrite ?NpFacts.map2_length, ?NpFacts.cumsum_length, ?NpFacts.map2_length,
       ?length_map, ?NpFacts.map2_length, ?bucket_length; lia).
Qed.

Lemma computed_period (o : outputs) (i : nat) :
  computed o -> (i < List.length (months o))%nat ->
  period_rule (nth i (CFO_NAD_000 o) 0) (nth i (senior_service o) 0)
              (nth i (tax_paid o) 0) (nth i (JUN_OUT_SCHED_NAD_000 o) 0)
              (nth i (available o) 0) (nth i (actual_out o) 0)
              (nth i (unpaid o) 0).
Proof.
  intros C Hi. destruct C.
  assert (Lsub : List.length (Np.sub (CFO_NAD_000 o) (senior_service o))
                 = List.length (months o)).
  { unfold Np.sub. rewrite NpFacts.map2_length. lia. }
  assert (Lsub2 : List.length (Np.sub (Np.sub (CFO_NAD_000 o) (senior_service o))
                                      (tax_paid o)) = List.length (months o)).
  { unfold Np.sub at 1. rewrite NpFacts.map2_length. lia. }
  assert (Lav : List.length (available o) = List.length (months o)).
  { rewrite c_available0. unfold Np.maximum_scalar. rewrite length_map. exact Lsub2. }
  assert (Lact : List.length (actual_out o) = List.length (months o)).
  { rewrite c_actual_out0. unfold Np.minimum. rewrite NpFacts.map2_length. lia. }
  assert (Eav : nth i (available o) 0
                = Num.max 0 (nth i (CFO_NAD_000 o) 0 - nth i (senior_service o) 0
                             - nth i (tax_paid o) 0)).
  { rewrite c_available0. unfold Np.maximum_scalar.
    rewrite (NpFacts.map_nth_lt _ _ i 0 0) by lia. unfold Np.sub.
    rewrite (NpFacts.map2_nth _ _ _ i 0 0 0) by (fold Np.sub; lia).
    rewrite (NpFacts.map2_nth _ _ _ i 0 0 0) by lia. reflexivity. }
  assert (Eact : nth i (actual_out o) 0
                 = Num.min (nth i (JUN_OUT_SCHED_NAD_000 o) 0) (nth i (available o) 0)).
  { rewrite c_actual_out0 at 1. unfold Np.minimum.
    rewrite (NpFacts.map2_nth _ _ _ i 0 0 0) by lia. reflexivity. }
  unfold period_rule. repeat split.
  - exact Eav.
  - exact Eact.
  - rewrite c_unpaid0. unfold Np.sub.
    rewrite (NpFacts.map2_nth _ _ _ i 0 0 0) by lia. reflexivity.
  - rewrite Eav. apply NumFacts.max_l.
  - rewrite Eact. apply NumFacts.min_l.
  - rewrite Eact. apply NumFacts.min_r.
Qed.

Lemma example_runs : run_m7_5b example_inputs = Ok (run_of (run_m7_5b example_inputs)).
Proof. vm_compute. reflexivity. Qed.

(** C3, counterexample.  The runner takes no buffer: on the example
    period a buffer of 10 would leave 20 available, the runner has 30. *)
Lemma honours_buffer_counterexample :
  ~ honours_buffer example_inputs (Num.of_Z 10).
Proof.
  intro H. specialize (H _ example_runs 0%nat).
  assert (L : (0 < List.length (months (run_of (run_m7_5b example_inputs))))%nat)
    by (vm_compute; lia).
  specialize (H L). apply (f_equal this) in H. vm_compute in H. discriminate H.
Qed.

(** C3, amended.  In every period of a run,
    [available = max(0, CFO - senior_debt_service - tax_paid)] (the rule
    of the spec at buffer 0; the runner has no buffer input),
    [actual_out = min(scheduled_out, available)] and the shortfall is
    [scheduled_out - actual_out]; so [available >= 0],
    [actual_out <= scheduled_out] and [actual_out <= available].  For
    CFO 100, senior debt service 60, tax paid 10 and 50 scheduled, 30 is
    available, 30 is paid and 20 falls short. *)
Theorem subordination_rule :
  (forall (inp : inputs) (o : outputs),
      run_m7_5b inp = Ok o ->
      forall i, (i < List.length (months o))%nat ->
        period_rule (nth i (CFO_NAD_000 o) 0) (nth i (senior_service o) 0)
                    (nth i (tax_paid o) 0) (nth i (JUN_OUT_SCHED_NAD_000 o) 0)
                    (nth i (available o) 0) (nth i (actual_out o) 0)
                    (nth i (unpaid o) 0) /\
        nth i (available o) 0 =
        spec_available (nth i (CFO_NAD_000 o) 0) (nth i (senior_service o) 0)
                       (nth i (tax_paid o) 0) 0) /\
  (column_of CFO_NAD_000 (run_m7_5b example_inputs) = [100 # 1]%Q /\
   column_of senior_service (run_m7_5b example_inputs) = [60 # 1]%Q /\
   column_of tax_paid (run_m7_5b example_inputs) = [10 # 1]%Q /\
   column_of JUN_OUT_SCHED_NAD_000 (run_m7_5b example_inputs) = [50 # 1]%Q /\
   column_of available (run_m7_5b example_inputs) = [30 # 1]%Q /\
   column_of actual_out (run_m7_5b example_inputs) = [30 # 1]%Q /\
   column_of unpaid (run_m7_5b example_inputs) = [20 # 1]%Q /\
   column_of Dividends_Payable_or_RevShare_Payable_NAD_000
             (run_m7_5b example_inputs) = [20 # 1]%Q).
Proof.
  split.
  - intros inp o H i Hi.
    pose proof (computed_period o i (run_computed inp o H) Hi) as P.
    split; [exact P|]. destruct P as (E & _). rewrite E.
    unfold spec_available. f_equal. ring.
  - repeat split; vm_compute; reflexivity.
Qed.

Lemma subordination_rule_witness :
  let o := run_of (run_m7_5b example_inputs) in
  period_rule (nth 0 (CFO_NAD_000 o) 0) (nth 0 (senior_service o) 0)
              (nth 0 (tax_paid o) 0) (nth 0 (JUN_OUT_SCHED_NAD_000 o) 0)
              (nth 0 (available o) 0) (nth 0 (actual_out o) 0)
              (nth 0 (unpaid o) 0) /\
  nth 0 (available o) 0 =
  spec_available (nth 0 (CFO_NAD_000 o) 0) (nth 0 (senior_service o) 0)
                 (nth 0 (tax_paid o) 0) 0.
Proof.
  apply (proj1 subordination_rule example_inputs _ example_runs 0%nat).
  vm_compute. lia.
Defined.

(** X7.  The junior financing cash effect of a period is
    [capital_in - actual_out]; the runner books no investing cash flow, so
    the net cash flow of the period is [CFO + 0 + CFF]. *)
Theorem junior_cash_effect (inp : inputs) (o : outputs) :
  run_m7_5b inp = Ok o ->
  forall i, (i < List.length (months o))%nat ->
    nth i (CFF_NAD_000 o) 0 = nth i (JUN_IN_NAD_000 o) 0 - nth i (actual_out o) 0 /\
    nth i (CFI_NAD_000 o) 0 = 0 /\
    nth i (NET_CF_NAD_000 o) 0
    = nth i (CFO_NAD_000 o) 0 + nth i (CFI_NAD_000 o) 0 + nth i (CFF_NAD_000 o) 0.
Proof.
  intros H i Hi. pose proof (run_computed inp o H) as C.
  assert (Lact : List.length (actual_out o) = List.length (months o)).
  { rewrite (c_actual_out o C), (c_available o C).
    unfold Np.minimum, Np.maximum_scalar, Np.sub.
    rewrite NpFacts.map2_length, length_map, !NpFacts.map2_length.
    destruct C. lia. }
  assert (Lcff : List.length (CFF_NAD_000 o) = List.length (months o)).
  { rewrite (c_cff o C). unfold Np.sub. rewrite NpFacts.map2_length.
    rewrite (c_len_in o C). lia. }
  assert (Lcfi : List.length (CFI_NAD_000 o) = List.length (months o)).
  { rewrite (c_cfi o C). apply NpFacts.zeros_length. }
  split; [|split].
  - rewrite (c_cff o C). unfold Np.sub.
    rewrite (NpFacts.map2_nth _ _ _ i 0 0 0); [reflexivity| |lia].
    rewrite (c_len_in o C). exact Hi.
  - rewrite (c_cfi o C). unfold Np.zeros. apply nth_repeat.
  - rewrite (c_net_cf o C) at 1. unfold Np.add.
    rewrite (NpFacts.map2_nth _ _ _ i 0 0 0).
    + rewrite (NpFacts.map2_nth _ _ _ i 0 0 0); [reflexivity| |lia].
      rewrite (c_len_cfo o C). exact Hi.
    + rewrite NpFacts.map2_length, (c_len_cfo o C). lia.
    + lia.
Qed.

Lemma junior_cash_effect_witness :
  let o := run_of (run_m7_5b example_inputs) in
  nth 0 (CFF_NAD_000 o) 0 = nth 0 (JUN_IN_NAD_000 o) 0 - nth 0 (actual_out o) 0 /\
  nth 0 (CFI_NAD_000 o) 0 = 0 /\
  nth 0 (NET_CF_NAD_000 o) 0
  = nth 0 (CFO_NAD_000 o) 0 + nth 0 (CFI_NAD_000 o) 0 + nth 0 (CFF_NAD_000 o) 0.
Proof.
  apply (junior_cash_effect example_inputs _ example_runs 0%nat).
  vm_compute. lia.
Defined.

(** *** The payable balance *)

Lemma unpaid_nonneg (o : outputs) :
  computed o -> Forall (fun x => 0 <= x) (unpaid o).
Proof.
  intro C. rewrite (c_unpaid o C), (c_actual_out o C).
  generalize (available o). generalize (JUN_OUT_SCHED_NAD_000 o).
  induction l as [|s l IH]; intros [|a av]; cbn; constructor.
  - pose proof (NumFacts.min_l s a) as M. unfold Num.min in M.
    set (x := if Num.ltb a s then a else s) in *. qc_lra.
  - apply IH.
Qed.

(** C4.  In every run the payable balance is the running sum of the
    shortfalls [scheduled_out - actual_out], period by period, and from
    each period to the next it does not decrease.  (No sign condition on
    the scheduled amounts is needed: a shortfall is never negative.) *)
Theorem payable_never_decreases (inp : inputs) (o : outputs) :
  run_m7_5b inp = Ok o ->
  Dividends_Payable_or_RevShare_Payable_NAD_000 o
  = Np.cumsum (Np.sub (JUN_OUT_SCHED_NAD_000 o) (actual_out o)) /\
  (forall i, (i < List.length (months o))%nat ->
     nth i (Dividends_Payable_or_RevShare_Payable_NAD_000 o) 0
     = total (firstn (S i) (Np.sub (JUN_OUT_SCHED_NAD_000 o) (actual_out o)))) /\
  (forall a b,
     consecutive (Dividends_Payable_or_RevShare_Payable_NAD_000 o) a b -> a <= b).
Proof.
  intro H. pose proof (run_computed inp o H) as C.
  pose proof (unpaid_nonneg o C) as N.
  rewrite (c_payable o C). split; [|split].
  - rewrite (c_unpaid o C). reflexivity.
  - intros i Hi. rewrite <- (c_unpaid o C). apply NpFacts.cumsum_nth.
    rewrite (c_unpaid o C), (c_actual_out o C).
    unfold Np.sub, Np.minimum. rewrite !NpFacts.map2_length.
    rewrite (c_available o C). unfold Np.maximum_scalar, Np.sub.
    rewrite length_map, !NpFacts.map2_length.
    destruct C. lia.
  - intros a b (i & Ha & Hb).
    exact (NpFacts.cumsum_from_mono (unpaid o) N 0 i a b Ha Hb).
Qed.

Lemma two_periods_run :
  run_m7_5b two_period_inputs = Ok (run_of (run_m7_5b two_period_inputs)).
Proof. vm_compute. reflexivity. Qed.

(** The surplus of the second period does not pay the payable down. *)
Example two_periods_payable :
  column_of Dividends_Payable_or_RevShare_Payable_NAD_000
            (run_m7_5b two_period_inputs) = [20 # 1; 20 # 1]%Q.
Proof. vm_compute. reflexivity. Qed.

Lemma payable_never_decreases_witness :
  let o := run_of (run_m7_5b two_period_inputs) in
  Dividends_Payable_or_RevShare_Payable_NAD_000 o
  = Np.cumsum (Np.sub (JUN_OUT_SCHED_NAD_000 o) (actual_out o)) /\
  (forall i, (i < List.length (months o))%nat ->
     nth i (Dividends_Payable_or_RevShare_Payable_NAD_000 o) 0
     = total (firstn (S i) (Np.sub (JUN_OUT_SCHED_NAD_000 o) (actual_out o)))) /\
  (forall a b,
     consecutive (Dividends_Payable_or_RevShare_Payable_NAD_000 o) a b -> a <= b).
Proof.
  exact (payable_never_decreases two_period_inputs _ two_periods_run).
Defined.

(** *** The balance-sheet identity *)

Lemma sub_self_zero (xs : list Qc) :
  Forall (fun x => x = 0) (map Num.abs (Np.sub xs xs)).
Proof.
  induction xs as [|x xs IH]; cbn; constructor; auto.
  replace (x - x) with 0 by ring. reflexivity.
Qed.

(** C10.  In every run the emitted [Liabilities_And_Equity_Total] column
    is the [Assets_Total] column itself, so in every period
    [|assets_total - liabilities_and_equity_total| <= 1e-6] (it is 0), and
    the runner's own tie figure is 0; nothing is asked of the liability,
    equity and payable columns. *)
Theorem balance_sheet_ties_by_construction (inp : inputs) (o : outputs) :
  run_m7_5b inp = Ok o ->
  Liabilities_And_Equity_Total_NAD_000 o = Assets_Total_NAD_000 o /\
  (forall i a l,
     nth_error (Assets_Total_NAD_000 o) i = Some a ->
     nth_error (Liabilities_And_Equity_Total_NAD_000 o) i = Some l ->
     Num.abs (a - l) <= Num.tol) /\
  identity_check_max_abs_diff o = Some 0.
Proof.
  intro H. pose proof (run_computed inp o H) as C.
  pose proof (c_le_total o C) as E. split; [exact E|]. split.
  - intros i a l Ha Hl. rewrite E, Ha in Hl. injection Hl as <-.
    replace (a - a) with 0 by ring. exact NumFacts.tol_pos.
  - unfold identity_check_max_abs_diff. rewrite E.
    pose proof (sub_self_zero (Assets_Total_NAD_000 o)) as Z.
    assert (L : List.length (map Num.abs (Np.sub (Assets_Total_NAD_000 o)
                                                (Assets_Total_NAD_000 o)))
                = List.length (months o)).
    { rewrite length_map. unfold Np.sub. rewrite NpFacts.map2_length.
      rewrite (c_len_assets o C). lia. }
    assert (M : months o <> []).
    { unfold run_m7_5b in H.
      destruct (df_j inp) as [|j0 js]; [discriminate|].
      destruct (df_m5 inp) as [|c0 cs]; [discriminate|].
      destruct (df_m6 inp) as [|r6 rs6] eqn:E6; [discriminate|].
      cbn [map] in H. clear -H.
      assert (S : sorted_unique (m6_Month_Index r6 :: map m6_Month_Index rs6) <> []).
      { unfold sorted_unique. cbn [fold_right].
        destruct (fold_right insert_unique [] (map m6_Month_Index rs6)) as [|k ks];
          cbn; [discriminate|].
        destruct (_ <? _)%Z; [discriminate|]. destruct (_ =? _)%Z; discriminate. }
      destruct (df_fx inp) as [|f0 fs]; [discriminate|].
      repeat (apply bind_Ok in H as (? & _ & H)).
      destruct (String.eqb _ _);
        apply bind_Ok in H as (? & _ & H); injection H as <-; exact S. }
    destruct (map Num.abs _) as [|d ds] eqn:D.
    + cbn in L. destruct (months o); [contradiction|discriminate].
    + inversion Z as [|? ? Hd Hds]; subst.
      unfold Check.series_max. rewrite (fold_max_zero _ Hds). reflexivity.
Qed.

(** Liability, equity and payable columns that do not add up to the
    total leave the identity untouched. *)
Example two_periods_balance_sheet :
  column_of Assets_Total_NAD_000 (run_m7_5b two_period_inputs)
    = [9970 # 1; 10020 # 1]%Q /\
  column_of Liabilities_And_Equity_Total_NAD_000 (run_m7_5b two_period_inputs)
    = [9970 # 1; 10020 # 1]%Q /\
  column_of Junior_Note_Liability_NAD_000 (run_m7_5b two_period_inputs)
    = [0; 0]%Q /\
  column_of Contributed_Equity_Junior_NAD_000 (run_m7_5b two_period_inputs)
    = [8950 # 1; 8900 # 1]%Q /\
  column_of Dividends_Payable_or_RevShare_Payable_NAD_000 (run_m7_5b two_period_inputs)
    = [20 # 1; 20 # 1]%Q.
Proof. repeat split; vm_compute; reflexivity. Qed.

Lemma balance_sheet_ties_by_construction_witness :
  let o := run_of (run_m7_5b two_period_inputs) in
  Liabilities_And_Equity_Total_NAD_000 o = Assets_Total_NAD_000 o /\
  (forall i a l,
     nth_error (Assets_Total_NAD_000 o) i = Some a ->
     nth_error (Liabilities_And_Equity_Total_NAD_000 o) i = Some l ->
     Num.abs (a - l) <= Num.tol) /\
  identity_check_max_abs_diff o = Some 0.
Proof.
  exact (balance_sheet_ties_by_construction two_period_inputs _ two_periods_run).
Defined.

End Waterfall.

(* ===================================================================== *)
(** * Further properties *)
(* ===================================================================== *)

(** ** The loan schedule outside its windows *)

Lemma in_window_outside (t : loan_terms) m :
  (m < amort_start t \/ tenor t < m)%Z -> in_window t m = false.
Proof.
  intro H. unfold in_window.
  destruct (Z.leb_spec (amort_start t) m); destruct (Z.leb_spec m (tenor t));
    try lia; rewrite ?andb_false_r; reflexivity.
Qed.

(** X8.  Before the amortization window opens and after the tenor no
    principal is repaid, whatever the policy; after the tenor a row draws
    nothing, accrues no interest and closes at its opening balance. *)
Theorem no_repayment_outside_window (row : series) (cal : calendar)
    (sched : list sched_row) (h : Z) (t : loan_terms) :
  calendar_horizon cal = Ok h ->
  loan_inputs row h = Ok t ->
  create_loan_schedule row cal = Ok sched ->
  Forall (quiet_outside t) sched.
Proof.
  intros Hh Ht Hc. pose proof (loan_inputs_well_formed _ _ _ Ht) as wf.
  rewrite (create_loan_schedule_eq _ _ _ _ Hh Ht) in Hc.
  apply loan_loop_trace in Hc.
  eapply trace_Forall; [|exact Hc]. intros m st r st' Hstep.
  apply loan_step_inv in Hstep as (repay & st1 & E & -> & _).
  unfold quiet_outside. cbn. split.
  - intro Out. rewrite (in_window_outside t m Out) in E.
    injection E as <- _. reflexivity.
  - intro Out. rewrite (in_window_outside t m (or_intror Out)) in E.
    injection E as <- _.
    assert (D : draw_at t m = 0).
    { apply draw_at_after. destruct wf. lia. }
    assert (I : interest_on t m (closing_prev st) = 0).
    { unfold interest_on. destruct (Z.leb_spec m (tenor t)); [lia|].
      rewrite andb_false_r. reflexivity. }
    rewrite D, I. repeat split; try reflexivity. ring.
Qed.

Lemma no_repayment_outside_window_witness :
  exists sched,
    create_loan_schedule (example_loan "straight") calendar_60 = Ok sched /\
    Forall (quiet_outside (example_terms "straight")) sched.
Proof.
  destruct (create_loan_schedule (example_loan "straight") calendar_60)
    as [sched|e] eqn:E.
  - exists sched. split; [reflexivity|].
    apply (no_repayment_outside_window (example_loan "straight") calendar_60 sched 60
             (example_terms "straight")).
    + reflexivity.
    + vm_compute. reflexivity.
    + exact E.
  - vm_compute in E. discriminate E.
Defined.

(** ** What a schedule draws *)

Lemma loan_inputs_draw_end row h t :
  loan_inputs row h = Ok t -> (draw_end t <= Z.max 0 h)%Z.
Proof.
  unfold loan_inputs. intro H.
  repeat (apply bind_Ok in H as [? [_ H]]). injection H as <-.
  cbn. lia.
Qed.

Lemma months_from_app (m : Z) (a b : nat) :
  months_from m (a + b) = (months_from m a ++ months_from (m + Z.of_nat a) b)%list.
Proof.
  revert m. induction a as [|a IH]; intro m.
  - cbn [Nat.add]. unfold months_from at 2. cbn. f_equal. lia.
  - cbn [Nat.add]. rewrite !months_from_S, IH. cbn. do 3 f_equal. lia.
Qed.

Lemma total_app (xs ys : list Qc) :
  WaterfallSpec.total (xs ++ ys) = WaterfallSpec.total xs + WaterfallSpec.total ys.
Proof.
  unfold WaterfallSpec.total.
  induction xs as [|x xs IH]; cbn [app fold_right].
  - ring.
  - rewrite IH. ring.
Qed.

Lemma total_map_const {A : Type} (f : A -> Qc) (c : Qc) (l : list A) :
  (forall x, In x l -> f x = c) ->
  WaterfallSpec.total (map f l) = Num.of_Z (Z.of_nat (List.length l)) * c.
Proof.
  unfold WaterfallSpec.total.
  induction l as [|x l IH]; intro H.
  - cbn [map fold_right List.length]. change (Z.of_nat 0) with 0%Z.
    replace (Num.of_Z 0) with 0 by (apply Qc_is_canon; reflexivity). ring.
  - cbn [map fold_right List.length].
    rewrite IH by (intros y Hy; apply H; right; exact Hy).
    rewrite (H x (or_introl eq_refl)).
    rewrite Nat2Z.inj_succ. unfold Z.succ. rewrite of_Z_succ. ring.
Qed.

Lemma months_from_In (m0 : Z) (n : nat) (m : Z) :
  In m (months_from m0 n) <-> (m0 <= m < m0 + Z.of_nat n)%Z.
Proof.
  unfold months_from. rewrite in_map_iff. split.
  - intros (i & <- & Hi). apply in_seq in Hi. lia.
  - intro H. exists (Z.to_nat (m - m0)). split; [lia|]. apply in_seq. lia.
Qed.

Lemma months_from_length (m0 : Z) (n : nat) : List.length (months_from m0 n) = n.
Proof. unfold months_from. rewrite length_map, length_seq. reflexivity. Qed.

Lemma trace_draws (t : loan_terms) m st rows :
  trace t m st rows ->
  map Drawdown rows = map (draw_at t) (months_from m (List.length rows)).
Proof.
  induction 1 as [|m st r st' rows Hs _ IH].
  - reflexivity.
  - cbn [List.length]. rewrite months_from_S. cbn [map]. f_equal; [|exact IH].
    apply loan_step_inv in Hs as (repay & st1 & _ & -> & _). reflexivity.
Qed.

(** What the draw window hands out over the months 1 to [h]. *)
Lemma draws_sum (t : loan_terms) (h : Z) :
  well_formed t -> (draw_end t <= Z.max 0 h)%Z ->
  WaterfallSpec.total (map (draw_at t) (months_from 1 (Z.to_nat h)))
  = if (draw_start t <=? draw_end t)%Z then principal t else 0.
Proof.
  intros wf He. destruct wf as [_ Hs _ _].
  destruct (Z.leb_spec (draw_start t) (draw_end t)) as [L|G].
  - set (s := draw_start t) in *. set (e := draw_end t) in *.
    assert (Hn : Z.to_nat h
                 = (Z.to_nat (s - 1) + (Z.to_nat (e - s + 1) + Z.to_nat (h - e)))%nat) by lia.
    rewrite Hn, !months_from_app, !map_app, !total_app.
    assert (Dm : draw_months t = (e - s + 1)%Z).
    { unfold draw_months. fold s e. destruct (Z.leb_spec s e); lia. }
    assert (Z1 : WaterfallSpec.total (map (draw_at t) (months_from 1 (Z.to_nat (s - 1))))
                 = Num.of_Z (Z.of_nat (Z.to_nat (s - 1))) * 0).
    { rewrite <- (months_from_length 1 (Z.to_nat (s - 1))) at 2.
      apply total_map_const. intros m Hm. apply months_from_In in Hm.
      unfold draw_at. fold s e. destruct (Z.leb_spec s m); [lia|].
      rewrite andb_false_r. reflexivity. }
    assert (Z3 : WaterfallSpec.total
                   (map (draw_at t)
                        (months_from (1 + Z.of_nat (Z.to_nat (s - 1))
                                      + Z.of_nat (Z.to_nat (e - s + 1)))
                                     (Z.to_nat (h - e))))
                 = Num.of_Z (Z.of_nat (Z.to_nat (h - e))) * 0).
    { rewrite <- (months_from_length
                    (1 + Z.of_nat (Z.to_nat (s - 1)) + Z.of_nat (Z.to_nat (e - s + 1)))
                    (Z.to_nat (h - e))) at 2.
      apply total_map_const. intros m Hm. apply months_from_In in Hm.
      unfold draw_at. fold s e. destruct (Z.leb_spec m e); [lia|].
      rewrite !andb_false_r. reflexivity. }
    assert (Z2 : WaterfallSpec.total
                   (map (draw_at t)
                        (months_from (1 + Z.of_nat (Z.to_nat (s - 1)))
                                     (Z.to_nat (e - s + 1))))
                 = Num.of_Z (Z.of_nat (Z.to_nat (e - s + 1))) * monthly_draw t).
    { rewrite <- (months_from_length (1 + Z.of_nat (Z.to_nat (s - 1)))
                    (Z.to_nat (e - s + 1))) at 2.
      apply total_map_const. intros m Hm. apply months_from_In in Hm.
      unfold draw_at. rewrite Dm. fold s e.
      destruct (Z.ltb_spec 0 (e - s + 1)); [|lia].
      destruct (Z.leb_spec s m); [|lia]. destruct (Z.leb_spec m e); [|lia].
      reflexivity. }
    rewrite Z1, Z2, Z3. unfold monthly_draw. rewrite Dm.
    destruct (Z.ltb_spec 0 (e - s + 1)); [|lia].
    rewrite (Z2Nat.id (e - s + 1)) by lia.
    pose proof (of_Z_pos (e - s + 1) ltac:(lia)) as Np.
    assert (Hne : Num.of_Z (e - s + 1) <> 0) by (intro Z0; rewrite Z0 in Np; qc_lra).
    field. exact Hne.
  - assert (Dz : forall m, draw_at t m = 0).
    { intro m. unfold draw_at, draw_months.
      destruct (Z.leb_spec (draw_start t) (draw_end t)); [lia|]. reflexivity. }
    rewrite (total_map_const (draw_at t) 0) by (intros; apply Dz). ring.
Qed.

(** X9.  In the exact arithmetic of the number model, the draws of a
    schedule add up to the principal when the draw
    window is not empty (the draw start is not after the draw end, as
    clamped to the tenor and the horizon); with an empty window nothing is
    drawn at all. *)
Theorem draws_add_up_to_principal (row : series) (cal : calendar)
    (sched : list sched_row) (h : Z) (t : loan_terms) :
  calendar_horizon cal = Ok h ->
  loan_inputs row h = Ok t ->
  create_loan_schedule row cal = Ok sched ->
  WaterfallSpec.total (map Drawdown sched)
  = if (draw_start t <=? draw_end t)%Z then principal t else 0.
Proof.
  intros Hh Ht Hc. pose proof (loan_inputs_well_formed _ _ _ Ht) as wf.
  pose proof (loan_inputs_draw_end _ _ _ Ht) as He.
  rewrite (create_loan_schedule_eq _ _ _ _ Hh Ht) in Hc.
  pose proof (loan_loop_length _ _ _ _ Hc) as Len.
  rewrite months_from_length in Len.
  apply loan_loop_trace in Hc. rewrite (trace_draws _ _ _ _ Hc), Len.
  exact (draws_sum t h wf He).
Qed.

Lemma draws_add_up_to_principal_witness :
  exists sched,
    create_loan_schedule (example_loan "straight") calendar_60 = Ok sched /\
    WaterfallSpec.total (map Drawdown sched) = Num.of_Z 12000.
Proof.
  destruct (create_loan_schedule (example_loan "straight") calendar_60)
    as [sched|e] eqn:E.
  - exists sched. split; [reflexivity|].
    apply (draws_add_up_to_principal (example_loan "straight") calendar_60 sched 60
             (example_terms "straight")).
    + reflexivity.
    + vm_compute. reflexivity.
    + exact E.
  - vm_compute in E. discriminate E.
Defined.

(** ** The annuity payment, exactly *)

Section ExactAnnuity.

Variable r : Qc.
Hypothesis growth : 1 + r <> 0.

Lemma pvf_next (j : nat) : (1 + r) * pvf (1 + r) (S j) = pvf (1 + r) j + 1.
Proof. cbn [pvf]. field. exact growth. Qed.

Lemma power_nonzero (j : nat) : (1 + r) ^ j <> 0.
Proof.
  induction j as [|j IH]; cbn [Qcpower].
  - exact Q_apart_0_1.
  - intro Z0. apply Qcmult_integral in Z0 as [Z0|Z0]; [exact (growth Z0)|exact (IH Z0)].
Qed.

Lemma pvf_discount (j : nat) : r * pvf (1 + r) j = 1 - / ((1 + r) ^ j).
Proof.
  induction j as [|j IH].
  - cbn [pvf Qcpower]. field. exact Q_apart_0_1.
  - cbn [Qcpower]. pose proof (power_nonzero j) as Hp.
    assert (IH' : / ((1 + r) ^ j) = 1 - r * pvf (1 + r) j) by (rewrite IH; ring).
    rewrite Qcinv_mult_distr, IH'. cbn [pvf]. field. exact growth.
Qed.

Lemma outstanding_pvf (pmt : Qc) (j : nat) :
  outstanding r pmt (pmt * pvf (1 + r) j) j = 0.
Proof.
  induction j as [|j IH].
  - cbn [outstanding pvf]. ring.
  - cbn [outstanding].
    replace (pmt * pvf (1 + r) (S j) * (1 + r) - pmt) with (pmt * pvf (1 + r) j).
    + exact IH.
    + pose proof (pvf_next j) as E. set (X := pvf (1 + r) (S j)) in *.
      set (Y := pvf (1 + r) j) in *.
      replace (pmt * X * (1 + r) - pmt) with (pmt * ((1 + r) * X) - pmt) by ring.
      rewrite E. ring.
Qed.

End ExactAnnuity.

Lemma pvf_unit (j : nat) : pvf (1 + 0) j = Num.of_Z (Z.of_nat j).
Proof.
  induction j as [|j IH].
  - cbn [pvf]. apply Qc_is_canon. reflexivity.
  - cbn [pvf]. rewrite IH, Nat2Z.inj_succ. unfold Z.succ. rewrite of_Z_succ.
    field. replace (1 + 0) with 1 by ring. exact Q_apart_0_1.
Qed.


(** Where the formula is exact, the payment it returns is worth the
    balance: [pmt * pvf = pv]. *)
Lemma annuity_payment_exact (pv r : Qc) (n : Z) (pmt : Qc) :
  (1 <= n)%Z -> exact_rate r ->
  _annuity_payment pv r n = Ok pmt ->
  1 + r <> 0 /\ pmt * pvf (1 + r) (Z.to_nat n) = pv.
Proof.
  intros Hn Hr. unfold _annuity_payment.
  destruct (Z.leb_spec n 0) as [L|_]; [lia|].
  pose proof (of_Z_pos n ltac:(lia)) as Np.
  assert (Hne : Num.of_Z n <> 0) by (intro Z0; rewrite Z0 in Np; qc_lra).
  destruct (Num.ltb (Num.abs r) Num.tiny) eqn:Ht.
  - apply NumFacts.ltb_lt in Ht. destruct Hr as [->|Hr]; [|qc_lra].
    intro E. injection E as <-. split.
    + replace (1 + 0) with 1 by ring. exact Q_apart_0_1.
    + rewrite pvf_unit, Z2Nat.id by lia. field. exact Hne.
  - destruct (Num.eqb (1 + r) 0) eqn:Hb; [discriminate|].
    apply NumFacts.eqb_neq in Hb.
    rewrite <- (pvf_discount r Hb).
    destruct (Num.eqb (r * pvf (1 + r) (Z.to_nat n)) 0) eqn:Hd; [discriminate|].
    apply NumFacts.eqb_neq in Hd. intro E. injection E as <-.
    split; [exact Hb|].
    assert (Hside : pvf (1 + r) (Z.to_nat n) <> 0 /\ r <> 0).
    { split; intro Z0; apply Hd; rewrite Z0; ring. }
    field. exact Hside.
Qed.

(** X11.  In the exact arithmetic of the number model, the payment
    [_annuity_payment] returns for [n >= 1] periods, at
    a rate that is 0 or at least 1e-12 in absolute value, amortizes the
    principal exactly: adding the interest and paying it [n] times leaves
    a balance of 0. *)
Theorem annuity_payment_amortises (pv r : Qc) (n : Z) (pmt : Qc) :
  (1 <= n)%Z -> exact_rate r ->
  _annuity_payment pv r n = Ok pmt ->
  outstanding r pmt pv (Z.to_nat n) = 0.
Proof.
  intros Hn Hr E.
  destruct (annuity_payment_exact pv r n pmt Hn Hr E) as (Hq & Hv).
  rewrite <- Hv at 1. apply outstanding_pvf. exact Hq.
Qed.

Lemma annuity_payment_amortises_witness :
  exists pmt,
    _annuity_payment (Num.of_Z 12000) (Num.frac 1 100) 12 = Ok pmt /\
    outstanding (Num.frac 1 100) pmt (Num.of_Z 12000) 12 = 0.
Proof.
  destruct (_annuity_payment (Num.of_Z 12000) (Num.frac 1 100) 12) as [pmt|e] eqn:E.
  - exists pmt. split; [reflexivity|].
    apply (annuity_payment_amortises (Num.of_Z 12000) (Num.frac 1 100) 12 pmt).
    + lia.
    + right. apply NumFacts.leb_le. reflexivity.
    + exact E.
  - vm_compute in E. discriminate E.
Defined.

(** ** The level payment of an annuity *)

Section LevelPayment.

Variable t : loan_terms.
Hypothesis wf : well_formed t.
Hypothesis principal_nonneg : 0 <= principal t.
Hypothesis rate_nonneg : 0 <= rate_pct t.
Hypothesis rate_exact : exact_rate (r_m t).
Hypothesis annuity : uses_annuity t = true.




End LevelPayment.




(** ** Loans that are never drawn *)







(** ** Bounds on the balances *)


Section Bounded.

Variable t : loan_terms.
Hypothesis wf : well_formed t.
Hypothesis principal_nonneg : 0 <= principal t.
Hypothesis rate_nonneg : 0 <= rate_pct t.



End Bounded.



(** ** The rate of -100% a month *)





(** ** The dispatcher *)

Lemma forallb_false {A : Type} (f : A -> bool) (l : list A) (x : A) :
  In x l -> f x = false -> forallb f l = false.
Proof.
  intros Hin Hf. destruct (forallb f l) eqn:E; [|reflexivity].
  rewrite forallb_forall in E. rewrite (E x Hin) in Hf. discriminate Hf.
Qed.

(** X14.  The schema guard: when the catalog lacks one of the eighteen
    required columns, or the selector lacks its [Key] or [Value] column,
    [create_financing_schedules] raises a [KeyError], whatever the rows
    and the calendar are. *)
Theorem missing_column_raises_KeyError (stack sel : dataframe) (cal : calendar) :
  (exists c, In c req_cols /\ has_column stack c = false) \/
  has_column sel "Key" = false \/ has_column sel "Value" = false ->
  raises_named "KeyError" (create_financing_schedules stack sel cal).
Proof.
  intro H. unfold create_financing_schedules, raises_named.
  destruct (forallb (has_column stack) req_cols) eqn:F; cbn [negb]; [|eauto].
  destruct H as [(c & Hin & Hc)|H].
  - rewrite (forallb_false _ _ c Hin Hc) in F. discriminate F.
  - destruct H as [-> | ->]; cbn [negb orb]; [eauto|].
    rewrite orb_true_r. eauto.
Qed.

Lemma missing_column_raises_KeyError_witness :
  raises_named "KeyError"
    (create_financing_schedules {| columns := ["Case_Name"; "Line_ID"]; records := [] |}
       (selector_of "CaseX") calendar_60).
Proof.
  apply missing_column_raises_KeyError. left. exists "Active". split.
  - unfold req_cols. cbn. tauto.
  - reflexivity.
Defined.

Lemma create_financing_schedules_inv (stack sel : dataframe) (cal : calendar)
    (a : m3_artifacts) :
  create_financing_schedules stack sel cal = Ok a ->
  exists case tables,
    selected_case sel = Some case /\
    dispatch_rows (active_rows stack case) cal = Ok tables /\
    a = {| revolver := fst tables; insurance := snd tables;
           index := map (fun r => map (fun c => (c, cell r c)) index_cols)
                        (active_rows stack case) |}.
Proof.
  unfold create_financing_schedules, selected_case, active_rows.
  destruct (negb _); [discriminate|].
  destruct (_ || _)%bool; [discriminate|].
  destruct (filter _ (records sel)) as [|first rest]; [discriminate|].
  intro H. apply bind_Ok in H as (tables & Hd & H). injection H as <-.
  eauto.
Qed.

Lemma index_cell (r : series) (name : string) :
  In name index_cols ->
  cell (map (fun c => (c, cell r c)) index_cols) name = cell r name.
Proof.
  unfold index_cols. cbn [In]. intros [<-|[<-|[<-|[<-|[<-|[<-|[]]]]]]]; reflexivity.
Qed.

(** X15.  The index a call returns lists the active rows of the selected
    case and nothing else: its [Line_ID]s are those of the catalog rows
    with [Active == 1] whose [Case_Name] is the text of the selector's
    first [PFinance_Case] value, in the catalog's order, and every index
    row carries that case name. *)
Theorem index_lists_selected_case (stack sel : dataframe) (cal : calendar)
    (a : m3_artifacts) :
  create_financing_schedules stack sel cal = Ok a ->
  exists case,
    selected_case sel = Some case /\
    map (fun ir => cell ir "Line_ID") (index a)
    = map (fun r => cell r "Line_ID") (active_rows stack case) /\
    Forall (fun ir => py_eq (cell ir "Case_Name") (PyStr case) = true) (index a).
Proof.
  intro H. apply create_financing_schedules_inv in H as (case & tables & Hs & _ & ->).
  exists case. split; [exact Hs|]. cbn [index]. split.
  - rewrite map_map. apply map_ext. intro r. apply index_cell.
    unfold index_cols. cbn. tauto.
  - apply Forall_map. apply Forall_forall. intros r Hr.
    rewrite index_cell by (unfold index_cols; cbn; tauto).
    unfold active_rows in Hr. apply filter_In in Hr as (_ & Hr).
    apply andb_true_iff in Hr as (Hr & _). exact Hr.
Qed.

Lemma mixed_stack_runs :
  create_financing_schedules mixed_stack (selector_of "CaseX") calendar_60
  = Ok (artifacts_of (create_financing_schedules mixed_stack (selector_of "CaseX")
                        calendar_60)).
Proof. vm_compute. reflexivity. Qed.

Lemma index_lists_selected_case_witness :
  exists case,
    selected_case (selector_of "CaseX") = Some case /\
    map (fun ir => cell ir "Line_ID")
        (index (artifacts_of (create_financing_schedules mixed_stack
                                (selector_of "CaseX") calendar_60)))
    = map (fun r => cell r "Line_ID") (active_rows mixed_stack case) /\
    Forall (fun ir => py_eq (cell ir "Case_Name") (PyStr case) = true)
      (index (artifacts_of (create_financing_schedules mixed_stack
                              (selector_of "CaseX") calendar_60))).
Proof.
  exact (index_lists_selected_case mixed_stack (selector_of "CaseX") calendar_60 _
           mixed_stack_runs).
Defined.

Lemma revolver_length (r : series) (cal : calendar) (s : list Revolver.row) :
  Revolver._create_revolver_schedule r cal = Ok s -> List.length s = List.length cal.
Proof.
  unfold Revolver._create_revolver_schedule. intro H.
  repeat (apply bind_Ok in H as (? & _ & H)). injection H as <-. apply length_map.
Qed.

Lemma insurance_length (r : series) (cal : calendar) (s : list Insurance.row) (h : Z) :
  Insurance._create_insurance_schedule r cal = Ok s ->
  calendar_horizon cal = Ok h -> List.length s = Z.to_nat h.
Proof.
  unfold Insurance._create_insurance_schedule. intros H Hh. rewrite Hh in H.
  cbn [bind] in H.
  repeat (apply bind_Ok in H as (? & _ & H)). injection H as <-.
  rewrite length_map. unfold month_range. rewrite length_map, length_seq. reflexivity.
Qed.

(** What the loop over the rows has done when it returns. *)
Lemma dispatch_rows_inv (cal : calendar) (rows : list series) :
  forall tables, dispatch_rows rows cal = Ok tables ->
    List.length (fst tables) = (count is_revolver rows * List.length cal)%nat /\
    (forall h, calendar_horizon cal = Ok h ->
       List.length (snd tables) = (count is_insurance rows * Z.to_nat h)%nat) /\
    Forall (fun r => is_loan r = true -> returns (create_loan_schedule r cal)) rows.
Proof.
  induction rows as [|r rows IH]; intros tables H; cbn [dispatch_rows] in H.
  - injection H as <-. cbn. repeat split; auto.
  - apply bind_Ok in H as (ins & Hi & H).
    apply bind_Ok in H as (here & Hh & H).
    apply bind_Ok in H as (rest & Hr & H). injection H as <-.
    destruct (IH rest Hr) as (L1 & L2 & L3). cbn [fst snd].
    unfold count, is_revolver, is_insurance, is_loan, flagged in *.
    cbn [filter]. rewrite Hi.
    destruct ins.
    + apply bind_Ok in Hh as (s & Hs & Hh). injection Hh as <-.
      cbn [negb andb fst snd app]. repeat split.
      * exact L1.
      * intros h Hc. rewrite length_app, (insurance_length _ _ _ _ Hs Hc), (L2 h Hc).
        cbn [List.length]. lia.
      * constructor; [cbn beta; rewrite Hi; discriminate|exact L3].
    + apply bind_Ok in Hh as (rev & Hv & Hh). rewrite Hv. destruct rev.
      * apply bind_Ok in Hh as (s & Hs & Hh). injection Hh as <-.
        cbn [negb andb fst snd app]. repeat split.
        -- rewrite length_app, (revolver_length _ _ _ Hs), L1. cbn [List.length]. lia.
        -- exact L2.
        -- constructor; [cbn beta; rewrite Hi, Hv; discriminate|exact L3].
      * apply bind_Ok in Hh as (s & Hs & Hh). injection Hh as <-.
        cbn [negb andb fst snd app]. repeat split.
        -- exact L1.
        -- exact L2.
        -- constructor; [intros _; exists s; exact Hs|exact L3].
Qed.

(** X16.  The sizes of the three tables: the index has one row per
    active row of the selected case; the revolver table has one row per
    calendar row for each revolving line that is not an insurance line
    (the insurance flag is tested first); the insurance table has
    [horizon] rows for each insurance line. *)
Theorem table_sizes (stack sel : dataframe) (cal : calendar) (a : m3_artifacts) :
  create_financing_schedules stack sel cal = Ok a ->
  exists case,
    selected_case sel = Some case /\
    List.length (index a) = List.length (active_rows stack case) /\
    List.length (revolver a)
    = (count is_revolver (active_rows stack case) * List.length cal)%nat /\
    (forall h, calendar_horizon cal = Ok h ->
       List.length (insurance a)
       = (count is_insurance (active_rows stack case) * Z.to_nat h)%nat).
Proof.
  intro H. apply create_financing_schedules_inv in H as (case & tables & Hs & Hd & ->).
  exists case. split; [exact Hs|].
  destruct (dispatch_rows_inv cal _ tables Hd) as (L1 & L2 & _).
  cbn [index revolver insurance]. rewrite length_map. auto.
Qed.

Lemma table_sizes_witness :
  exists case,
    selected_case (selector_of "CaseX") = Some case /\
    List.length (index (artifacts_of (create_financing_schedules mixed_stack
                                        (selector_of "CaseX") calendar_60)))
    = List.length (active_rows mixed_stack case) /\
    List.length (revolver (artifacts_of (create_financing_schedules mixed_stack
                                           (selector_of "CaseX") calendar_60)))
    = (count is_revolver (active_rows mixed_stack case) * List.length calendar_60)%nat /\
    (forall h, calendar_horizon calendar_60 = Ok h ->
       List.length (insurance (artifacts_of (create_financing_schedules mixed_stack
                                               (selector_of "CaseX") calendar_60)))
       = (count is_insurance (active_rows mixed_stack case) * Z.to_nat h)%nat).
Proof.
  exact (table_sizes mixed_stack (selector_of "CaseX") calendar_60 _ mixed_stack_runs).
Defined.

(** X18.  The schedule of a standard loan is dropped but not skipped: a
    call that returns has computed the schedule of every active row of the
    case that is neither insurance nor revolving, so an error in any of
    them aborts the call. *)
Theorem loans_are_computed (stack sel : dataframe) (cal : calendar) (a : m3_artifacts) :
  create_financing_schedules stack sel cal = Ok a ->
  exists case,
    selected_case sel = Some case /\
    Forall (fun r => is_loan r = true -> returns (create_loan_schedule r cal))
           (active_rows stack case).
Proof.
  intro H. apply create_financing_schedules_inv in H as (case & tables & Hs & Hd & _).
  exists case. split; [exact Hs|].
  exact (proj2 (proj2 (dispatch_rows_inv cal _ tables Hd))).
Qed.

Lemma loans_are_computed_witness :
  exists case,
    selected_case (selector_of "CaseX") = Some case /\
    Forall (fun r => is_loan r = true -> returns (create_loan_schedule r calendar_60))
           (active_rows mixed_stack case).
Proof.
  exact (loans_are_computed mixed_stack (selector_of "CaseX") calendar_60 _
           mixed_stack_runs).
Defined.

(** X19.  A selector that names a case with no active row is no error:
    the call returns three empty tables, whatever the calendar holds. *)
Theorem unmatched_case_returns_empty (stack sel : dataframe) (cal : calendar)
    (case : string) :
  forallb (has_column stack) req_cols = true ->
  has_column sel "Key" = true -> has_column sel "Value" = true ->
  selected_case sel = Some case ->
  active_rows stack case = [] ->
  create_financing_schedules stack sel cal
  = Ok {| revolver := []; insurance := []; index := [] |}.
Proof.
  intros Hc Hk Hv Hs Ha. unfold create_financing_schedules.
  rewrite Hc, Hk, Hv. cbn [negb orb].
  unfold selected_case in Hs. unfold active_rows in Ha.
  destruct (filter _ (records sel)) as [|first rest]; [discriminate|].
  injection Hs as <-. rewrite Ha. reflexivity.
Qed.

Lemma unmatched_case_returns_empty_witness :
  create_financing_schedules mixed_stack (selector_of "CaseZ") []
  = Ok {| revolver := []; insurance := []; index := [] |}.
Proof.
  apply (unmatched_case_returns_empty mixed_stack (selector_of "CaseZ") [] "CaseZ");
    reflexivity.
Defined.

(** X17.  Every schedule [_create_insurance_schedule] returns has the
    months 1 to the calendar's largest [Month_Index] (not the calendar's
    own rows), the line's identifier, and 0 for premium, expense and both
    prepaid balances, whatever principal and premium rate the line has. *)
Theorem insurance_schedule_is_zero (r : series) (cal : calendar)
    (sched : list Insurance.row) :
  Insurance._create_insurance_schedule r cal = Ok sched ->
  exists h line,
    calendar_horizon cal = Ok h /\ item_int r "Line_ID" = Ok line /\
    map Insurance.Month_Index sched = month_range h /\
    Forall (insurance_row_ok line) sched.
Proof.
  unfold Insurance._create_insurance_schedule. intro H.
  apply bind_Ok in H as (h & Hh & H). apply bind_Ok in H as (v & Hv & H).
  apply bind_Ok in H as (line & Hl & H). apply bind_Ok in H as (vc & Hc & H).
  injection H as <-. exists h, line. unfold item_int. rewrite Hv. cbn [bind].
  repeat split; auto.
  - rewrite map_map. cbn. apply map_id.
  - apply Forall_map. apply Forall_forall. intros m _.
    unfold insurance_row_ok. cbn. repeat split; reflexivity.
Qed.

Lemma insurance_schedule_is_zero_witness :
  exists h line,
    calendar_horizon [3; 1]%Z = Ok h /\
    item_int (stack_row "CaseX" 3 0 1) "Line_ID" = Ok line /\
    map Insurance.Month_Index
        (map (fun m => {| Insurance.Month_Index := m; Insurance.Line_ID := 3;
                          Insurance.Currency := "NAD";
                          Insurance.Premium_Cash_Outflow := 0;
                          Insurance.Expense_Recognized := 0;
                          Insurance.Prepaid_BOP := 0; Insurance.Prepaid_EOP := 0 |})
             (month_range 3))
    = month_range h /\
    Forall (insurance_row_ok line)
        (map (fun m => {| Insurance.Month_Index := m; Insurance.Line_ID := 3;
                          Insurance.Currency := "NAD";
                          Insurance.Premium_Cash_Outflow := 0;
                          Insurance.Expense_Recognized := 0;
                          Insurance.Prepaid_BOP := 0; Insurance.Prepaid_EOP := 0 |})
             (month_range 3)).
Proof.
  apply (insurance_schedule_is_zero (stack_row "CaseX" 3 0 1) [3; 1]%Z).
  reflexivity.
Defined.

(** ** The rebuilt statements *)

Module Rebuild.

Import M75B.
Import WaterfallSpec.
Import RebuildSpec.
Import Waterfall.
Import Roles.

Lemma reindex_values col ms xs :
  reindex_fill0 col ms = Ok xs -> xs = map (at_month col) ms.
Proof.
  unfold reindex_fill0. destruct (has_dup _); [discriminate|].
  intro H. injection H as <-. reflexivity.
Qed.

Lemma run_rebuilt (inp : inputs) (o : outputs) :
  run_m7_5b inp = Ok o -> rebuilt inp o.
Proof.
  unfold run_m7_5b. intro H.
  destruct (df_j inp) as [|j0 js]; [discriminate|].
  destruct (df_m5 inp) as [|c0 cs]; [discriminate|].
  destruct (df_m6 inp) as [|r6 rs6] eqn:E6; [discriminate|].
  destruct (df_fx inp) as [|f0 fs]; [discriminate|].
  apply bind_Ok in H as (flows & Hf & H).
  set (ms := sorted_unique (map m6_Month_Index (r6 :: rs6))) in *.
  apply bind_Ok in H as (cfo & Hcfo & H).
  apply bind_Ok in H as (ss & Hss & H).
  apply bind_Ok in H as (tax & Htax & H).
  apply bind_Ok in H as (cash & Hcash & H).
  apply reindex_values in Hcash.
  destruct (String.eqb (_classify (instrument inp)) "equity_like") eqn:Ec;
    apply bind_Ok in H as (atot & Hat & H); injection H as <-;
    apply reindex_values in Hat; subst cash atot;
    (constructor; cbn [months JUN_IN_NAD_000 JUN_OUT_SCHED_NAD_000 JUN_PIK_NAD_000
                       JUN_CONVERT_NAD_000 CFF_NAD_000 Cash_And_Equivalents_NAD_000
                       Assets_Total_NAD_000 Junior_Note_Liability_NAD_000
                       Contributed_Equity_Junior_NAD_000];
     unfold m6_cash_at, m6_assets_at; rewrite ?E6; try reflexivity).
  - exists flows. auto.
  - intros _. auto.
  - intro Hc. apply String.eqb_eq in Ec. contradiction.
  - exists flows. auto.
  - intro Hc. apply String.eqb_neq in Ec. contradiction.
  - intros _. auto.
Qed.

Lemma liability_roll_length (bal : Qc) (d p c : list Qc) :
  List.length (liability_roll bal d p c)
  = Nat.min (List.length d) (Nat.min (List.length p) (List.length c)).
Proof.
  revert bal p c. induction d as [|x d IH]; intros bal [|y p] [|z c]; cbn; auto.
Qed.

Lemma run_aligned (inp : inputs) (o : outputs) :
  run_m7_5b inp = Ok o -> aligned o.
Proof.
  intro H. pose proof (run_computed inp o H) as C. pose proof (run_rebuilt inp o H) as R.
  destruct C, R.
  destruct r_flows0 as (flows & _ & Ein & Eout & Epik & Econv).
  assert (Lpik : List.length (JUN_PIK_NAD_000 o) = List.length (months o))
    by (rewrite Epik; apply bucket_length).
  assert (Lconv : List.length (JUN_CONVERT_NAD_000 o) = List.length (months o))
    by (rewrite Econv; apply bucket_length).
  assert (Lav : List.length (available o) = List.length (months o)).
  { rewrite c_available0. unfold Np.maximum_scalar, Np.sub.
    rewrite length_map, !NpFacts.map2_length. lia. }
  assert (Lact : List.length (actual_out o) = List.length (months o)).
  { rewrite c_actual_out0. unfold Np.minimum. rewrite NpFacts.map2_length. lia. }
  assert (Lun : List.length (unpaid o) = List.length (months o)).
  { rewrite c_unpaid0. unfold Np.sub. rewrite NpFacts.map2_length. lia. }
  assert (Lcfi : List.length (CFI_NAD_000 o) = List.length (months o)).
  { rewrite c_cfi0. apply NpFacts.zeros_length. }
  assert (Lcff : List.length (CFF_NAD_000 o) = List.length (months o)).
  { rewrite c_cff0. unfold Np.sub. rewrite NpFacts.map2_length. lia. }
  assert (Lnet : List.length (NET_CF_NAD_000 o) = List.length (months o)).
  { rewrite c_net_cf0. unfold Np.add. rewrite !NpFacts.map2_length. lia. }
  assert (Lcash : List.length (Cash_And_Equivalents_NAD_000 o) = List.length (months o)).
  { rewrite r_cash0. unfold Np.add.
    rewrite NpFacts.map2_length, length_map, NpFacts.cumsum_length. lia. }
  assert (Lpay : List.length (Dividends_Payable_or_RevShare_Payable_NAD_000 o)
                 = List.length (months o)).
  { rewrite c_payable0, NpFacts.cumsum_length. exact Lun. }
  assert (Lle : List.length (Liabilities_And_Equity_Total_NAD_000 o)
                = List.length (months o)) by (rewrite c_le_total0; assumption).
  assert (Ljun : List.length (Junior_Note_Liability_NAD_000 o) = List.length (months o)
                 /\ List.length (Contributed_Equity_Junior_NAD_000 o)
                    = List.length (months o)).
  { destruct (String.eqb (_classify (instrument inp)) "equity_like") eqn:Ec.
    - apply String.eqb_eq in Ec. destruct (r_equity_like0 Ec) as (-> & ->).
      rewrite NpFacts.zeros_length, NpFacts.cumsum_length. unfold Np.sub.
      rewrite NpFacts.map2_length. lia.
    - apply String.eqb_neq in Ec. destruct (r_debt_like0 Ec) as (-> & ->).
      rewrite liability_roll_length, NpFacts.cumsum_length. unfold Np.add, Np.sub.
      rewrite !NpFacts.map2_length. lia. }
  destruct Ljun as (Lli & Leq).
  unfold aligned. repeat constructor; assumption.
Qed.

Lemma firstn_map2 {A B C : Type} (f : A -> B -> C) (k : nat) (xs : list A) (ys : list B) :
  firstn k (Np.map2 f xs ys) = Np.map2 f (firstn k xs) (firstn k ys).
Proof.
  revert xs ys. induction k as [|k IH]; intros [|x xs] [|y ys]; cbn; auto.
  f_equal. apply IH.
Qed.

Lemma total_sub (xs ys : list Qc) :
  List.length xs = List.length ys ->
  total (Np.sub xs ys) = total xs - total ys.
Proof.
  unfold total, Np.sub. revert ys.
  induction xs as [|x xs IH]; intros [|y ys] L; cbn in L; try discriminate;
    cbn [Np.map2 fold_right].
  - ring.
  - rewrite IH by lia. ring.
Qed.

Lemma total_add (xs ys : list Qc) :
  List.length xs = List.length ys ->
  total (Np.add xs ys) = total xs + total ys.
Proof.
  unfold total, Np.add. revert ys.
  induction xs as [|x xs IH]; intros [|y ys] L; cbn in L; try discriminate;
    cbn [Np.map2 fold_right].
  - ring.
  - rewrite IH by lia. ring.
Qed.

Lemma to_date_sub (xs ys : list Qc) (i : nat) :
  List.length xs = List.length ys ->
  to_date (Np.sub xs ys) i = to_date xs i - to_date ys i.
Proof.
  intro L. unfold to_date, Np.sub. rewrite firstn_map2. apply total_sub.
  rewrite !length_firstn. lia.
Qed.

Lemma to_date_add (xs ys : list Qc) (i : nat) :
  List.length xs = List.length ys ->
  to_date (Np.add xs ys) i = to_date xs i + to_date ys i.
Proof.
  intro L. unfold to_date, Np.add. rewrite firstn_map2. apply total_add.
  rewrite !length_firstn. lia.
Qed.

Lemma cumsum_to_date (xs : list Qc) (i : nat) :
  (i < List.length xs)%nat -> nth i (Np.cumsum xs) 0 = to_date xs i.
Proof. apply NpFacts.cumsum_nth. Qed.

Lemma liability_roll_cumsum (d p c : list Qc) :
  forall bal, liability_roll bal d p c
              = Np.cumsum_from bal (Np.sub (Np.add d p) c).
Proof.
  revert p c. induction d as [|x d IH]; intros [|y p] [|z c] bal; cbn; auto.
  rewrite IH. reflexivity.
Qed.

(** The columns of an aligned run, by name. *)
Lemma aligned_columns (o : outputs) :
  aligned o ->
  List.length (JUN_IN_NAD_000 o) = List.length (months o) /\
  List.length (JUN_OUT_SCHED_NAD_000 o) = List.length (months o) /\
  List.length (JUN_PIK_NAD_000 o) = List.length (months o) /\
  List.length (JUN_CONVERT_NAD_000 o) = List.length (months o) /\
  List.length (actual_out o) = List.length (months o) /\
  List.length (unpaid o) = List.length (months o) /\
  List.length (CFF_NAD_000 o) = List.length (months o) /\
  List.length (Cash_And_Equivalents_NAD_000 o) = List.length (months o).
Proof.
  unfold aligned. intro A.
  repeat match goal with
         | H : Forall _ (_ :: _) |- _ => inversion H; clear H; subst
         end.
  repeat split; assumption.
Qed.

(** X23.  (Sums are exact in the number model.)  The rebuild moves cash and total assets by the junior financing
    alone: in every period, cash is the M6 cash of the month plus the
    junior financing cash flow to date, and total assets are the M6 total
    assets of the month plus the same amount. *)
Theorem assets_move_with_junior_cash (inp : inputs) (o : outputs) :
  run_m7_5b inp = Ok o ->
  forall i, (i < List.length (months o))%nat ->
    nth i (Cash_And_Equivalents_NAD_000 o) 0
    = m6_cash_at inp (nth i (months o) 0%Z) + to_date (CFF_NAD_000 o) i /\
    nth i (Assets_Total_NAD_000 o) 0
    = m6_assets_at inp (nth i (months o) 0%Z) + to_date (CFF_NAD_000 o) i.
Proof.
  intros H i Hi. pose proof (run_rebuilt inp o H) as R.
  destruct (aligned_columns o (run_aligned inp o H))
    as (_ & _ & _ & _ & _ & _ & Lcff & Lcash).
  assert (Ecash : nth i (Cash_And_Equivalents_NAD_000 o) 0
                  = m6_cash_at inp (nth i (months o) 0%Z) + to_date (CFF_NAD_000 o) i).
  { rewrite (r_cash inp o R) at 1. unfold Np.add.
    rewrite (NpFacts.map2_nth _ _ _ i 0 0 0)
      by (rewrite ?length_map, ?NpFacts.cumsum_length; lia).
    rewrite (NpFacts.map_nth_lt _ _ i 0%Z 0) by lia.
    rewrite cumsum_to_date by lia. reflexivity. }
  split; [exact Ecash|].
  rewrite (r_assets inp o R) at 1. unfold Np.add.
  rewrite (NpFacts.map2_nth _ _ _ i 0 0 0).
  - unfold Np.sub. rewrite (NpFacts.map2_nth _ _ _ i 0 0 0) by (rewrite length_map; lia).
    rewrite !(NpFacts.map_nth_lt _ _ i 0%Z 0) by lia. rewrite Ecash. ring.
  - unfold Np.sub. rewrite NpFacts.map2_length, !length_map. lia.
  - lia.
Qed.

Lemma assets_move_with_junior_cash_witness :
  let o := run_of (run_m7_5b two_period_inputs) in
  nth 1 (Cash_And_Equivalents_NAD_000 o) 0
  = m6_cash_at two_period_inputs (nth 1 (months o) 0%Z) + to_date (CFF_NAD_000 o) 1 /\
  nth 1 (Assets_Total_NAD_000 o) 0
  = m6_assets_at two_period_inputs (nth 1 (months o) 0%Z) + to_date (CFF_NAD_000 o) 1.
Proof.
  apply (assets_move_with_junior_cash two_period_inputs _ two_periods_run 1%nat).
  vm_compute. lia.
Defined.

(** X24.  (Sums are exact in the number model.)  For an equity-like
    instrument the junior columns tie to the
    cash raised: the note liability is 0 in every period, and contributed
    equity plus the payable equals the junior financing cash flow to
    date. *)
Theorem equity_like_components_tie (inp : inputs) (o : outputs) :
  run_m7_5b inp = Ok o ->
  _classify (instrument inp) = "equity_like" ->
  forall i, (i < List.length (months o))%nat ->
    nth i (Junior_Note_Liability_NAD_000 o) 0 = 0 /\
    nth i (Contributed_Equity_Junior_NAD_000 o) 0
    + nth i (Dividends_Payable_or_RevShare_Payable_NAD_000 o) 0
    = to_date (CFF_NAD_000 o) i.
Proof.
  intros H Hc i Hi. pose proof (run_rebuilt inp o H) as R.
  pose proof (run_computed inp o H) as C.
  destruct (aligned_columns o (run_aligned inp o H))
    as (Lin & Lout & _ & _ & Lact & Lun & _ & _).
  destruct (r_equity_like inp o R Hc) as (El & Ee). split.
  - rewrite El. unfold Np.zeros. apply nth_repeat.
  - rewrite Ee, (c_payable o C), (c_unpaid o C), (c_cff o C).
    rewrite !cumsum_to_date by (unfold Np.sub; rewrite NpFacts.map2_length; lia).
    rewrite !to_date_sub by lia. ring.
Qed.

Lemma equity_like_components_tie_witness :
  let o := run_of (run_m7_5b two_period_inputs) in
  nth 1 (Junior_Note_Liability_NAD_000 o) 0 = 0 /\
  nth 1 (Contributed_Equity_Junior_NAD_000 o) 0
  + nth 1 (Dividends_Payable_or_RevShare_Payable_NAD_000 o) 0
  = to_date (CFF_NAD_000 o) 1.
Proof.
  apply (equity_like_components_tie two_period_inputs _ two_periods_run).
  - reflexivity.
  - vm_compute. lia.
Defined.

Lemma convertible_runs :
  run_m7_5b convertible_inputs = Ok (run_of (run_m7_5b convertible_inputs)).
Proof. vm_compute. reflexivity. Qed.

(** X25.  (Sums are exact in the number model.)  For a debt-like
    instrument the note liability is the draws to
    date plus the PIK accruals to date less the conversions to date, and
    the draws are counted in contributed equity as well: liability plus
    equity plus payable exceeds the junior financing cash flow to date by
    the draws and the PIK accruals to date. *)
Theorem debt_like_components (inp : inputs) (o : outputs) :
  run_m7_5b inp = Ok o ->
  _classify (instrument inp) <> "equity_like" ->
  forall i, (i < List.length (months o))%nat ->
    nth i (Junior_Note_Liability_NAD_000 o) 0
    = to_date (JUN_IN_NAD_000 o) i + to_date (JUN_PIK_NAD_000 o) i
      - to_date (JUN_CONVERT_NAD_000 o) i /\
    nth i (Junior_Note_Liability_NAD_000 o) 0
    + nth i (Contributed_Equity_Junior_NAD_000 o) 0
    + nth i (Dividends_Payable_or_RevShare_Payable_NAD_000 o) 0
    = to_date (CFF_NAD_000 o) i
      + to_date (JUN_IN_NAD_000 o) i + to_date (JUN_PIK_NAD_000 o) i.
Proof.
  intros H Hc i Hi. pose proof (run_rebuilt inp o H) as R.
  pose proof (run_computed inp o H) as C.
  destruct (aligned_columns o (run_aligned inp o H))
    as (Lin & Lout & Lpik & Lconv & Lact & Lun & _ & _).
  destruct (r_debt_like inp o R Hc) as (El & Ee).
  assert (L1 : nth i (Junior_Note_Liability_NAD_000 o) 0
               = to_date (JUN_IN_NAD_000 o) i + to_date (JUN_PIK_NAD_000 o) i
                 - to_date (JUN_CONVERT_NAD_000 o) i).
  { rewrite El, liability_roll_cumsum. fold (Np.cumsum (Np.sub (Np.add (JUN_IN_NAD_000 o)
                                               (JUN_PIK_NAD_000 o)) (JUN_CONVERT_NAD_000 o))).
    rewrite cumsum_to_date
      by (unfold Np.sub, Np.add; rewrite !NpFacts.map2_length; lia).
    rewrite to_date_sub by (unfold Np.add; rewrite NpFacts.map2_length; lia).
    rewrite to_date_add by lia. reflexivity. }
  split; [exact L1|].
  rewrite L1, Ee, (c_payable o C), (c_unpaid o C), (c_cff o C).
  rewrite !cumsum_to_date
    by (unfold Np.sub, Np.add; rewrite ?NpFacts.map2_length; lia).
  rewrite to_date_add by (unfold Np.sub; rewrite NpFacts.map2_length; lia).
  rewrite !to_date_sub by lia. ring.
Qed.

Lemma debt_like_components_witness :
  let o := run_of (run_m7_5b convertible_inputs) in
  nth 1 (Junior_Note_Liability_NAD_000 o) 0
  = to_date (JUN_IN_NAD_000 o) 1 + to_date (JUN_PIK_NAD_000 o) 1
    - to_date (JUN_CONVERT_NAD_000 o) 1 /\
  nth 1 (Junior_Note_Liability_NAD_000 o) 0
  + nth 1 (Contributed_Equity_Junior_NAD_000 o) 0
  + nth 1 (Dividends_Payable_or_RevShare_Payable_NAD_000 o) 0
  = to_date (CFF_NAD_000 o) 1
    + to_date (JUN_IN_NAD_000 o) 1 + to_date (JUN_PIK_NAD_000 o) 1.
Proof.
  apply (debt_like_components convertible_inputs _ convertible_runs).
  - discriminate.
  - vm_compute. lia.
Defined.

(** The figures of the convertible example: 9000 drawn and 90 accrued
    stand in the liability, and the 9000 stand in equity as well. *)
Example convertible_balance_sheet :
  column_of CFF_NAD_000 (run_m7_5b convertible_inputs) = [9000 # 1; -50 # 1]%Q /\
  column_of Junior_Note_Liability_NAD_000 (run_m7_5b convertible_inputs)
    = [9000 # 1; 9090 # 1]%Q /\
  column_of Contributed_Equity_Junior_NAD_000 (run_m7_5b convertible_inputs)
    = [9000 # 1; 8950 # 1]%Q /\
  column_of Dividends_Payable_or_RevShare_Payable_NAD_000 (run_m7_5b convertible_inputs)
    = [0; 0]%Q.
Proof. repeat split; vm_compute; reflexivity. Qed.

(** *** The months of a run *)

Lemma insert_unique_In (k x : Z) (ks : list Z) :
  In x (insert_unique k ks) <-> x = k \/ In x ks.
Proof.
  induction ks as [|k' ks IH]; cbn.
  - intuition.
  - destruct (Z.ltb_spec k k'); [cbn; intuition|].
    destruct (Z.eqb_spec k k'); [subst; cbn; intuition|].
    cbn. rewrite IH. intuition.
Qed.

Lemma sorted_unique_In (x : Z) (ks : list Z) :
  In x (sorted_unique ks) <-> In x ks.
Proof.
  unfold sorted_unique. induction ks as [|k ks IH]; cbn [fold_right].
  - reflexivity.
  - rewrite insert_unique_In, IH. cbn. intuition.
Qed.

Lemma ascending_cons (a : Z) (ks : list Z) :
  ascending ks -> (forall x, In x ks -> (a < x)%Z) -> ascending (a :: ks).
Proof.
  destruct ks as [|b ks]; intros H Hlt; [exact I|].
  split; [apply Hlt; left; reflexivity|exact H].
Qed.

Lemma ascending_bound (a : Z) (ks : list Z) :
  ascending (a :: ks) -> forall x, In x ks -> (a < x)%Z.
Proof.
  revert a. induction ks as [|b ks IH]; intros a H x Hx; [contradiction|].
  destruct H as (Hab & H). destruct Hx as [<-|Hx]; [exact Hab|].
  pose proof (IH b H x Hx). lia.
Qed.

Lemma ascending_tail (a : Z) (ks : list Z) : ascending (a :: ks) -> ascending ks.
Proof. destruct ks as [|b ks]; [intros _; exact I|intros (_ & H); exact H]. Qed.

Lemma insert_unique_ascending (k : Z) (ks : list Z) :
  ascending ks -> ascending (insert_unique k ks).
Proof.
  induction ks as [|k' ks IH]; intro H; cbn [insert_unique].
  - exact I.
  - destruct (Z.ltb_spec k k').
    + split; [assumption|exact H].
    + destruct (Z.eqb_spec k k'); [exact H|].
      apply ascending_cons.
      * apply IH. exact (ascending_tail _ _ H).
      * intros x Hx. apply insert_unique_In in Hx as [->|Hx]; [lia|].
        exact (ascending_bound _ _ H x Hx).
Qed.

Lemma sorted_unique_ascending (ks : list Z) : ascending (sorted_unique ks).
Proof.
  unfold sorted_unique. induction ks as [|k ks IH]; cbn [fold_right].
  - exact I.
  - apply insert_unique_ascending. exact IH.
Qed.

(** X26.  The statements of a run are aligned: every column it emits has
    one entry per month, and the months are the distinct [Month_Index]
    values of the M6 balance sheet in strictly increasing order. *)
Theorem statements_are_aligned (inp : inputs) (o : outputs) :
  run_m7_5b inp = Ok o ->
  aligned o /\ ascending (months o) /\
  (forall m, In m (months o) <-> In m (map m6_Month_Index (df_m6 inp))).
Proof.
  intro H. pose proof (run_rebuilt inp o H) as R.
  split; [exact (run_aligned inp o H)|].
  rewrite (r_months inp o R). split.
  - apply sorted_unique_ascending.
  - intro m. apply sorted_unique_In.
Qed.

Lemma statements_are_aligned_witness :
  let o := run_of (run_m7_5b two_period_inputs) in
  aligned o /\ ascending (months o) /\
  (forall m, In m (months o) <-> In m (map m6_Month_Index (df_m6 two_period_inputs))).
Proof.
  exact (statements_are_aligned two_period_inputs _ Waterfall.two_periods_run).
Defined.

(** *** The opening inflow *)

Lemma fold_min_In (l : list Z) : forall a, In (fold_left Z.min l a) (a :: l).
Proof.
  induction l as [|x l IH]; intro a; cbn [fold_left].
  - left. reflexivity.
  - destruct (IH (Z.min a x)) as [E|Hin].
    + rewrite <- E.
      destruct (Z.min_spec a x) as [(_ & M)|(_ & M)]; rewrite M;
        [left|right; left]; reflexivity.
    + right. right. exact Hin.
Qed.

Lemma list_min_In (ks : list Z) (m : Z) : list_min ks = Some m -> In m ks.
Proof.
  destruct ks as [|k ks]; [discriminate|]. cbn. intro H. injection H as <-.
  apply fold_min_In.
Qed.

(** X22.  The opening inflow is ensured: the flows the runner aggregates
    always hold a capital inflow.  A schedule that has one is used as it
    is; to a schedule that has none the runner appends one row, at the
    start month (the override, else the first month of M6), of the ticket
    converted at a rate of the FX table and divided by 1000, typed
    [Equity_In] for an equity-like instrument and [Note_Draw] otherwise. *)
Theorem opening_inflow_is_ensured (inp : inputs) (cls : string)
    (flows : list junior_flow) :
  with_opening_inflow inp cls = Ok flows ->
  inflow_rows flows <> [] /\
  ((inflow_rows (df_j inp) <> [] /\ flows = df_j inp) \/
   (inflow_rows (df_j inp) = [] /\
    exists m fx,
      flows = (df_j inp ++ [opening_inflow inp cls m fx])%list /\
      In fx (map snd (df_fx inp)) /\
      match start_month_index inp with
      | Some s => m = s
      | None => list_min (map m6_Month_Index (df_m6 inp)) = Some m
      end)).
Proof.
  unfold with_opening_inflow. intro H.
  destruct (list_min (map m6_Month_Index (df_m6 inp))) as [m6_min|] eqn:E6;
    [|discriminate].
  destruct (df_fx inp) as [|[k0 fx0] fxs] eqn:Efx; [discriminate|].
  rewrite <- Efx in H.
  destruct (inflow_rows (df_j inp)) as [|f fs] eqn:Ein.
  - cbn [map list_min filter] in H. injection H as <-. split.
    + unfold inflow_rows. rewrite filter_app. cbn [filter Flow_Type].
      assert (T : isin JUNIOR_FLOW_IN_TYPES
                    (if String.eqb cls "equity_like" then "Equity_In" else "Note_Draw")
                  = true) by (destruct (String.eqb cls "equity_like"); reflexivity).
      rewrite T. fold (inflow_rows (df_j inp)). rewrite Ein. discriminate.
    + right. split; [reflexivity|].
      eexists _, _. split; [reflexivity|]. split.
      * match goal with
        | |- context [filter ?f (df_fx inp)] =>
            destruct (filter f (df_fx inp)) as [|[k v] rest] eqn:Ef;
            [left; reflexivity|];
            assert (Hin : In (k, v) (filter f (df_fx inp)))
              by (rewrite Ef; left; reflexivity);
            apply filter_In in Hin as (Hin & _); rewrite Efx in Hin;
            apply (in_map snd) in Hin; exact Hin
        end.
      * destruct (start_month_index inp); reflexivity.
  - destruct (list_min (map Month_Index (f :: fs))) as [m|] eqn:Em; [|discriminate].
    apply list_min_In in Em. apply in_map_iff in Em as (g & Hg & Hin).
    destruct (filter (fun f0 => (Month_Index f0 =? m)%Z) (f :: fs)) as [|x xs] eqn:Ef.
    + exfalso. assert (Hf : In g (filter (fun f0 => (Month_Index f0 =? m)%Z) (f :: fs))).
      { apply filter_In. split; [exact Hin|]. apply Z.eqb_eq. exact Hg. }
      rewrite Ef in Hf. contradiction.
    + injection H as <-. split.
      * rewrite Ein. discriminate.
      * left. split; [discriminate|reflexivity].
Qed.

Lemma opening_inflow_is_ensured_witness :
  inflow_rows (df_j dividend_only_inputs
               ++ [opening_inflow dividend_only_inputs "equity_like" 1 (Num.of_Z 18)])%list
  <> [] /\
  ((inflow_rows (df_j dividend_only_inputs) <> [] /\
    (df_j dividend_only_inputs
     ++ [opening_inflow dividend_only_inputs "equity_like" 1 (Num.of_Z 18)])%list
    = df_j dividend_only_inputs) \/
   (inflow_rows (df_j dividend_only_inputs) = [] /\
    exists m fx,
      (df_j dividend_only_inputs
       ++ [opening_inflow dividend_only_inputs "equity_like" 1 (Num.of_Z 18)])%list
      = (df_j dividend_only_inputs
         ++ [opening_inflow dividend_only_inputs "equity_like" m fx])%list /\
      In fx (map snd (df_fx dividend_only_inputs)) /\
      match start_month_index dividend_only_inputs with
      | Some s => m = s
      | None => list_min (map m6_Month_Index (df_m6 dividend_only_inputs)) = Some m
      end)).
Proof.
  apply (opening_inflow_is_ensured dividend_only_inputs "equity_like").
  reflexivity.
Defined.

(** *** Classification *)

Lemma prefix_shorter (s : string) :
  String.prefix "preferred" s = true -> String.prefix "pref" s = true.
Proof.
  destruct s as [|a [|b [|c [|d s]]]]; cbn [String.prefix]; try discriminate;
    repeat (destruct (ascii_dec _ _); try discriminate); auto.
  intros _. destruct s; reflexivity.
Qed.

Lemma contains_shorter (s : string) :
  contains "preferred" s = true -> contains "pref" s = true.
Proof.
  induction s as [|a s IH]; unfold contains; fold contains.
  - cbn. discriminate.
  - intro H. apply orb_true_iff in H as [H|H].
    + rewrite (prefix_shorter _ H). reflexivity.
    + rewrite (IH H). apply orb_true_r.
Qed.

(** X21.  The classification rule: a name containing "convertible" (in
    any letter case) is debt-like even when it also names a preferred or
    SAFE instrument; a name is equity-like exactly when it has no
    "convertible" and has "safe", "pref" or "revshareonly" (the separate
    test for "preferred" adds nothing); every other name is debt-like. *)
Theorem classification_rule (instr : string) :
  (contains "convertible" (Text.lower instr) = true -> _classify instr = "debt_like") /\
  (_classify instr = "equity_like" <->
   contains "convertible" (Text.lower instr) = false /\
   (contains "safe" (Text.lower instr) || contains "pref" (Text.lower instr)
    || contains "revshareonly" (Text.lower instr)) = true) /\
  (_classify instr = "debt_like" \/ _classify instr = "equity_like").
Proof.
  unfold _classify. set (s := Text.lower instr).
  destruct (contains "convertible" s) eqn:Ec.
  - split; [reflexivity|]. split; [|left; reflexivity].
    split; [discriminate|intros [? _]; discriminate].
  - split; [discriminate|].
    destruct (contains "preferred" s) eqn:Ep.
    + rewrite (contains_shorter s Ep). rewrite !orb_true_r. cbn.
      split; [|right; reflexivity]. split; auto.
    + rewrite orb_false_r.
      destruct (contains "safe" s || contains "pref" s || contains "revshareonly" s);
        (split; [|auto]); split; auto; try discriminate.
      intros [_ ?]. discriminate.
Qed.

(** *** Column roles *)

Lemma existsb_eqb_In (c : string) (columns : list string) :
  existsb (String.eqb c) columns = true <-> In c columns.
Proof.
  rewrite existsb_exists. split.
  - intros (x & Hin & E). apply String.eqb_eq in E. subst. exact Hin.
  - intro Hin. exists c. split; [exact Hin|apply String.eqb_refl].
Qed.

Lemma find_first {A : Type} (f : A -> bool) (l : list A) (x : A) :
  find f l = Some x ->
  exists pre post, l = (pre ++ x :: post)%list /\ f x = true /\
                   forall y, In y pre -> f y = false.
Proof.
  induction l as [|a l IH]; cbn; [discriminate|].
  destruct (f a) eqn:Fa.
  - intro H. injection H as <-. exists [], l. repeat split; auto. contradiction.
  - intro H. destruct (IH H) as (pre & post & -> & Fx & Hpre).
    exists (a :: pre), post. repeat split; auto.
    intros y [<-|Hy]; auto.
Qed.

(** X20.  Role resolution: the column [_role] returns is the first
    candidate, in the order of the list, that is a column of the table; a
    hard role never comes back unresolved; and when no candidate is a
    column, the hard role fails with a [RuntimeError] and the soft role is
    [None]. *)
Theorem role_is_first_candidate (columns cands : list string) (hard : bool) :
  (forall c, _role columns cands hard = Ok (Some c) ->
     exists pre post,
       cands = (pre ++ c :: post)%list /\ In c columns /\
       forall x, In x pre -> ~ In x columns) /\
  (hard = true -> _role columns cands hard <> Ok None) /\
  ((forall x, In x cands -> ~ In x columns) ->
     _role columns cands true = fail "Cannot resolve any of the candidates" /\
     _role columns cands false = Ok None).
Proof.
  unfold _role. split; [|split].
  - intros c H.
    assert (F : _first_present columns cands = Some c).
    { destruct (hard && unresolved (_first_present columns cands)); [discriminate|].
      injection H as ->. reflexivity. }
    apply find_first in F as (pre & post & -> & Hc & Hpre).
    exists pre, post. split; [reflexivity|]. split; [apply existsb_eqb_In; exact Hc|].
    intros x Hx Hin. apply existsb_eqb_In in Hin. rewrite (Hpre x Hx) in Hin.
    discriminate Hin.
  - intros ->. cbn [andb].
    destruct (_first_present columns cands) as [c|]; cbn [unresolved].
    + destruct (String.eqb c ""); discriminate.
    + discriminate.
  - intro Hno.
    assert (F : _first_present columns cands = None).
    { unfold _first_present. destruct (find _ cands) as [c|] eqn:E; [|reflexivity].
      apply find_some in E as (Hin & Hc). apply existsb_eqb_In in Hc.
      exfalso. exact (Hno c Hin Hc). }
    rewrite F. split; reflexivity.
Qed.

Lemma role_is_first_candidate_witness :
  _role ["Month_Index"; "USD_to_NAD"] FX_AVG_CANDIDATES true
  = fail "Cannot resolve any of the candidates" \/
  exists pre post,
    FX_AVG_CANDIDATES = (pre ++ "USD_to_NAD" :: post)%list /\
    In "USD_to_NAD" ["Month_Index"; "USD_to_NAD"] /\
    forall x, In x pre -> ~ In x ["Month_Index"; "USD_to_NAD"].
Proof.
  right.
  apply (proj1 (role_is_first_candidate ["Month_Index"; "USD_to_NAD"]
                  FX_AVG_CANDIDATES true) "USD_to_NAD").
  reflexivity.
Defined.

End Rebuild.

(** ** The revolver of the M3 runner *)

Module M3Facts.

Import M3Runner.
Import M3Spec.

Lemma revolver_step_sound (rate b cx cf : Qc) :
  0 <= b ->
  let interest := b * rate in
  let need := cx - cf + interest in
  let draw := Num.max 0 need in
  let repay := if Num.ltb need 0 then Num.min b (- need) else 0 in
  0 <= draw /\ 0 <= repay <= b /\ 0 <= b + draw - repay /\ (draw = 0 \/ repay = 0).
Proof.
  intros Hb interest need draw repay. subst draw repay.
  destruct (Num.ltb need 0) eqn:L.
  - apply NumFacts.ltb_lt in L.
    rewrite (NumFacts.max_0_nonpos need) by qc_lra.
    pose proof (NumFacts.min_l b (- need)) as M1.
    pose proof (NumFacts.min_r b (- need)) as M2.
    assert (M0 : 0 <= Num.min b (- need)).
    { unfold Num.min. destruct (Num.ltb (- need) b); qc_lra. }
    set (x := Num.min b (- need)) in *.
    repeat split; try qc_lra. left. reflexivity.
  - apply NumFacts.ltb_ge in L.
    rewrite (NumFacts.max_0_nonneg need L).
    repeat split; try qc_lra. right. reflexivity.
Qed.

Lemma revolver_loop_sound (rate : Qc) (capex cfo : list Qc) (months : list Z) :
  forall i b recs,
    0 <= b ->
    revolver_loop rate capex cfo months i b = Some recs ->
    map Month_Index recs = months /\
    Forall (sound_record rate) recs /\
    (forall r, nth_error recs 0 = Some r -> Revolver_Open_Balance_NAD_000 r = b) /\
    chained recs.
Proof.
  induction months as [|m months IH]; intros i b recs Hb H; cbn [revolver_loop] in H.
  - injection H as <-. repeat split; auto.
    + intros r Hr. discriminate Hr.
    + intros j a c Ha. destruct j; discriminate Ha.
  - destruct (nth_error capex i) as [cx|]; [|discriminate].
    destruct (nth_error cfo i) as [cf|]; [|discriminate].
    destruct (revolver_step_sound rate b cx cf Hb) as (D0 & R0 & C0 & X).
    destruct (revolver_loop _ _ _ months (S i) _) as [rest|] eqn:E; [|discriminate].
    cbn [option_map] in H. injection H as <-.
    destruct (IH _ _ _ C0 E) as (I1 & I2 & I3 & I4).
    split; [cbn; f_equal; exact I1|]. split; [|split].
    + constructor; [|exact I2].
      unfold sound_record. cbn. repeat split; auto; try (apply R0).
    + intros r Hr. cbn in Hr. injection Hr as <-. reflexivity.
    + intros j a c Ha Hc. destruct j as [|j]; cbn in Ha, Hc.
      * injection Ha as <-. cbn. exact (I3 c Hc).
      * exact (I4 j a c Ha Hc).
Qed.

(** X27.  The revolver of [run_m3] is never overdrawn: its records follow
    the months; each opens at the closing balance of the one before (the
    first at 0) and closes at opening plus draw less repayment; interest
    is the opening balance times the monthly rate; balances, draws and
    repayments are never negative; no more is repaid than is owed; and no
    month both draws and repays.  No sign is asked of the rate. *)
Theorem revolver_never_overdrawn (rate : Qc) (capex cfo : list Qc) (months : list Z)
    (recs : list rev_record) :
  revolver_records rate capex cfo months = Some recs ->
  map Month_Index recs = months /\
  Forall (sound_record rate) recs /\
  (forall r, nth_error recs 0 = Some r -> Revolver_Open_Balance_NAD_000 r = 0) /\
  chained recs.
Proof.
  intro H. apply (revolver_loop_sound rate capex cfo months 0 0 recs); [|exact H].
  apply Qcle_refl.
Qed.

Lemma example_records :
  revolver_records (Num.frac 1 100) example_capex example_cfo [1; 2; 3]%Z
  = Some (records_of (revolver_records (Num.frac 1 100) example_capex example_cfo
                        [1; 2; 3]%Z)).
Proof. vm_compute. reflexivity. Qed.

Lemma revolver_never_overdrawn_witness :
  let recs := records_of (revolver_records (Num.frac 1 100) example_capex example_cfo
                            [1; 2; 3]%Z) in
  map Month_Index recs = [1; 2; 3]%Z /\
  Forall (sound_record (Num.frac 1 100)) recs /\
  (forall r, nth_error recs 0 = Some r -> Revolver_Open_Balance_NAD_000 r = 0) /\
  chained recs.
Proof.
  exact (revolver_never_overdrawn _ _ _ _ _ example_records).
Defined.

(** The example: 100 drawn, 29 repaid of the 30 surplus after 1 of
    interest, and the remaining 71 repaid in the third month. *)
Example example_revolver_balances :
  map (fun r => this (Revolver_Close_Balance_NAD_000 r))
      (records_of (revolver_records (Num.frac 1 100) example_capex example_cfo
                     [1; 2; 3]%Z))
  = [100 # 1; 71 # 1; 0]%Q.
Proof. vm_compute. reflexivity. Qed.

End M3Facts.

(** ** The check of the M3 artifacts *)

Module CiFacts.

Import CiCheck.
Import CiSpec.

(** X28.  The check does not accept the schedule of the runner it runs:
    on the revolver table [run_m3] builds, [main] returns 3 (missing
    columns), because the table names its opening balance
    [Revolver_Open_Balance_NAD_000], which is none of the names [main]
    looks for. *)
Theorem ci_rejects_runner_schedule (recs : list M3Runner.rev_record) :
  main true true (table_of_records recs) = 3%Z.
Proof. destruct recs; reflexivity. Qed.

Lemma map2_map {A B C D : Type} (f : B -> C -> D) (g : A -> B) (h : A -> C) (l : list A) :
  Np.map2 f (map g l) (map h l) = map (fun x => f (g x) (h x)) l.
Proof. induction l as [|x l IH]; cbn; [reflexivity|]. f_equal. exact IH. Qed.

Lemma dropna_perm {A : Type} (xs ys : list (option A)) :
  Permutation xs ys -> Permutation (dropna xs) (dropna ys).
Proof.
  induction 1 as [|x xs ys _ IH|x y xs|xs ys zs _ IH1 _ IH2].
  - constructor.
  - destruct x; cbn; [constructor|]; exact IH.
  - destruct x, y; cbn; try apply Permutation_refl. apply perm_swap.
  - eapply Permutation_trans; eauto.
Qed.

Lemma fold_max_spec (xs : list Qc) :
  forall a, In (fold_left Num.max xs a) (a :: xs) /\
            forall y, In y (a :: xs) -> y <= fold_left Num.max xs a.
Proof.
  induction xs as [|b xs IH]; intro a; cbn [fold_left].
  - split; [left; reflexivity|]. intros y [<-|[]]. apply Qcle_refl.
  - destruct (IH (Num.max a b)) as (Hin & Hub). split.
    + destruct Hin as [E|Hin]; [|right; right; exact Hin].
      rewrite <- E. unfold Num.max. destruct (Num.ltb a b); [right; left|left]; reflexivity.
    + intros y Hy.
      assert (Hm : Num.max a b <= fold_left Num.max xs (Num.max a b))
        by (apply Hub; left; reflexivity).
      destruct Hy as [<-|[<-|Hy]].
      * eapply Qcle_trans; [apply NumFacts.max_l|exact Hm].
      * eapply Qcle_trans; [apply NumFacts.max_r|exact Hm].
      * apply Hub. right. exact Hy.
Qed.

Lemma series_max_perm (xs ys : list Qc) :
  Permutation xs ys -> Check.series_max xs = Check.series_max ys.
Proof.
  intro P. destruct xs as [|x xs], ys as [|y ys].
  - reflexivity.
  - apply Permutation_nil in P. discriminate P.
  - apply Permutation_sym, Permutation_nil in P. discriminate P.
  - cbn [Check.series_max]. f_equal.
    destruct (fold_max_spec xs x) as (I1 & U1).
    destruct (fold_max_spec ys y) as (I2 & U2).
    apply Qcle_antisym.
    + apply U2. eapply Permutation_in; [exact P|exact I1].
    + apply U1. eapply Permutation_in; [apply Permutation_sym; exact P|exact I2].
Qed.

Lemma insert_sorted_comm (a b : Z) (l : list Z) :
  insert_sorted a (insert_sorted b l) = insert_sorted b (insert_sorted a l).
Proof.
  induction l as [|k l IH]; cbn [insert_sorted].
  - destruct (Z.leb_spec a b), (Z.leb_spec b a); try lia; try reflexivity.
    assert (a = b) by lia. subst. reflexivity.
  - destruct (Z.leb_spec b k), (Z.leb_spec a k); cbn [insert_sorted];
      repeat match goal with
             | |- context [(?x <=? ?y)%Z] => destruct (Z.leb_spec x y)
             end; try lia; try reflexivity.
    + assert (a = b) by lia. subst. reflexivity.
    + f_equal. exact IH.
Qed.

Lemma sort_values_perm (xs ys : list Z) :
  Permutation xs ys -> sort_values xs = sort_values ys.
Proof.
  unfold sort_values.
  induction 1 as [|x xs ys _ IH|x y xs|xs ys zs _ IH1 _ IH2]; cbn [fold_right].
  - reflexivity.
  - rewrite IH. reflexivity.
  - apply insert_sorted_comm.
  - congruence.
Qed.

(** X29.  The verdict of [main] does not depend on the order of the rows
    of the table: the months are sorted before the contiguity test, and
    the identity test looks at the largest deviation. *)
Theorem verdict_ignores_row_order (idx_exists rev_exists : bool) (df df' : table) :
  columns df = columns df' ->
  Permutation (rows df) (rows df') ->
  main idx_exists rev_exists df = main idx_exists rev_exists df'.
Proof.
  intros Hc Hp. unfold main. rewrite <- Hc.
  destruct (negb idx_exists || negb rev_exists); [reflexivity|].
  destruct (pick (columns df) "open") as [open_c|]; [|reflexivity].
  destruct (pick (columns df) "close") as [close_c|]; [|reflexivity].
  destruct (pick (columns df) "int") as [int_c|]; [|reflexivity].
  destruct (negb _); [reflexivity|].
  assert (Ec : contiguous df = contiguous df').
  { unfold contiguous, column. do 2 f_equal. apply sort_values_perm.
    apply Permutation_map, dropna_perm, Permutation_map. exact Hp. }
  assert (Ei : forall dcol rcol,
             identity_ok df open_c close_c dcol rcol
             = identity_ok df' open_c close_c dcol rcol).
  { intros dcol rcol. unfold identity_ok, Check.identity_ok.
    rewrite (series_max_perm (dropna (deltas df open_c close_c dcol rcol))
                             (dropna (deltas df' open_c close_c dcol rcol)));
      [reflexivity|].
    apply dropna_perm. unfold deltas, column.
    assert (Z : forall (d : table) (c : option string),
               column_or_zero d c
               = map (fun r => match c with
                               | Some n => cell r n
                               | None => Some 0
                               end) (rows d)).
    { intros d [n|]; reflexivity. }
    rewrite !Z, !map2_map. apply Permutation_map, Permutation_map. exact Hp. }
  rewrite Ec, Ei. reflexivity.
Qed.

Lemma verdict_ignores_row_order_witness :
  main true true ci_table = main true true ci_table_reversed.
Proof.
  apply (verdict_ignores_row_order true true ci_table ci_table_reversed).
  - reflexivity.
  - apply perm_swap.
Defined.

(** Both orders pass: exit code 0. *)
Example ci_table_passes :
  main true true ci_table = 0%Z /\ main true true ci_table_reversed = 0%Z.
Proof. split; vm_compute; reflexivity. Qed.

End CiFacts.

(** ** The USD views *)

Module UsdFacts.

Import M75B.
Import Usd.
Import UsdSpec.

Lemma lookup_month_from (m0 : Z) (rate : list (option Qc)) :
  forall (n : nat) (m0' : Z) (j : nat),
    m0' = m0 -> List.length rate = n -> (j < n)%nat ->
    lookup_month (combine (months_from m0 n) rate) (m0 + Z.of_nat j) = nth j rate None.
Proof.
  intros n m0' j _. revert m0 rate j.
  induction n as [|n IH]; intros m0 rate j Hl Hj; [lia|].
  destruct rate as [|r rate]; [discriminate|].
  rewrite months_from_S. cbn [combine lookup_month].
  destruct j as [|j].
  - replace (m0 + Z.of_nat 0)%Z with m0 by lia. rewrite Z.eqb_refl. reflexivity.
  - destruct (Z.eqb_spec m0 (m0 + Z.of_nat (S j))); [lia|].
    replace (m0 + Z.of_nat (S j))%Z with ((m0 + 1) + Z.of_nat j)%Z by lia.
    cbn [nth]. apply IH; cbn in Hl; lia.
Qed.

Lemma lookup_month_below (m0 m : Z) (n : nat) (rate : list (option Qc)) :
  (m < m0)%Z -> lookup_month (combine (months_from m0 n) rate) m = None.
Proof.
  revert m0 rate. induction n as [|n IH]; intros m0 rate Hm; [reflexivity|].
  rewrite months_from_S. destruct rate as [|r rate]; [reflexivity|].
  cbn [combine lookup_month]. destruct (Z.eqb_spec m0 m); [lia|].
  apply IH. lia.
Qed.

Lemma divide_aligned_nth (months : list Z) (rate : list (option Qc)) (nad : list Qc)
    (i : nat) :
  (i < List.length nad)%nat ->
  nth i (divide_aligned months rate nad) None
  = option_map (fun r => nth i nad 0 / r)
               (lookup_month (combine months rate) (Z.of_nat i)).
Proof.
  intro Hi. unfold divide_aligned.
  rewrite (NpFacts.map_nth_lt _ _ i (0%nat, 0) None)
    by (rewrite length_combine, length_seq; lia).
  rewrite combine_nth by (rewrite length_seq; reflexivity).
  rewrite seq_nth by exact Hi. reflexivity.
Qed.

Lemma ffill_from_length (xs : list (option Qc)) :
  forall last, List.length (ffill_from last xs) = List.length xs.
Proof. induction xs as [|x xs IH]; intro last; cbn; auto. Qed.

Lemma ffill_from_Forall (P : option Qc -> Prop) (xs : list (option Qc)) :
  forall last, P last -> Forall P xs -> Forall P (ffill_from last xs).
Proof.
  induction xs as [|x xs IH]; intros last Hl Hx; cbn [ffill_from]; [constructor|].
  inversion Hx as [|? ? Px Pxs]; subst.
  assert (Pv : P match x with Some _ => x | None => last end) by (destruct x; assumption).
  constructor; [exact Pv|]. apply IH; assumption.
Qed.

Lemma fx_rate_sound (col : column) (months : list Z) (rate : list (option Qc)) :
  fx_rate col months = Ok rate ->
  List.length rate = List.length months /\ Forall (nonzero_rate) rate.
Proof.
  unfold fx_rate, reindex. destruct (has_dup _); [discriminate|]. cbn [bind].
  intro H. injection H as <-. unfold bfill, ffill, replace_zero. split.
  - rewrite length_rev, ffill_from_length, length_rev, ffill_from_length, !length_map.
    reflexivity.
  - assert (N : nonzero_rate None) by (intros q Hq; discriminate Hq).
    apply Forall_rev. apply ffill_from_Forall; [exact N|]. apply Forall_rev.
    apply ffill_from_Forall; [exact N|]. apply Forall_map. apply Forall_forall.
    intros x _. destruct x as [q|]; [|exact N].
    destruct (Num.eqb q 0) eqn:E; [exact N|].
    intros q' Hq. injection Hq as <-. apply NumFacts.eqb_neq. exact E.
Qed.

(** X30.  On a calendar whose months are 1 to [n], a USD column is the
    NAD column divided row by row by the FX rate of the month before: the
    rows are renumbered from 0 while the rates stay labelled by month, so
    the first row has no USD value and the row of month [m] is converted
    at the rate of month [m - 1].  No rate used is 0. *)
Theorem usd_view_uses_previous_month (fx_col : column) (n : nat) (nad : list Qc)
    (usd : list (option Qc)) :
  List.length nad = n ->
  usd_column fx_col (months_from 1 n) nad = Ok usd ->
  exists rate,
    fx_rate fx_col (months_from 1 n) = Ok rate /\
    Forall nonzero_rate rate /\
    forall i, (i < n)%nat ->
      nth i usd None
      = match i with
        | O => None
        | S j => option_map (fun r => nth i nad 0 / r) (nth j rate None)
        end.
Proof.
  intros Hn H. unfold usd_column in H.
  apply bind_Ok in H as (rate & Hr & H). injection H as <-.
  exists rate. split; [exact Hr|].
  destruct (fx_rate_sound _ _ _ Hr) as (Hl & Hz).
  rewrite months_from_length in Hl. split; [exact Hz|].
  intros i Hi. rewrite divide_aligned_nth by lia.
  destruct i as [|j].
  - rewrite lookup_month_below by lia. reflexivity.
  - replace (Z.of_nat (S j)) with (1 + Z.of_nat j)%Z by lia.
    rewrite (lookup_month_from 1 rate n 1 j eq_refl Hl) by lia. reflexivity.
Qed.

Lemma usd_example_runs :
  usd_column example_fx (months_from 1 3) [Num.of_Z 1800; Num.of_Z 1800; Num.of_Z 1800]
  = Ok (columns_of (usd_column example_fx (months_from 1 3)
                      [Num.of_Z 1800; Num.of_Z 1800; Num.of_Z 1800])).
Proof. vm_compute. reflexivity. Qed.

Lemma usd_view_uses_previous_month_witness :
  exists rate,
    fx_rate example_fx (months_from 1 3) = Ok rate /\
    Forall nonzero_rate rate /\
    forall i, (i < 3)%nat ->
      nth i (columns_of (usd_column example_fx (months_from 1 3)
                           [Num.of_Z 1800; Num.of_Z 1800; Num.of_Z 1800])) None
      = match i with
        | O => None
        | S j => option_map
                   (fun r => nth i [Num.of_Z 1800; Num.of_Z 1800; Num.of_Z 1800] 0 / r)
                   (nth j rate None)
        end.
Proof.
  exact (usd_view_uses_previous_month example_fx 3
           [Num.of_Z 1800; Num.of_Z 1800; Num.of_Z 1800] _ eq_refl usd_example_runs).
Defined.

(** 1800 NAD in each of three months at 18, 19 and 20: the first month
    has no USD value, the second is converted at 18 and the third at 19. *)
Example usd_example :
  plain (usd_column example_fx [1; 2; 3]%Z
           [Num.of_Z 1800; Num.of_Z 1800; Num.of_Z 1800])
  = [None; Some (100 # 1); Some (1800 # 19)]%Q.
Proof. vm_compute. reflexivity. Qed.

End UsdFacts.
